(** * Enum and enum-field code generation of the javanano backend

    The development embeds the two generator classes of the protocol
    compiler's javanano backend that deal with enumerations:

    - [EnumGenerator] (the enum definition emitter), and
    - [EnumFieldGenerator] / [RepeatedEnumFieldGenerator]
      (javanano_enum_field.cc).

    The generators print Java text through an [io::Printer].  The first
    half of the file embeds the generators as functions to text; the
    second half gives the emitted Java fragments their meaning over the
    nano runtime (coded streams, Java [int] arithmetic, arrays) and states
    the properties of the generated operations. *)

From Stdlib Require Import ZArith List String Ascii Lia Bool Arith.
From Stdlib Require Import DecimalString Sorted.
Import ListNotations.

Open Scope string_scope.

(** ** Small option monad used for every fallible step *)

Definition bind {A B : Type} (a : option A) (k : A -> option B) : option B :=
  match a with
  | Some x => k x
  | None => None
  end.

Notation "'do' x <- a ; k" := (bind a (fun x => k))
  (at level 10, x pattern, a at level 100, k at level 200).

(** ** Strings *)

Module Str.

Definition nl : ascii := "010"%char.
Definition dollar : ascii := "$"%char.

Definition NL : string := String nl "".

Definition snoc (s : string) (c : ascii) : string := s ++ String c "".

Lemma app_nil_r (s : string) : s ++ "" = s.
Proof. induction s; simpl; congruence. Qed.

Lemma app_assoc (a b c : string) : (a ++ b) ++ c = a ++ (b ++ c).
Proof. induction a; simpl; congruence. Qed.

Lemma length_app (a b : string) :
  String.length (a ++ b) = String.length a + String.length b.
Proof. induction a; simpl; congruence. Qed.

Fixpoint concat (l : list string) : string :=
  match l with
  | [] => ""
  | s :: r => s ++ concat r
  end.

Lemma concat_app (l1 l2 : list string) :
  concat (l1 ++ l2) = concat l1 ++ concat l2.
Proof.
  induction l1; simpl; [reflexivity|].
  rewrite IHl1, app_assoc; reflexivity.
Qed.

(** [prefix p s] decides whether [s] starts with [p]. *)
Fixpoint prefix (p s : string) : bool :=
  match p, s with
  | "", _ => true
  | String a p', String b s' => Ascii.eqb a b && prefix p' s'
  | String _ _, "" => false
  end.

(** [infix p s] decides whether [p] occurs somewhere in [s]. *)
Fixpoint infix (p s : string) : bool :=
  prefix p s ||
  match s with
  | "" => false
  | String _ s' => infix p s'
  end.

End Str.

(** Modelled from the spec: strutil's [SimpleItoa] (outside this
    development), the "numeric literal text" of the naming and formatting
    collaborator: the decimal text of an integer. *)
Definition SimpleItoa (z : Z) : string :=
  NilZero.string_of_int (Z.to_int z).

(** ** The text sink *)

(** Modelled from the spec: the [io::Printer] class (printer.cc, outside this
    development), "an output-text sink accepting
    named-placeholder template substitution with indent/outdent scoping".
    A placeholder is written [$name$]; two delimiters in a row stand for
    one literal delimiter; the current indentation is written in front of
    the first chunk of every line. *)
Module Printer.

Definition variables := list (string * string).

Fixpoint find (k : string) (m : variables) : option string :=
  match m with
  | [] => None
  | (k', v) :: r => if String.eqb k k' then Some v else find k r
  end.

(** [m[k] = v] of a [map<string, string>]: the binding is replaced. *)
Fixpoint set (k v : string) (m : variables) : variables :=
  match m with
  | [] => [(k, v)]
  | (k', v') :: r =>
      if String.eqb k k' then (k, v) :: r else (k', v') :: set k v r
  end.

Record t : Type := mk {
  out : string;
  indent_ : string;
  at_start_of_line_ : bool
}.

Definition init : t := mk "" "" true.

(** Modelled from the spec: [Printer::WriteRaw].  An empty chunk writes
    nothing; a chunk written at the start of a line is indented unless it
    starts with a line break. *)
Definition WriteRaw (data : string) (p : t) : t :=
  if at_start_of_line_ p then
    match data with
    | "" => p
    | String c _ =>
        if Ascii.eqb c Str.nl
        then mk (out p ++ data) (indent_ p) true
        else mk (out p ++ indent_ p ++ data) (indent_ p) false
    end
  else mk (out p ++ data) (indent_ p) false.

Definition line_done (p : t) : t := mk (out p) (indent_ p) true.

Inductive mode : Type :=
| Text (chunk : string)
| Var (name : string).

(** Modelled from the spec: the loop of [Printer::Print], one pass over
    the template.  The text up to a line break or a delimiter is written
    as one chunk; [None] stands for the fatal log of an unclosed or
    undefined placeholder. *)
Fixpoint Print_from (vars : variables) (text : string) (m : mode) (p : t)
  : option t :=
  match text, m with
  | "", Text chunk => Some (WriteRaw chunk p)
  | "", Var _ => None
  | String c rest, Text chunk =>
      if Ascii.eqb c Str.nl then
        Print_from vars rest (Text "")
          (line_done (WriteRaw (Str.snoc chunk c) p))
      else if Ascii.eqb c Str.dollar then
        Print_from vars rest (Var "") (WriteRaw chunk p)
      else Print_from vars rest (Text (Str.snoc chunk c)) p
  | String c rest, Var name =>
      if Ascii.eqb c Str.dollar then
        match name with
        | "" => Print_from vars rest (Text "") (WriteRaw "$" p)
        | _ =>
            match find name vars with
            | Some v => Print_from vars rest (Text "") (WriteRaw v p)
            | None => None
            end
        end
      else Print_from vars rest (Var (Str.snoc name c)) p
  end.

(** Modelled from the spec: [Printer::Print], the "named-placeholder
    template substitution". *)
Definition Print (vars : variables) (text : string) (p : t) : option t :=
  Print_from vars text (Text "") p.

(** Modelled from the spec: [Printer::Indent] and [Printer::Outdent], the
    "indent/outdent scoping": two blanks more, two blanks less. *)
Definition Indent (p : t) : t :=
  mk (out p) (indent_ p ++ "  ") (at_start_of_line_ p).

(** Modelled from the spec: [Printer::Outdent]; without a matching
    [Indent] it is a fatal log. *)
Definition Outdent (p : t) : option t :=
  match indent_ p with
  | "" => None
  | _ =>
      Some (mk (out p)
               (substring 0 (String.length (indent_ p) - 2) (indent_ p))
               (at_start_of_line_ p))
  end.

End Printer.

(** ** Descriptors *)

(** A declared enum value.  A C++ [const EnumValueDescriptor*] of one
    enumeration is identified by the declaration index of the value it
    points to, so pointer equality is equality of [index]. *)
Record EnumValueDescriptor : Type := {
  name : string;
  number : Z;
  index : nat
}.

Definition same_value (a b : EnumValueDescriptor) : bool :=
  Nat.eqb (index a) (index b).

(** An enumeration: its name, its declarations [(name, number)] in
    declaration order, whether it is nested in a message, and the name of
    the file that declares it. *)
Record EnumDescriptor : Type := {
  enum_name : string;
  decls : list (string * Z);
  nested : bool;
  file_name : string
}.

Definition value_count (d : EnumDescriptor) : nat := List.length (decls d).

Definition value (d : EnumDescriptor) (i : nat) : option EnumValueDescriptor :=
  match nth_error (decls d) i with
  | Some (n, k) => Some {| name := n; number := k; index := i |}
  | None => None
  end.

(** [first_with k l i] is the position, counted from [i], of the first
    declaration of [l] whose number is [k]. *)
Fixpoint first_with (k : Z) (l : list (string * Z)) (i : nat) : option nat :=
  match l with
  | [] => None
  | (_, k') :: r => if Z.eqb k' k then Some i else first_with k r (S i)
  end.

(** Modelled from the spec: [EnumDescriptor::FindValueByNumber]
    (descriptor.cc, outside this development).  "For a fixed
    number, the canonical value is the one with the smallest
    declaration-order index among all values sharing that number": the
    lookup by number answers the first value declared with the number, and
    a null pointer when there is none. *)
Definition FindValueByNumber (d : EnumDescriptor) (k : Z)
  : option EnumValueDescriptor :=
  match first_with k (decls d) 0 with
  | Some i => value d i
  | None => None
  end.

(** The generator parameters that [EnumGenerator] consults. *)
Record Params : Type := {
  java_enum_style : bool;
  java_multiple_files : string -> bool
}.

(** ** EnumGenerator *)

Module EnumGenerator.

Record Alias : Type := {
  value_ : EnumValueDescriptor;
  canonical_value : option EnumValueDescriptor
}.

Record t : Type := {
  canonical_values_ : list EnumValueDescriptor;
  aliases_ : list Alias
}.

Definition empty : t := {| canonical_values_ := []; aliases_ := [] |}.

Section Constructor.

(** The lookup by number the constructor calls: a declared value of the
    enumeration, or null. *)
Variable find_by_number : EnumDescriptor -> Z -> option EnumValueDescriptor.

(** The body of the constructor's loop for index [i]. *)
Definition classify (d : EnumDescriptor) (g : t) (i : nat) : t :=
  match value d i with
  | None => g
  | Some v =>
      let canonical := find_by_number d (number v) in
      let is_canonical :=
        match canonical with
        | Some c => same_value v c
        | None => false
        end in
      if is_canonical then
        {| canonical_values_ := canonical_values_ g ++ [v];
           aliases_ := aliases_ g |}
      else
        {| canonical_values_ := canonical_values_ g;
           aliases_ := aliases_ g
                       ++ [{| value_ := v; canonical_value := canonical |}] |}
  end.

(** [EnumGenerator::EnumGenerator]: one pass over the declared values. *)
Definition new (d : EnumDescriptor) : t :=
  fold_left (classify d) (seq 0 (value_count d)) empty.

End Constructor.

Section Generate.

(** The identifier legaliser of javanano_helpers, an external
    collaborator. *)
Variable RenameJavaKeywords : string -> string.

Definition canonical_template : string :=
  "public static final int $name$ = $canonical_value$;" ++ Str.NL.

Definition alias_template : string :=
  "public static final int $name$ = $canonical_name$;" ++ Str.NL.

Definition print_canonical (p : Printer.t) (v : EnumValueDescriptor)
  : option Printer.t :=
  Printer.Print
    [("name", RenameJavaKeywords (name v));
     ("canonical_value", SimpleItoa (number v))]
    canonical_template p.

(** An alias whose canonical pointer is null cannot be printed: the
    generator dereferences it. *)
Definition print_alias (p : Printer.t) (a : Alias) : option Printer.t :=
  do c <- canonical_value a;
  Printer.Print
    [("name", RenameJavaKeywords (name (value_ a)));
     ("canonical_name", RenameJavaKeywords (name c))]
    alias_template p.

Fixpoint print_all {A : Type} (f : Printer.t -> A -> option Printer.t)
  (l : list A) (p : Printer.t) : option Printer.t :=
  match l with
  | [] => Some p
  | x :: r => do p' <- f p x; print_all f r p'
  end.

(** [EnumGenerator::Generate]. *)
Definition Generate (params : Params) (d : EnumDescriptor) (g : t)
  (p : Printer.t) : option Printer.t :=
  do p <- Printer.Print [("classname", enum_name d)]
            ("// enum $classname$" ++ Str.NL) p;
  let use_shell_class := java_enum_style params in
  do p <-
    (if use_shell_class then
       let is_own_file :=
         negb (nested d) && java_multiple_files params (file_name d) in
       do p <- Printer.Print
                 [("modifiers", if is_own_file then "" else "static ");
                  ("classname", RenameJavaKeywords (enum_name d))]
                 ("public $modifiers$final class $classname$ {" ++ Str.NL ++
                  "  private $classname$() {}" ++ Str.NL ++
                  "  " ++ Str.NL) p;
       Some (Printer.Indent p)
     else Some p);
  do p <- print_all print_canonical (canonical_values_ g) p;
  do p <- print_all print_alias (aliases_ g) p;
  do p <-
    (if use_shell_class then
       do p <- Printer.Outdent p;
       Printer.Print [] ("}" ++ Str.NL) p
     else Some p);
  Printer.Print [] Str.NL p.

End Generate.

End EnumGenerator.

(** ** Facts about descriptors and the lookup by number *)

Lemma value_index (d : EnumDescriptor) (i : nat) (v : EnumValueDescriptor) :
  value d i = Some v -> index v = i /\ i < value_count d.
Proof.
  unfold value, value_count. intros H.
  destruct (nth_error (decls d) i) as [[n k]|] eqn:E; [|discriminate].
  inversion H; subst; simpl. split; [reflexivity|].
  apply nth_error_Some. congruence.
Qed.

Lemma value_self (d : EnumDescriptor) (i : nat) (v : EnumValueDescriptor) :
  value d i = Some v -> value d (index v) = Some v.
Proof.
  intros H. destruct (value_index _ _ _ H) as [-> _]. exact H.
Qed.

Lemma value_inj (d : EnumDescriptor) (a b : EnumValueDescriptor) :
  value d (index a) = Some a -> value d (index b) = Some b ->
  same_value a b = true -> a = b.
Proof.
  unfold same_value. intros Ha Hb E. apply Nat.eqb_eq in E.
  rewrite E in Ha. congruence.
Qed.

Lemma first_with_spec (k : Z) (l : list (string * Z)) (s j : nat) :
  first_with k l s = Some j ->
  s <= j /\
  (exists n, nth_error l (j - s) = Some (n, k)) /\
  (forall i n' k', i < j - s -> nth_error l i = Some (n', k') -> k' <> k).
Proof.
  revert s. induction l as [|[n0 k0] l IH]; intros s H; simpl in H.
  - discriminate.
  - destruct (Z.eqb k0 k) eqn:E.
    + inversion H; subst. apply Z.eqb_eq in E. subst.
      rewrite Nat.sub_diag. split; [lia|]. split; [eexists; reflexivity|].
      intros; lia.
    + apply IH in H. destruct H as (Hle & (n & Hn) & Hmin).
      apply Z.eqb_neq in E.
      split; [lia|].
      replace (j - s) with (S (j - S s)) by lia. split.
      * exists n. exact Hn.
      * intros [|i] n' k' Hi Hnth; simpl in Hnth.
        -- inversion Hnth; subst. exact E.
        -- eapply Hmin; [|exact Hnth]. lia.
Qed.

Lemma first_with_exists (k : Z) (l : list (string * Z)) (s i : nat) (n : string) :
  nth_error l i = Some (n, k) ->
  exists j, first_with k l s = Some j /\ j <= s + i.
Proof.
  revert s i. induction l as [|[n0 k0] l IH]; intros s i H.
  - destruct i; discriminate.
  - simpl. destruct (Z.eqb k0 k) eqn:E.
    + exists s. split; [reflexivity|lia].
    + destruct i as [|i]; simpl in H.
      * inversion H; subst. rewrite Z.eqb_refl in E. discriminate.
      * destruct (IH (S s) i H) as (j & Hj & Hle).
        exists j. split; [exact Hj|lia].
Qed.

(** What the lookup answers is a declared value with the number asked
    for, and no value declared before it has that number. *)
Lemma FindValueByNumber_spec (d : EnumDescriptor) (k : Z)
  (c : EnumValueDescriptor) :
  FindValueByNumber d k = Some c ->
  number c = k /\ value d (index c) = Some c /\
  (forall i v, i < index c -> value d i = Some v -> number v <> k).
Proof.
  unfold FindValueByNumber. intros H.
  destruct (first_with k (decls d) 0) as [j|] eqn:E; [|discriminate].
  destruct (first_with_spec _ _ _ _ E) as (_ & (n & Hn) & Hmin).
  rewrite Nat.sub_0_r in *.
  destruct (value_index _ _ _ H) as [Hi _]. subst j.
  split; [|split].
  - unfold value in H. rewrite Hn in H. inversion H; reflexivity.
  - exact H.
  - intros i v Hi Hv. unfold value in Hv.
    destruct (nth_error (decls d) i) as [[n' k']|] eqn:En; [|discriminate].
    inversion Hv; subst; simpl. eapply Hmin; eauto.
Qed.

(** Every declared value has a canonical value, declared no later. *)
Lemma FindValueByNumber_total (d : EnumDescriptor) (i : nat)
  (v : EnumValueDescriptor) :
  value d i = Some v ->
  exists c, FindValueByNumber d (number v) = Some c /\ index c <= i.
Proof.
  intros H. unfold FindValueByNumber.
  assert (Hn : nth_error (decls d) i = Some (name v, number v)).
  { unfold value in H.
    destruct (nth_error (decls d) i) as [[n k]|]; [|discriminate].
    inversion H; reflexivity. }
  destruct (first_with_exists _ _ 0 _ _ Hn) as (j & Hj & Hle).
  rewrite Hj.
  destruct (first_with_spec _ _ _ _ Hj) as (_ & (n & Hn') & _).
  rewrite Nat.sub_0_r in Hn'.
  unfold value. rewrite Hn'. eexists. split; [reflexivity|]. simpl. lia.
Qed.

(** ** What the constructor builds *)

Module EnumFacts.

Import EnumGenerator.

Section Classification.

Variable find_by_number : EnumDescriptor -> Z -> option EnumValueDescriptor.
Variable d : EnumDescriptor.

Definition is_canonical (v : EnumValueDescriptor) : bool :=
  match find_by_number d (number v) with
  | Some c => same_value v c
  | None => false
  end.

Definition canonical_at (i : nat) : list EnumValueDescriptor :=
  match value d i with
  | Some v => if is_canonical v then [v] else []
  | None => []
  end.

Definition alias_at (i : nat) : list Alias :=
  match value d i with
  | Some v =>
      if is_canonical v then []
      else [{| value_ := v; canonical_value := find_by_number d (number v) |}]
  | None => []
  end.

Lemma fold_classify (l : list nat) (g : t) :
  fold_left (classify find_by_number d) l g
  = {| canonical_values_ := canonical_values_ g ++ flat_map canonical_at l;
       aliases_ := aliases_ g ++ flat_map alias_at l |}.
Proof.
  revert g. induction l as [|i l IH]; intros g; simpl.
  - rewrite !app_nil_r. destruct g; reflexivity.
  - rewrite IH. unfold classify, canonical_at, alias_at, is_canonical.
    destruct (value d i) as [v|]; simpl; [|reflexivity].
    destruct (find_by_number d (number v)) as [c|]; simpl.
    + destruct (same_value v c); simpl; rewrite <- ?app_assoc; reflexivity.
    + rewrite <- ?app_assoc; reflexivity.
Qed.

Lemma new_canonical_values :
  canonical_values_ (new find_by_number d)
  = flat_map canonical_at (seq 0 (value_count d)).
Proof. unfold new. rewrite fold_classify. reflexivity. Qed.

Lemma new_aliases :
  aliases_ (new find_by_number d)
  = flat_map alias_at (seq 0 (value_count d)).
Proof. unfold new. rewrite fold_classify. reflexivity. Qed.

Lemma in_canonical_values (c : EnumValueDescriptor) :
  In c (canonical_values_ (new find_by_number d)) <->
  value d (index c) = Some c /\ is_canonical c = true.
Proof.
  rewrite new_canonical_values, in_flat_map. split.
  - intros (i & _ & Hc). unfold canonical_at in Hc.
    destruct (value d i) as [v|] eqn:E; [|contradiction].
    destruct (is_canonical v) eqn:Ec; [|contradiction].
    destruct Hc as [->|[]]. split; [|exact Ec].
    eapply value_self; eassumption.
  - intros [Hv Hc]. exists (index c). split.
    + apply in_seq. destruct (value_index _ _ _ Hv). lia.
    + unfold canonical_at. rewrite Hv, Hc. left; reflexivity.
Qed.

Lemma in_aliases (a : Alias) :
  In a (aliases_ (new find_by_number d)) <->
  value d (index (value_ a)) = Some (value_ a) /\
  is_canonical (value_ a) = false /\
  canonical_value a = find_by_number d (number (value_ a)).
Proof.
  rewrite new_aliases, in_flat_map. split.
  - intros (i & _ & Ha). unfold alias_at in Ha.
    destruct (value d i) as [v|] eqn:E; [|contradiction].
    destruct (is_canonical v) eqn:Ec; [contradiction|].
    destruct Ha as [<-|[]]. simpl. split; [|split; [exact Ec|reflexivity]].
    eapply value_self; eassumption.
  - intros (Hv & Hc & Hf). exists (index (value_ a)). split.
    + apply in_seq. destruct (value_index _ _ _ Hv). lia.
    + unfold alias_at. rewrite Hv, Hc. left.
      destruct a; simpl in *. congruence.
Qed.

End Classification.

End EnumFacts.

(** ** Text produced by [EnumGenerator::Generate] *)

Module EnumText.

Import EnumGenerator.

Import Str.

Lemma outdent_indent (o ind : string) (b : bool) :
  Printer.Outdent (Printer.Indent (Printer.mk o ind b))
  = Some (Printer.mk o ind b).
Proof.
  unfold Printer.Indent, Printer.Outdent; simpl.
  assert (E : substring 0 (String.length (ind ++ "  ") - 2) (ind ++ "  ") = ind).
  { rewrite Str.length_app. simpl.
    replace (String.length ind + 2 - 2) with (String.length ind) by lia.
    induction ind as [|c s IH]; simpl; [reflexivity|]. rewrite IH. reflexivity. }
  rewrite E. destruct ind; reflexivity.
Qed.

Section Lines.

Variable RenameJavaKeywords : string -> string.

(** The declaration printed for a canonical value: a literal number. *)
Definition canonical_decl (ind : string) (v : EnumValueDescriptor) : string :=
  ind ++ "public static final int " ++ RenameJavaKeywords (name v) ++ " = "
      ++ SimpleItoa (number v) ++ ";" ++ NL.

(** The declaration printed for an alias: the name of another constant. *)
Definition reference_decl (ind : string) (v c : EnumValueDescriptor)
  : string :=
  ind ++ "public static final int " ++ RenameJavaKeywords (name v) ++ " = "
      ++ RenameJavaKeywords (name c) ++ ";" ++ NL.

Definition alias_decl (ind : string) (a : Alias) : string :=
  match canonical_value a with
  | Some c => reference_decl ind (value_ a) c
  | None => ""
  end.

Definition header (params : Params) (d : EnumDescriptor) (ind : string)
  : string :=
  ind ++ "// enum " ++ enum_name d ++ NL ++
  (if java_enum_style params then
     ind ++ "public " ++
     (if negb (nested d) && java_multiple_files params (file_name d)
      then "" else "static ") ++
     "final class " ++ RenameJavaKeywords (enum_name d) ++ " {" ++ NL ++
     ind ++ "  private " ++ RenameJavaKeywords (enum_name d) ++ "() {}" ++ NL ++
     ind ++ "  " ++ NL
   else "").

Definition footer (params : Params) (ind : string) : string :=
  (if java_enum_style params then ind ++ "}" ++ NL else "") ++ NL.

Definition body_indent (params : Params) (ind : string) : string :=
  if java_enum_style params then ind ++ "  " else ind.

Ltac print_steps :=
  unfold Printer.Print; cbn;
  unfold Printer.line_done, Printer.WriteRaw; cbn;
  unfold NL; repeat rewrite Str.app_assoc; cbn;
  repeat rewrite Str.app_assoc; try reflexivity.

Lemma print_canonical_out (o ind : string) (v : EnumValueDescriptor) :
  print_canonical RenameJavaKeywords (Printer.mk o ind true) v
  = Some (Printer.mk (o ++ canonical_decl ind v) ind true).
Proof.
  unfold print_canonical, canonical_decl, canonical_template. print_steps.
Qed.

Lemma print_alias_out (o ind : string) (a : Alias) :
  canonical_value a <> None ->
  print_alias RenameJavaKeywords (Printer.mk o ind true) a
  = Some (Printer.mk (o ++ alias_decl ind a) ind true).
Proof.
  unfold print_alias, alias_decl, reference_decl, alias_template.
  destruct (canonical_value a) as [c|]; [intros _|congruence].
  print_steps.
Qed.

Lemma print_all_canonical (l : list EnumValueDescriptor) (o ind : string) :
  print_all (print_canonical RenameJavaKeywords) l (Printer.mk o ind true)
  = Some (Printer.mk (o ++ Str.concat (map (canonical_decl ind) l)) ind true).
Proof.
  revert o. induction l as [|v l IH]; intros o; cbn [print_all map Str.concat].
  - rewrite Str.app_nil_r. reflexivity.
  - unfold bind. rewrite print_canonical_out.
    rewrite IH, Str.app_assoc. reflexivity.
Qed.

Lemma print_all_aliases (l : list Alias) (o ind : string) :
  (forall a, In a l -> canonical_value a <> None) ->
  print_all (print_alias RenameJavaKeywords) l (Printer.mk o ind true)
  = Some (Printer.mk (o ++ Str.concat (map (alias_decl ind) l)) ind true).
Proof.
  revert o. induction l as [|a l IH]; intros o H;
    cbn [print_all map Str.concat].
  - rewrite Str.app_nil_r. reflexivity.
  - unfold bind.
    rewrite print_alias_out by (apply H; left; reflexivity).
    rewrite IH by (intros; apply H; right; assumption).
    rewrite Str.app_assoc. reflexivity.
Qed.

Lemma print_comment_out (o ind n : string) :
  Printer.Print [("classname", n)] ("// enum $classname$" ++ NL)
    (Printer.mk o ind true)
  = Some (Printer.mk (o ++ ind ++ "// enum " ++ n ++ NL) ind true).
Proof. print_steps. Qed.

Lemma print_shell_out (o ind m n : string) :
  Printer.Print [("modifiers", m); ("classname", n)]
    ("public $modifiers$final class $classname$ {" ++ NL ++
     "  private $classname$() {}" ++ NL ++ "  " ++ NL)
    (Printer.mk o ind true)
  = Some (Printer.mk
            (o ++ ind ++ "public " ++ m ++ "final class " ++ n ++ " {" ++ NL ++
             ind ++ "  private " ++ n ++ "() {}" ++ NL ++ ind ++ "  " ++ NL)
            ind true).
Proof. print_steps. Qed.

Lemma print_close_out (o ind : string) :
  Printer.Print [] ("}" ++ NL) (Printer.mk o ind true)
  = Some (Printer.mk (o ++ ind ++ "}" ++ NL) ind true).
Proof. print_steps. Qed.

Lemma print_blank_out (o ind : string) :
  Printer.Print [] NL (Printer.mk o ind true)
  = Some (Printer.mk (o ++ NL) ind true).
Proof. print_steps. Qed.

(** The whole text of a definition: a header, one literal declaration per
    canonical value, one reference declaration per alias, a footer. *)
Lemma Generate_out (params : Params) (d : EnumDescriptor) (g : t)
  (o ind : string) :
  (forall a, In a (aliases_ g) -> canonical_value a <> None) ->
  Generate RenameJavaKeywords params d g (Printer.mk o ind true)
  = Some (Printer.mk
            (o ++ header params d ind
               ++ Str.concat (map (canonical_decl (body_indent params ind))
                                  (canonical_values_ g))
               ++ Str.concat (map (alias_decl (body_indent params ind))
                                  (aliases_ g))
               ++ footer params ind)
            ind true).
Proof.
  intros Hal. unfold Generate, header, footer, body_indent.
  rewrite print_comment_out. cbn [bind].
  destruct (java_enum_style params).
  - rewrite print_shell_out. cbn [bind]. unfold Printer.Indent.
    cbn [Printer.out Printer.indent_ Printer.at_start_of_line_].
    rewrite print_all_canonical. cbn [bind].
    rewrite print_all_aliases by exact Hal. cbn [bind].
    match goal with
    | |- context [Printer.Outdent (Printer.mk ?x (ind ++ "  ") true)] =>
        pose proof (outdent_indent x ind true) as E
    end.
    unfold Printer.Indent in E.
    cbn [Printer.out Printer.indent_ Printer.at_start_of_line_] in E.
    rewrite E. cbn [bind]. rewrite print_close_out. cbn [bind].
    rewrite print_blank_out.
    repeat rewrite Str.app_assoc. reflexivity.
  - cbn [bind]. rewrite print_all_canonical. cbn [bind].
    rewrite print_all_aliases by exact Hal. cbn [bind].
    rewrite print_blank_out.
    repeat rewrite Str.app_assoc. reflexivity.
Qed.

End Lines.

End EnumText.

(** ** Canonical values and aliases *)

Module EnumClaims.

Import EnumGenerator EnumFacts EnumText.

(** [occurs line text]: the line is part of the text. *)
Definition occurs (line text : string) : Prop :=
  exists pre post, text = pre ++ line ++ post.

Lemma occurs_concat {A : Type} (f : A -> string) (l : list A) (x : A)
  (pre post : string) :
  In x l -> occurs (f x) (pre ++ Str.concat (map f l) ++ post).
Proof.
  intros H. apply in_split in H. destruct H as (l1 & l2 & ->).
  rewrite map_app, Str.concat_app. simpl.
  exists (pre ++ Str.concat (map f l1)), (Str.concat (map f l2) ++ post).
  repeat rewrite Str.app_assoc. reflexivity.
Qed.

Lemma occurs_concat2 {A : Type} (f : A -> string) (l : list A) (x : A)
  (h m post : string) :
  In x l -> occurs (f x) (h ++ m ++ Str.concat (map f l) ++ post).
Proof.
  intros H. rewrite <- Str.app_assoc. apply occurs_concat. exact H.
Qed.

(** Looking a value up in the alias table of a generator: an alias
    resolves to its canonical value, any other value to itself. *)
Definition resolve (g : t) (v : EnumValueDescriptor)
  : option EnumValueDescriptor :=
  match List.find (fun a => same_value (value_ a) v) (aliases_ g) with
  | Some a => canonical_value a
  | None => Some v
  end.

Definition generator (d : EnumDescriptor) : t := new FindValueByNumber d.

Lemma alias_has_canonical (d : EnumDescriptor) (a : Alias) :
  In a (aliases_ (generator d)) ->
  exists c, canonical_value a = Some c /\
            number c = number (value_ a) /\
            index c < index (value_ a) /\
            In c (canonical_values_ (generator d)) /\
            FindValueByNumber d (number c) = Some c.
Proof.
  intros H. apply in_aliases in H. destruct H as (Hv & Hc & Hf).
  destruct (FindValueByNumber_total _ _ _ Hv) as (c & Hfc & Hle).
  destruct (FindValueByNumber_spec _ _ _ Hfc) as (Hn & Hvc & _).
  exists c. rewrite Hf. split; [exact Hfc|]. split; [exact Hn|].
  assert (Hself : FindValueByNumber d (number c) = Some c)
    by (rewrite Hn; exact Hfc).
  split; [|split; [|exact Hself]].
  - unfold is_canonical in Hc. rewrite Hfc in Hc. unfold same_value in Hc.
    apply Nat.eqb_neq in Hc. lia.
  - apply in_canonical_values. split; [exact Hvc|].
    unfold is_canonical. rewrite Hself. apply Nat.eqb_refl.
Qed.

Lemma canonical_not_alias (d : EnumDescriptor) (c : EnumValueDescriptor)
  (a : Alias) :
  In c (canonical_values_ (generator d)) ->
  In a (aliases_ (generator d)) -> same_value (value_ a) c = false.
Proof.
  intros Hc Ha. apply in_canonical_values in Hc. destruct Hc as [Hvc Hcc].
  apply in_aliases in Ha. destruct Ha as (Hv & Hnc & _).
  destruct (same_value (value_ a) c) eqn:E; [|reflexivity].
  apply (value_inj d) in E; [|assumption..]. congruence.
Qed.

Lemma resolve_canonical (d : EnumDescriptor) (c : EnumValueDescriptor) :
  In c (canonical_values_ (generator d)) -> resolve (generator d) c = Some c.
Proof.
  intros Hc. unfold resolve.
  destruct (List.find _ _) as [a|] eqn:E; [|reflexivity].
  apply find_some in E. destruct E as [Ha E].
  rewrite (canonical_not_alias d c a Hc Ha) in E. discriminate.
Qed.

Lemma resolve_alias (d : EnumDescriptor) (a : Alias) :
  In a (aliases_ (generator d)) ->
  resolve (generator d) (value_ a) = canonical_value a.
Proof.
  intros Ha. unfold resolve.
  destruct (List.find _ _) as [a0|] eqn:E.
  - apply find_some in E. destruct E as [Ha0 E].
    apply in_aliases in Ha0. destruct Ha0 as (Hv0 & _ & Hf0).
    apply in_aliases in Ha. destruct Ha as (Hv & _ & Hf).
    apply (value_inj d) in E; [|assumption..]. congruence.
  - exfalso. apply (find_none _ _ E) in Ha.
    unfold same_value in Ha. rewrite Nat.eqb_refl in Ha. discriminate.
Qed.

Definition demo_enum : EnumDescriptor :=
  {| enum_name := "E"; decls := [("A", 5%Z); ("B", 5%Z)];
     nested := false; file_name := "e.proto" |}.

Definition demo_params : Params :=
  {| java_enum_style := false; java_multiple_files := fun _ => false |}.

Definition demo_A : EnumValueDescriptor :=
  {| name := "A"; number := 5; index := 0 |}.
Definition demo_B : EnumValueDescriptor :=
  {| name := "B"; number := 5; index := 1 |}.

(** C3.  In every enumeration the first declared value of a number is
    the canonical one and is printed with the literal number; any later
    value [v] with that number is an alias, is not among the canonical
    values, and its declaration names the constant of the canonical value
    instead of repeating the number.  For [A = 5; B = 5] the text is
    [A = 5] followed by [B = A]. *)
Theorem canonical_is_first_and_alias_refers_to_it
  (RenameJavaKeywords : string -> string) (params : Params)
  (d : EnumDescriptor) (i : nat) (v : EnumValueDescriptor) :
  value d i = Some v ->
  exists c p,
    FindValueByNumber d (number v) = Some c /\
    number c = number v /\ index c <= i /\
    (forall j w, value d j = Some w -> number w = number v -> index c <= j) /\
    In c (canonical_values_ (generator d)) /\
    Generate RenameJavaKeywords params d (generator d) Printer.init = Some p /\
    Printer.out p
    = header RenameJavaKeywords params d ""
      ++ Str.concat (map (canonical_decl RenameJavaKeywords
                            (body_indent params ""))
                         (canonical_values_ (generator d)))
      ++ Str.concat (map (alias_decl RenameJavaKeywords (body_indent params ""))
                         (aliases_ (generator d)))
      ++ footer params "" /\
    occurs (canonical_decl RenameJavaKeywords (body_indent params "") c)
           (Printer.out p) /\
    (i = index c -> v = c) /\
    (i <> index c ->
       In {| value_ := v; canonical_value := Some c |} (aliases_ (generator d))
       /\ ~ In v (canonical_values_ (generator d))
       /\ occurs (reference_decl RenameJavaKeywords (body_indent params "") v c)
                 (Printer.out p)) /\
    option_map Printer.out
      (Generate (fun s => s) demo_params demo_enum (generator demo_enum)
         Printer.init)
    = Some ("// enum E" ++ Str.NL ++
            "public static final int A = 5;" ++ Str.NL ++
            "public static final int B = A;" ++ Str.NL ++ Str.NL).
Proof.
  intros Hv.
  destruct (FindValueByNumber_total _ _ _ Hv) as (c & Hfc & Hle).
  destruct (FindValueByNumber_spec _ _ _ Hfc) as (Hn & Hvc & Hmin).
  destruct (value_index _ _ _ Hv) as [Hi _].
  assert (Hself : FindValueByNumber d (number c) = Some c)
    by (rewrite Hn; exact Hfc).
  assert (Hcan : In c (canonical_values_ (generator d))).
  { apply in_canonical_values. split; [exact Hvc|].
    unfold is_canonical. rewrite Hself. apply Nat.eqb_refl. }
  assert (Hal : forall a, In a (aliases_ (generator d)) ->
                          canonical_value a <> None).
  { intros a Ha. destruct (alias_has_canonical d a Ha) as (c' & -> & _).
    discriminate. }
  pose proof (Generate_out RenameJavaKeywords params d (generator d) "" ""
                Hal) as G.
  change (Printer.mk "" "" true) with Printer.init in G.
  eexists c, _. split; [exact Hfc|]. split; [exact Hn|]. split; [exact Hle|].
  split.
  { intros j w Hw Hnw. destruct (Nat.lt_ge_cases j (index c)) as [Hlt|Hge];
      [|exact Hge].
    exfalso. exact (Hmin j w Hlt Hw Hnw). }
  split; [exact Hcan|]. split; [exact G|].
  cbn [Printer.out append]. split; [reflexivity|]. split.
  { apply (occurs_concat (canonical_decl RenameJavaKeywords _)). exact Hcan. }
  split.
  { intros E. rewrite <- Hi in Hv. rewrite <- Hi in E. rewrite <- E in Hvc.
    congruence. }
  split.
  { intros Hne.
    assert (Hnc : is_canonical FindValueByNumber d v = false).
    { unfold is_canonical. rewrite Hfc. unfold same_value.
      apply Nat.eqb_neq. congruence. }
    assert (Ha : In {| value_ := v; canonical_value := Some c |}
                    (aliases_ (generator d))).
    { apply in_aliases. simpl. rewrite Hi. auto. }
    split; [exact Ha|]. split.
    - intros Hin. apply in_canonical_values in Hin. destruct Hin as [_ Hin].
      congruence.
    - change (reference_decl RenameJavaKeywords (body_indent params "") v c)
        with (alias_decl RenameJavaKeywords (body_indent params "")
                {| value_ := v; canonical_value := Some c |}).
      apply (occurs_concat2 (alias_decl RenameJavaKeywords _)). exact Ha. }
  vm_compute. reflexivity.
Qed.

Lemma canonical_is_first_and_alias_refers_to_it_witness :
  exists c p,
    FindValueByNumber demo_enum (number demo_B) = Some c /\
    number c = number demo_B /\ index c <= 1 /\
    (forall j w, value demo_enum j = Some w -> number w = number demo_B ->
                 index c <= j) /\
    In c (canonical_values_ (generator demo_enum)) /\
    Generate (fun s => s) demo_params demo_enum (generator demo_enum)
      Printer.init = Some p /\
    Printer.out p
    = header (fun s => s) demo_params demo_enum ""
      ++ Str.concat (map (canonical_decl (fun s => s)
                            (body_indent demo_params ""))
                         (canonical_values_ (generator demo_enum)))
      ++ Str.concat (map (alias_decl (fun s => s) (body_indent demo_params ""))
                         (aliases_ (generator demo_enum)))
      ++ footer demo_params "" /\
    occurs (canonical_decl (fun s => s) (body_indent demo_params "") c)
           (Printer.out p) /\
    (1 = index c -> demo_B = c) /\
    (1 <> index c ->
       In {| value_ := demo_B; canonical_value := Some c |}
          (aliases_ (generator demo_enum))
       /\ ~ In demo_B (canonical_values_ (generator demo_enum))
       /\ occurs (reference_decl (fun s => s) (body_indent demo_params "")
                    demo_B c)
                 (Printer.out p)) /\
    option_map Printer.out
      (Generate (fun s => s) demo_params demo_enum (generator demo_enum)
         Printer.init)
    = Some ("// enum E" ++ Str.NL ++
            "public static final int A = 5;" ++ Str.NL ++
            "public static final int B = A;" ++ Str.NL ++ Str.NL).
Proof.
  apply (canonical_is_first_and_alias_refers_to_it
           (fun s => s) demo_params demo_enum 1 demo_B).
  reflexivity.
Defined.

(** C4.  The canonical value stored with an alias is a member of the
    canonical values and the value of no alias; looking it up by its own
    number answers it again, and resolving through the alias table first
    takes the alias to it and then leaves it where it is. *)
Theorem alias_resolution_is_direct (d : EnumDescriptor) (a : Alias) :
  In a (aliases_ (generator d)) ->
  exists c,
    canonical_value a = Some c /\
    In c (canonical_values_ (generator d)) /\
    (forall a', In a' (aliases_ (generator d)) ->
                same_value (value_ a') c = false) /\
    FindValueByNumber d (number (value_ a)) = Some c /\
    FindValueByNumber d (number c) = Some c /\
    resolve (generator d) (value_ a) = Some c /\
    resolve (generator d) c = Some c.
Proof.
  intros Ha.
  destruct (alias_has_canonical d a Ha) as (c & Hc & Hn & _ & Hin & Hself).
  exists c. split; [exact Hc|]. split; [exact Hin|]. split.
  { intros a' Ha'. apply (canonical_not_alias d c a' Hin Ha'). }
  split; [rewrite <- Hn; exact Hself|]. split; [exact Hself|]. split.
  - rewrite (resolve_alias d a Ha). exact Hc.
  - apply resolve_canonical. exact Hin.
Qed.

Lemma alias_resolution_is_direct_witness :
  exists c,
    Some demo_A = Some c /\
    In c (canonical_values_ (generator demo_enum)) /\
    (forall a', In a' (aliases_ (generator demo_enum)) ->
                same_value (value_ a') c = false) /\
    FindValueByNumber demo_enum (number demo_B) = Some c /\
    FindValueByNumber demo_enum (number c) = Some c /\
    resolve (generator demo_enum) demo_B = Some c /\
    resolve (generator demo_enum) c = Some c.
Proof.
  apply (alias_resolution_is_direct demo_enum
           {| value_ := demo_B; canonical_value := Some demo_A |}).
  simpl. left. reflexivity.
Defined.

End EnumClaims.

(** ** Enum fields: the generators of javanano_enum_field.cc *)

(** An enum-typed field: its declared name and number, whether it is
    declared [packed], the number of its default value, and the name of
    the message that owns it. *)
Record FieldDescriptor : Type := {
  field_name : string;
  field_number : Z;
  packed : bool;
  default_number : Z;
  containing_type_name : string
}.

(** The C++ side of the wire format: the tag of a field and its size. *)
Module WireFormat.

Definition WIRETYPE_VARINT : Z := 0.
Definition WIRETYPE_LENGTH_DELIMITED : Z := 2.

(** Modelled from the spec: [internal::WireFormat::WireTypeForField]
    (wire_format.h, outside this development), part of the
    "wire-format collaborator computing tag values and tag byte-lengths
    from field number and declared wire type".  An enum field is a varint
    field, unless it is packed, which makes it length-delimited. *)
Definition WireTypeForField (descriptor : FieldDescriptor) : Z :=
  if packed descriptor then WIRETYPE_LENGTH_DELIMITED else WIRETYPE_VARINT.

(** Modelled from the spec: [internal::WireFormat::MakeTag], the tag value
    of the same collaborator: field number and wire type in one unsigned
    32-bit number. *)
Definition MakeTag (descriptor : FieldDescriptor) : Z :=
  (Z.lor (Z.shiftl (field_number descriptor) 3) (WireTypeForField descriptor)
   mod 2 ^ 32)%Z.

(** Modelled from the spec: [io::CodedOutputStream::VarintSize32], the
    number of bytes of the varint of an unsigned 32-bit number. *)
Definition VarintSize32 (u : Z) : Z :=
  (if u <? 2 ^ 7 then 1
   else if u <? 2 ^ 14 then 2
   else if u <? 2 ^ 21 then 3
   else if u <? 2 ^ 28 then 4
   else 5)%Z.

(** Modelled from the spec: [internal::WireFormat::TagSize] for an enum
    field, the tag byte-length of the same collaborator. *)
Definition TagSize (field_number : Z) : Z :=
  VarintSize32 (Z.shiftl field_number 3 mod 2 ^ 32)%Z.

End WireFormat.

Section FieldGenerators.

(** The naming collaborators of javanano_helpers: the camel-case forms of
    a field name and the Java expression for its default value. *)
Variable UnderscoresToCamelCase : FieldDescriptor -> string.
Variable UnderscoresToCapitalizedCamelCase : FieldDescriptor -> string.
Variable DefaultValue : Params -> FieldDescriptor -> string.

Definition SetEnumVariables (params : Params) (descriptor : FieldDescriptor)
  (variables : Printer.variables) : Printer.variables :=
  let variables :=
    Printer.set "name" (UnderscoresToCamelCase descriptor) variables in
  let variables :=
    Printer.set "capitalized_name"
      (UnderscoresToCapitalizedCamelCase descriptor) variables in
  let variables :=
    Printer.set "number" (SimpleItoa (field_number descriptor)) variables in
  let variables := Printer.set "type" "int" variables in
  let variables :=
    Printer.set "default" (DefaultValue params descriptor) variables in
  let variables :=
    Printer.set "tag" (SimpleItoa (WireFormat.MakeTag descriptor)) variables in
  let variables :=
    Printer.set "tag_size"
      (SimpleItoa (WireFormat.TagSize (field_number descriptor))) variables in
  Printer.set "message_name" (containing_type_name descriptor) variables.

(** A field generator: the descriptor and the variables its constructor
    derives from it. *)
Record FieldGenerator : Type := {
  descriptor_ : FieldDescriptor;
  variables_ : Printer.variables
}.

Definition new_generator (descriptor : FieldDescriptor) (params : Params)
  : FieldGenerator :=
  {| descriptor_ := descriptor;
     variables_ := SetEnumVariables params descriptor [] |}.

End FieldGenerators.

Module EnumFieldGenerator.

Import Str.

Definition GenerateMembers (g : FieldGenerator) (printer : Printer.t)
  : option Printer.t :=
  Printer.Print (variables_ g)
    ("public int $name$ = $default$;" ++ NL) printer.

Definition GenerateMergingCode (g : FieldGenerator) (printer : Printer.t)
  : option Printer.t :=
  Printer.Print (variables_ g)
    ("what is other??" ++
     "if (other.has$capitalized_name$()) {" ++ NL ++
     "  set$capitalized_name$(other.get$capitalized_name$());" ++ NL ++
     "}" ++ NL) printer.

Definition GenerateParsingCode (g : FieldGenerator) (printer : Printer.t)
  : option Printer.t :=
  Printer.Print (variables_ g)
    ("  $name$ = input.readInt32();" ++ NL) printer.

Definition GenerateSerializationCode (g : FieldGenerator)
  (printer : Printer.t) : option Printer.t :=
  Printer.Print (variables_ g)
    ("if ($name$ != $default$) {" ++ NL ++
     "  output.writeInt32($number$, $name$);" ++ NL ++
     "}" ++ NL) printer.

Definition GenerateSerializedSizeCode (g : FieldGenerator)
  (printer : Printer.t) : option Printer.t :=
  Printer.Print (variables_ g)
    ("if ($name$ != $default$) {" ++ NL ++
     "  size += com.google.protobuf.nano.CodedOutputStreamNano" ++ NL ++
     "    .computeInt32Size($number$, $name$);" ++ NL ++
     "}" ++ NL) printer.

End EnumFieldGenerator.

Module RepeatedEnumFieldGenerator.

Import Str.

Definition GenerateMembers (g : FieldGenerator) (printer : Printer.t)
  : option Printer.t :=
  do printer <- Printer.Print (variables_ g)
                  ("public int[] $name$ = EMPTY_INT_ARRAY;" ++ NL) printer;
  if packed (descriptor_ g) then
    Printer.Print (variables_ g)
      ("private int $name$MemoizedSerializedSize;" ++ NL) printer
  else Some printer.

Definition GenerateMergingCode (g : FieldGenerator) (printer : Printer.t)
  : option Printer.t :=
  Printer.Print (variables_ g)
    ("if (other.$name$.length > 0) {" ++ NL ++
     "  int[] merged = java.util.Arrays.copyOf(result.$name$, result.$name$.length + other.$name$.length);" ++ NL ++
     "  java.lang.System.arraycopy(other.$name$, 0, merged, results.$name$.length, other.$name$.length);" ++ NL ++
     "  result.$name$ = merged;" ++ NL ++
     "}" ++ NL) printer.

Definition GenerateParsingCode (g : FieldGenerator) (printer : Printer.t)
  : option Printer.t :=
  if packed (descriptor_ g) then
    Printer.Print (variables_ g)
      ("int length = input.readRawVarint32();" ++ NL ++
       "int limit = input.pushLimit(length);" ++ NL ++
       "int arrayLength = getPackedRepeatedFieldArrayLength(input, $tag$);" ++ NL ++
       "$name$ = new $type$[arrayLength];" ++ NL ++
       "for (int i = 0; i < arrayLength; i++) {" ++ NL ++
       "  $name$[i] = input.readInt32();" ++ NL ++
       "}" ++ NL ++
       "input.popLimit(limit);" ++ NL) printer
  else
    Printer.Print (variables_ g)
      ("int arrayLength = getRepeatedFieldArrayLength(input, $tag$);" ++ NL ++
       "int i = $name$.length;" ++ NL ++
       "$name$ = java.util.Arrays.copyOf($name$, $name$.length + arrayLength);" ++ NL ++
       "for (; i < $name$.length - 1; i++) {" ++ NL ++
       "  $name$[i] = input.readInt32();" ++ NL ++
       "  input.readTag();" ++ NL ++
       "}" ++ NL ++
       "// Last one without readTag." ++ NL ++
       "$name$[i] = input.readInt32();" ++ NL) printer.

Definition GenerateSerializationCode (g : FieldGenerator)
  (printer : Printer.t) : option Printer.t :=
  do printer <- Printer.Print (variables_ g)
                  ("if ($name$.length > 0) {" ++ NL) printer;
  let printer := Printer.Indent printer in
  do printer <-
    (if packed (descriptor_ g) then
       Printer.Print (variables_ g)
         ("output.writeRawVarint32($tag$);" ++ NL ++
          "output.writeRawVarint32($name$MemoizedSerializedSize);" ++ NL ++
          "for (int element : $name$) {" ++ NL ++
          "  output.writeRawVarint32(element);" ++ NL ++
          "}" ++ NL) printer
     else
       Printer.Print (variables_ g)
         ("for (int element : $name$) {" ++ NL ++
          "  output.writeInt32($number$, element);" ++ NL ++
          "}" ++ NL) printer);
  do printer <- Printer.Outdent printer;
  Printer.Print (variables_ g) ("}" ++ NL) printer.

Definition GenerateSerializedSizeCode (g : FieldGenerator)
  (printer : Printer.t) : option Printer.t :=
  do printer <- Printer.Print (variables_ g)
                  ("if ($name$.length > 0) {" ++ NL) printer;
  let printer := Printer.Indent printer in
  do printer <-
    Printer.Print (variables_ g)
      ("int dataSize = 0;" ++ NL ++
       "for (int element : $name$) {" ++ NL ++
       "  dataSize += com.google.protobuf.nano.CodedOutputStreamNano" ++ NL ++
       "    .computeInt32SizeNoTag(element);" ++ NL ++
       "}" ++ NL) printer;
  do printer <- Printer.Print [] ("size += dataSize;" ++ NL) printer;
  do printer <-
    (if packed (descriptor_ g) then
       (* cache the data size for packed fields. *)
       Printer.Print (variables_ g)
         ("size += $tag_size$;" ++ NL ++
          "size += com.google.protobuf.nano.CodedOutputStreamNano" ++ NL ++
          "  .computeRawVarint32Size(dataSize);" ++ NL ++
          "$name$MemoizedSerializedSize = dataSize;" ++ NL) printer
     else
       Printer.Print (variables_ g)
         ("size += $tag_size$ * $name$.length;" ++ NL) printer);
  do printer <- Printer.Outdent printer;
  (* set cached size to 0 for empty packed fields. *)
  if packed (descriptor_ g) then
    Printer.Print (variables_ g)
      ("} else {" ++ NL ++
       "  $name$MemoizedSerializedSize = 0;" ++ NL ++
       "}" ++ NL) printer
  else
    Printer.Print [] ("}" ++ NL) printer.

End RepeatedEnumFieldGenerator.

(** A field [optional_color = 3] of message [Msg], with and without
    [packed], printed with the helpers' usual answers. *)
Module Demo.

Definition field (is_packed : bool) : FieldDescriptor :=
  {| field_name := "color"; field_number := 3; packed := is_packed;
     default_number := 0; containing_type_name := "Msg" |}.

Definition params : Params :=
  {| java_enum_style := false; java_multiple_files := fun _ => false |}.

Definition generator (is_packed : bool) : FieldGenerator :=
  new_generator (fun _ => "color") (fun _ => "Color") (fun _ _ => "Msg.RED")
    (field is_packed) params.

Definition text (f : Printer.t -> option Printer.t) : option string :=
  option_map Printer.out (f Printer.init).

End Demo.

(** The texts printed for the field [color], which the second half of
    the file reads: which runtime calls the fragments make, and which of
    them name the memoized size. *)
Module FragmentTexts.

Definition has (needle : string) (text : option string) : bool :=
  match text with
  | Some t => Str.infix needle t
  | None => false
  end.

Definition parsing (is_packed : bool) : option string :=
  Demo.text (RepeatedEnumFieldGenerator.GenerateParsingCode
               (Demo.generator is_packed)).
Definition merging (is_packed : bool) : option string :=
  Demo.text (RepeatedEnumFieldGenerator.GenerateMergingCode
               (Demo.generator is_packed)).
Definition serialization (is_packed : bool) : option string :=
  Demo.text (RepeatedEnumFieldGenerator.GenerateSerializationCode
               (Demo.generator is_packed)).
Definition serialized_size (is_packed : bool) : option string :=
  Demo.text (RepeatedEnumFieldGenerator.GenerateSerializedSizeCode
               (Demo.generator is_packed)).

(** The whole size fragment of the packed field. *)
Lemma serialized_size_packed_text :
  serialized_size true
  = Some ("if (color.length > 0) {" ++ Str.NL ++
          "  int dataSize = 0;" ++ Str.NL ++
          "  for (int element : color) {" ++ Str.NL ++
          "    dataSize += com.google.protobuf.nano.CodedOutputStreamNano"
            ++ Str.NL ++
          "      .computeInt32SizeNoTag(element);" ++ Str.NL ++
          "  }" ++ Str.NL ++
          "  size += dataSize;" ++ Str.NL ++
          "  size += 1;" ++ Str.NL ++
          "  size += com.google.protobuf.nano.CodedOutputStreamNano"
            ++ Str.NL ++
          "    .computeRawVarint32Size(dataSize);" ++ Str.NL ++
          "  colorMemoizedSerializedSize = dataSize;" ++ Str.NL ++
          "} else {" ++ Str.NL ++
          "  colorMemoizedSerializedSize = 0;" ++ Str.NL ++
          "}" ++ Str.NL).
Proof. reflexivity. Qed.

(** The whole serialization fragment of the packed field. *)
Lemma serialization_packed_text :
  serialization true
  = Some ("if (color.length > 0) {" ++ Str.NL ++
          "  output.writeRawVarint32(26);" ++ Str.NL ++
          "  output.writeRawVarint32(colorMemoizedSerializedSize);"
            ++ Str.NL ++
          "  for (int element : color) {" ++ Str.NL ++
          "    output.writeRawVarint32(element);" ++ Str.NL ++
          "  }" ++ Str.NL ++
          "}" ++ Str.NL).
Proof. reflexivity. Qed.

(** The elements are sized as [int32] values in both encodings, written
    as [int32] fields when unpacked and as raw varints when packed. *)
Lemma element_calls :
  has ".computeInt32SizeNoTag(element)" (serialized_size true) = true /\
  has ".computeInt32SizeNoTag(element)" (serialized_size false) = true /\
  has "output.writeInt32(3, element)" (serialization false) = true /\
  has "output.writeRawVarint32(element)" (serialization true) = true /\
  has "writeInt32" (serialization true) = false.
Proof. repeat split; reflexivity. Qed.

(** The memoized size is named by the size and serialization fragments
    of a packed field and by no other fragment. *)
Lemma cache_occurrences :
  has "MemoizedSerializedSize" (serialized_size true) = true /\
  has "MemoizedSerializedSize" (serialization true) = true /\
  has "MemoizedSerializedSize" (parsing true) = false /\
  has "MemoizedSerializedSize" (merging true) = false /\
  has "MemoizedSerializedSize" (serialized_size false) = false /\
  has "MemoizedSerializedSize" (serialization false) = false /\
  has "MemoizedSerializedSize" (parsing false) = false.
Proof. repeat split; reflexivity. Qed.

End FragmentTexts.

(** * The generated code

    What follows gives the Java fragments that the field generators print
    their meaning.  The fragments run against the Java language ([int]
    arithmetic, arrays) and the nano runtime (coded streams). *)

Close Scope string_scope.
Open Scope Z_scope.

Ltac dlia := Z.div_mod_to_equations; lia.

(** ** Java [int] and [int[]] *)

Module Java.

(** The value of a mathematical integer as a 32-bit two's complement
    [int]. *)
Definition wrap (z : Z) : Z := (z + 2 ^ 31) mod 2 ^ 32 - 2 ^ 31.

Definition is_int (z : Z) : Prop := - 2 ^ 31 <= z < 2 ^ 31.

Definition add (a b : Z) : Z := wrap (a + b).
Definition mul (a b : Z) : Z := wrap (a * b).

(** The 32 bits of an [int] read as an unsigned number, and the 64 bits
    of the [long] it widens to. *)
Definition unsigned32 (v : Z) : Z := v mod 2 ^ 32.
Definition unsigned64 (v : Z) : Z := v mod 2 ^ 64.

Definition length (a : list Z) : Z := Z.of_nat (List.length a).

(** [new int[n]] of the Java language; a negative size raises. *)
Definition new_array (n : Z) : option (list Z) :=
  if n <? 0 then None else Some (repeat 0 (Z.to_nat n)).

(** [java.util.Arrays.copyOf]: truncated or padded with zeros. *)
Definition copyOf (a : list Z) (newLength : Z) : option (list Z) :=
  if newLength <? 0 then None
  else Some (firstn (Z.to_nat newLength) a
             ++ repeat 0 (Z.to_nat newLength - List.length a)).

(** [java.lang.System.arraycopy] into another array; any range outside
    either array raises. *)
Definition arraycopy (src : list Z) (srcPos : Z) (dest : list Z)
  (destPos len : Z) : option (list Z) :=
  if (srcPos <? 0) || (destPos <? 0) || (len <? 0)
     || (length src <? srcPos + len) || (length dest <? destPos + len)
  then None
  else Some (firstn (Z.to_nat destPos) dest
             ++ firstn (Z.to_nat len) (skipn (Z.to_nat srcPos) src)
             ++ skipn (Z.to_nat (destPos + len)) dest).

(** [a[i] = v]; an index outside the array raises. *)
Definition store (a : list Z) (i v : Z) : option (list Z) :=
  if (i <? 0) || (length a <=? i) then None
  else Some (firstn (Z.to_nat i) a ++ v :: skipn (S (Z.to_nat i)) a).

Lemma wrap_int (z : Z) : is_int z -> wrap z = z.
Proof. unfold is_int, wrap. intros H. dlia. Qed.

Lemma wrap_is_int (z : Z) : is_int (wrap z).
Proof. unfold is_int, wrap. dlia. Qed.

End Java.

(** ** The nano runtime: wire format and coded streams *)

(** Modelled from the spec: the classes [CodedOutputStreamNano],
    [CodedInputStreamNano] and [WireFormatNano] of the Java runtime and
    the C++ [internal::WireFormat] helpers (none of them part of this
    development): the "wire-format collaborator computing tag values and
    tag byte-lengths from field number and declared wire type" and the
    stream abstraction that writes and "reads one signed 32-bit
    variable-length integer".  The encoding is the protocol's base-128
    varint: seven bits per byte, least significant group first, the high
    bit set on every byte but the last.  A raw 32-bit varint encodes the
    32 bits of the [int]; an [int32] field value is written like that when
    it is not negative and sign-extended to 64 bits (ten bytes) when it
    is. *)
Module Nano.

Definition WIRETYPE_VARINT : Z := 0.
Definition WIRETYPE_LENGTH_DELIMITED : Z := 2.

(** Modelled from the spec: [WireFormatNano.makeTag], the tag value of
    the wire-format collaborator, on Java [int]s. *)
Definition makeTag (fieldNumber wireType : Z) : Z :=
  Java.wrap (Z.lor (Z.shiftl fieldNumber 3) wireType).

(** Modelled from the spec: the "variable-length encoding" of the
    unsigned number [u], the loop of the writers below with [fuel + 1]
    rounds at most.  A number below [128 ^ (fuel + 1)] never reaches the
    last round with more than seven bits left (see
    [NanoFacts.readVarint_varint]). *)
Fixpoint varint (fuel : nat) (u : Z) : list Z :=
  if u <? 128 then [u]
  else match fuel with
       | O => [u mod 128]
       | S f => (u mod 128 + 128) :: varint f (u / 128)
       end.

(** Modelled from the spec: [CodedOutputStreamNano.writeRawVarint32], the
    varint of the 32 bits of an [int], five bytes at most. *)
Definition writeRawVarint32 (value : Z) : list Z :=
  varint 4 (Java.unsigned32 value).

(** Modelled from the spec: [CodedOutputStreamNano.writeRawVarint64], the
    varint of the 64 bits of a [long], ten bytes at most. *)
Definition writeRawVarint64 (value : Z) : list Z :=
  varint 9 (Java.unsigned64 value).

(** Modelled from the spec: [CodedOutputStreamNano.writeInt32NoTag], the
    "variable-length-encoded value" of a signed 32-bit field: a negative
    value is sign-extended to 64 bits. *)
Definition writeInt32NoTag (value : Z) : list Z :=
  if 0 <=? value then writeRawVarint32 value else writeRawVarint64 value.

(** Modelled from the spec: [CodedOutputStreamNano.writeTag], "the
    field's wire tag". *)
Definition writeTag (fieldNumber wireType : Z) : list Z :=
  writeRawVarint32 (makeTag fieldNumber wireType).

(** Modelled from the spec: [CodedOutputStreamNano.writeInt32], the
    "wire tag followed by its variable-length-encoded value". *)
Definition writeInt32 (fieldNumber value : Z) : list Z :=
  writeTag fieldNumber WIRETYPE_VARINT ++ writeInt32NoTag value.

(** Modelled from the spec: [CodedOutputStreamNano.computeRawVarint32Size],
    "the variable-length encoding size" of the 32 bits of an [int]. *)
Definition computeRawVarint32Size (value : Z) : Z :=
  let u := Java.unsigned32 value in
  if u <? 2 ^ 7 then 1
  else if u <? 2 ^ 14 then 2
  else if u <? 2 ^ 21 then 3
  else if u <? 2 ^ 28 then 4
  else 5.

(** Modelled from the spec: [CodedOutputStreamNano.computeInt32SizeNoTag],
    the encoding size of a signed 32-bit field value: ten bytes for a
    negative one. *)
Definition computeInt32SizeNoTag (value : Z) : Z :=
  if 0 <=? value then computeRawVarint32Size value else 10.

(** Modelled from the spec: [CodedOutputStreamNano.computeTagSize], "the
    tag size". *)
Definition computeTagSize (fieldNumber : Z) : Z :=
  computeRawVarint32Size (makeTag fieldNumber 0).

(** Modelled from the spec: [CodedOutputStreamNano.computeInt32Size], "the
    tag size plus the variable-length encoding size of the value". *)
Definition computeInt32Size (fieldNumber value : Z) : Z :=
  computeTagSize fieldNumber + computeInt32SizeNoTag value.

(** Modelled from the spec: the state of a [CodedInputStreamNano], the
    "external stream abstraction": the bytes from the read position to the
    end of the buffer, the read position, and the position of the current
    limit. *)
Record CodedInputStreamNano : Type := {
  buffer : list Z;
  bufferPos : Z;
  currentLimit : Z
}.

(** Modelled from the spec: [CodedInputStreamNano.newInstance]; a fresh
    stream has no limit but the largest [int]. *)
Definition newInstance (bytes : list Z) : CodedInputStreamNano :=
  {| buffer := bytes; bufferPos := 0; currentLimit := 2 ^ 31 - 1 |}.

(** Modelled from the spec: [CodedInputStreamNano.isAtEnd]: at the limit
    or at the end of the buffer. *)
Definition isAtEnd (s : CodedInputStreamNano) : bool :=
  (currentLimit s <=? bufferPos s)
  || match buffer s with [] => true | _ => false end.

(** Modelled from the spec: [CodedInputStreamNano.readRawByte]; reading at
    the limit or at the end of the buffer is the "fatal decode failure"
    of a truncated stream. *)
Definition readRawByte (s : CodedInputStreamNano)
  : option (Z * CodedInputStreamNano) :=
  if currentLimit s <=? bufferPos s then None
  else match buffer s with
       | [] => None
       | b :: r =>
           Some (b, {| buffer := r; bufferPos := bufferPos s + 1;
                       currentLimit := currentLimit s |})
       end.

(** Modelled from the spec: the unsigned number of a varint of at most
    [fuel + 1] bytes; a longer one is malformed. *)
Fixpoint readVarint (fuel : nat) (s : CodedInputStreamNano)
  : option (Z * CodedInputStreamNano) :=
  do (b, s1) <- readRawByte s;
  if b <? 128 then Some (b, s1)
  else match fuel with
       | O => None
       | S f =>
           do (hi, s2) <- readVarint f s1;
           Some (b - 128 + 128 * hi, s2)
       end.

(** Modelled from the spec: [CodedInputStreamNano.readRawVarint32]: a
    varint of up to ten bytes, of which the low 32 bits are kept. *)
Definition readRawVarint32 (s : CodedInputStreamNano)
  : option (Z * CodedInputStreamNano) :=
  do (u, s1) <- readVarint 9 s;
  Some (Java.wrap u, s1).

(** Modelled from the spec: [CodedInputStreamNano.readInt32], which "reads
    one signed 32-bit variable-length integer from the input stream". *)
Definition readInt32 := readRawVarint32.

(** Modelled from the spec: [CodedInputStreamNano.readTag]: zero at the
    end of the input; a tag of zero inside it is malformed. *)
Definition readTag (s : CodedInputStreamNano)
  : option (Z * CodedInputStreamNano) :=
  if isAtEnd s then Some (0, s)
  else
    do (tag, s1) <- readRawVarint32 s;
    if tag =? 0 then None else Some (tag, s1).

(** Modelled from the spec: [CodedInputStreamNano.pushLimit], which opens
    the "length-prefixed sub-message span": the new limit is counted from
    the read position and must lie inside the old one, which is
    returned. *)
Definition pushLimit (s : CodedInputStreamNano) (byteLimit : Z)
  : option (Z * CodedInputStreamNano) :=
  if byteLimit <? 0 then None
  else
    let limit := byteLimit + bufferPos s in
    if currentLimit s <? limit then None
    else Some (currentLimit s,
               {| buffer := buffer s; bufferPos := bufferPos s;
                  currentLimit := limit |}).

(** Modelled from the spec: [CodedInputStreamNano.popLimit], which puts
    the old limit back. *)
Definition popLimit (s : CodedInputStreamNano) (oldLimit : Z)
  : CodedInputStreamNano :=
  {| buffer := buffer s; bufferPos := bufferPos s; currentLimit := oldLimit |}.

(** Modelled from the spec: [CodedInputStreamNano.getBytesUntilLimit], what
    is left of the span. *)
Definition getBytesUntilLimit (s : CodedInputStreamNano) : Z :=
  currentLimit s - bufferPos s.

End Nano.


(** ** Facts about the wire format *)

Module NanoFacts.

Import Nano.

Lemma varint_small (fuel : nat) (u : Z) : u < 128 -> varint fuel u = [u].
Proof.
  intros H. destruct fuel; simpl;
    destruct (Z.ltb_spec u 128); try lia; reflexivity.
Qed.

Lemma varint_step (fuel : nat) (u : Z) :
  128 <= u ->
  varint (S fuel) u = (u mod 128 + 128) :: varint fuel (u / 128).
Proof.
  intros H. simpl. destruct (Z.ltb_spec u 128); [lia|reflexivity].
Qed.

(** A number below [128 ^ (k + 1)] takes at most [k + 1] bytes, and
    exactly that many when it is not below [128 ^ k]. *)
Lemma varint_length (k fuel : nat) (u : Z) :
  (k <= fuel)%nat -> 128 ^ Z.of_nat k <= u < 128 ^ (Z.of_nat k + 1) ->
  List.length (varint fuel u) = S k.
Proof.
  revert fuel u. induction k as [|k IH]; intros fuel u Hk Hu.
  - rewrite varint_small by (simpl in Hu; lia). reflexivity.
  - destruct fuel as [|fuel]; [lia|].
    assert (E : 128 ^ Z.of_nat (S k) = 128 * 128 ^ Z.of_nat k).
    { rewrite Nat2Z.inj_succ, Z.pow_succ_r by lia. reflexivity. }
    assert (E' : 128 ^ (Z.of_nat (S k) + 1) = 128 * 128 ^ (Z.of_nat k + 1)).
    { rewrite Nat2Z.inj_succ.
      replace (Z.succ (Z.of_nat k) + 1) with (Z.succ (Z.of_nat k + 1)) by lia.
      rewrite Z.pow_succ_r by lia. reflexivity. }
    assert (0 < 128 ^ Z.of_nat k) by (apply Z.pow_pos_nonneg; lia).
    rewrite varint_step by lia.
    simpl. f_equal. apply IH; [lia|].
    rewrite E, E' in Hu. split.
    + apply Z.div_le_lower_bound; lia.
    + apply Z.div_lt_upper_bound; lia.
Qed.

Lemma length_writeRawVarint32 (v : Z) :
  Java.length (writeRawVarint32 v) = computeRawVarint32Size v.
Proof.
  unfold writeRawVarint32, computeRawVarint32Size, Java.length.
  assert (Hu : 0 <= Java.unsigned32 v < 2 ^ 32)
    by (unfold Java.unsigned32; apply Z.mod_pos_bound; lia).
  set (u := Java.unsigned32 v) in *.
  destruct (Z.ltb_spec u (2 ^ 7)).
  { rewrite varint_small by lia. reflexivity. }
  destruct (Z.ltb_spec u (2 ^ 14)).
  { rewrite (varint_length 1) by (simpl; lia). reflexivity. }
  destruct (Z.ltb_spec u (2 ^ 21)).
  { rewrite (varint_length 2) by (simpl; lia). reflexivity. }
  destruct (Z.ltb_spec u (2 ^ 28)).
  { rewrite (varint_length 3) by (simpl; lia). reflexivity. }
  rewrite (varint_length 4) by (simpl; lia). reflexivity.
Qed.

Lemma length_writeInt32NoTag (v : Z) :
  Java.is_int v ->
  Java.length (writeInt32NoTag v) = computeInt32SizeNoTag v.
Proof.
  unfold writeInt32NoTag, computeInt32SizeNoTag, Java.is_int. intros H.
  destruct (Z.leb_spec 0 v).
  - apply length_writeRawVarint32.
  - unfold writeRawVarint64, Java.length, Java.unsigned64.
    rewrite (varint_length 9); [reflexivity|lia|].
    simpl Z.of_nat. dlia.
Qed.

(** The raw writer takes at most five bytes, whatever the sign. *)
Lemma computeRawVarint32Size_bounds (v : Z) :
  1 <= computeRawVarint32Size v <= 5.
Proof.
  unfold computeRawVarint32Size.
  repeat match goal with |- context [if ?c then _ else _] => destruct c end;
    lia.
Qed.

Lemma computeInt32SizeNoTag_bounds (v : Z) :
  1 <= computeInt32SizeNoTag v <= 10.
Proof.
  unfold computeInt32SizeNoTag. pose proof (computeRawVarint32Size_bounds v).
  destruct (0 <=? v); lia.
Qed.


(** Reading back what [varint] wrote. *)
Lemma readVarint_varint (fuel : nat) :
  forall (m : nat) (u : Z) (rest : list Z) (pos lim : Z),
    (fuel <= m)%nat -> 0 <= u < 128 ^ (Z.of_nat fuel + 1) ->
    pos + Java.length (varint fuel u) <= lim ->
    readVarint m {| buffer := varint fuel u ++ rest; bufferPos := pos;
                    currentLimit := lim |}
    = Some (u, {| buffer := rest;
                  bufferPos := pos + Java.length (varint fuel u);
                  currentLimit := lim |}).
Proof.
  induction fuel as [|fuel IH]; intros m u rest pos lim Hm Hu Hlim.
  - simpl in Hu. rewrite varint_small in * by lia.
    unfold Java.length in *. simpl in Hlim.
    destruct m; simpl; unfold readRawByte; simpl;
      destruct (Z.leb_spec lim pos); try lia; simpl;
      destruct (Z.ltb_spec u 128); try lia; reflexivity.
  - destruct (Z.lt_ge_cases u 128) as [Hs|Hb].
    + rewrite varint_small in * by lia.
      unfold Java.length in *. simpl in Hlim.
      destruct m; simpl; unfold readRawByte; simpl;
        destruct (Z.leb_spec lim pos); try lia; simpl;
        destruct (Z.ltb_spec u 128); try lia; reflexivity.
    + rewrite varint_step in * by lia.
      destruct m as [|m]; [lia|].
      unfold Java.length in *. simpl List.length in *.
      rewrite Nat2Z.inj_succ in *.
      cbn [readVarint]. unfold readRawByte at 1.
      cbn [buffer bufferPos currentLimit app].
      destruct (Z.leb_spec lim pos); [lia|]. cbn [bind].
      destruct (Z.ltb_spec (u mod 128 + 128) 128); [dlia|].
      rewrite (IH m (u / 128) rest (pos + 1) lim).
      * cbn [bind]. f_equal. f_equal; [dlia|]. f_equal. lia.
      * lia.
      * replace (Z.succ (Z.of_nat fuel) + 1)
          with (Z.succ (Z.of_nat fuel + 1)) in Hu by lia.
        rewrite Z.pow_succ_r in Hu by lia.
        split; [apply Z.div_pos; lia|].
        apply Z.div_lt_upper_bound; lia.
      * unfold Java.length. lia.
Qed.

Lemma readRawVarint32_writeRawVarint32 (v : Z) (rest : list Z) (pos lim : Z) :
  Java.is_int v ->
  pos + computeRawVarint32Size v <= lim ->
  readRawVarint32 {| buffer := writeRawVarint32 v ++ rest; bufferPos := pos;
                     currentLimit := lim |}
  = Some (v, {| buffer := rest; bufferPos := pos + computeRawVarint32Size v;
                currentLimit := lim |}).
Proof.
  intros Hv Hlim. unfold readRawVarint32.
  rewrite <- length_writeRawVarint32 in *. unfold writeRawVarint32 in *.
  rewrite readVarint_varint; [|lia| |exact Hlim].
  - cbn [bind]. f_equal. f_equal.
    unfold Java.wrap, Java.unsigned32, Java.is_int in *. dlia.
  - unfold Java.unsigned32. simpl Z.of_nat. dlia.
Qed.

Lemma readInt32_writeInt32NoTag (v : Z) (rest : list Z) (pos lim : Z) :
  Java.is_int v ->
  pos + computeInt32SizeNoTag v <= lim ->
  readInt32 {| buffer := writeInt32NoTag v ++ rest; bufferPos := pos;
               currentLimit := lim |}
  = Some (v, {| buffer := rest; bufferPos := pos + computeInt32SizeNoTag v;
                currentLimit := lim |}).
Proof.
  intros Hv Hlim. unfold readInt32.
  pose proof (length_writeInt32NoTag v Hv) as L.
  unfold writeInt32NoTag, computeInt32SizeNoTag in *.
  destruct (Z.leb_spec 0 v).
  - apply readRawVarint32_writeRawVarint32; assumption.
  - unfold readRawVarint32, writeRawVarint64 in *.
    rewrite readVarint_varint; [|lia| |rewrite L; exact Hlim].
    + cbn [bind]. rewrite L. f_equal. f_equal.
      unfold Java.wrap, Java.unsigned64, Java.is_int in *. dlia.
    + unfold Java.unsigned64. simpl Z.of_nat. dlia.
Qed.

End NanoFacts.

(** ** The fragments printed for a singular enum field *)

(** Each definition below is the meaning of the Java text that the
    generator of the same name prints, with the placeholders replaced by
    what [SetEnumVariables] binds them to: [$number$] is the field number,
    [$default$] denotes the number of the default value, [$tag$] and
    [$tag_size$] are the literals computed by [WireFormat]. *)
Module EnumFieldCode.

Section Field.

Variable descriptor : FieldDescriptor.

(** [GenerateParsingCode]:
    {[   $name$ = input.readInt32();   ]} *)
Definition ParsingCode (input : Nano.CodedInputStreamNano)
  : option (Z * Nano.CodedInputStreamNano) :=
  Nano.readInt32 input.

(** [GenerateSerializationCode]:
    {[ if ($name$ != $default$) {
         output.writeInt32($number$, $name$);
       } ]}
    The output stream is the list of the bytes written so far. *)
Definition SerializationCode (name_ : Z) (output : list Z) : list Z :=
  if negb (name_ =? default_number descriptor) then
    output ++ Nano.writeInt32 (field_number descriptor) name_
  else output.

(** [GenerateSerializedSizeCode]:
    {[ if ($name$ != $default$) {
         size += CodedOutputStreamNano.computeInt32Size($number$, $name$);
       } ]} *)
Definition SerializedSizeCode (name_ : Z) (size : Z) : Z :=
  if negb (name_ =? default_number descriptor) then
    Java.add size (Nano.computeInt32Size (field_number descriptor) name_)
  else size.

(** [GenerateMergingCode], after the words it prints first, which are no
    Java:
    {[ if (other.has$capitalized_name$()) {
         set$capitalized_name$(other.get$capitalized_name$());
       } ]}
    The three accessors are generated elsewhere; they are parameters. *)
Section Merging.

Variable Message : Type.
Variable has : Message -> bool.
Variable get : Message -> Z.
Variable set : Z -> Message -> Message.

Definition MergingCode (this other : Message) : Message :=
  if has other then set (get other) this else this.

End Merging.

End Field.

End EnumFieldCode.

(** ** The fragments printed for a repeated enum field *)

Module RepeatedEnumFieldCode.

(** The two members [GenerateMembers] declares: the array and, for a
    packed field, the memoized size. *)
Record Message : Type := {
  name_ : list Z;
  nameMemoizedSerializedSize : Z
}.

Definition set_name (this : Message) (a : list Z) : Message :=
  {| name_ := a;
     nameMemoizedSerializedSize := nameMemoizedSerializedSize this |}.

Definition set_memoized (this : Message) (n : Z) : Message :=
  {| name_ := name_ this; nameMemoizedSerializedSize := n |}.

(** *** Merging *)

(** The merging fragment names three objects: [other], [result] and
    [results].  A scope binds identifiers to references and the store
    holds the objects, so two identifiers may name one object. *)
Record Scope : Type := {
  locals : list (string * nat);
  objects : list Message
}.

Fixpoint lookup (x : string) (l : list (string * nat)) : option nat :=
  match l with
  | [] => None
  | (y, r) :: l' => if String.eqb x y then Some r else lookup x l'
  end.

Fixpoint update {A : Type} (l : list A) (r : nat) (x : A) : list A :=
  match l, r with
  | [], _ => []
  | _ :: l', O => x :: l'
  | y :: l', S r' => y :: update l' r' x
  end.

(** The object an identifier names; an unbound identifier has none. *)
Definition deref (s : Scope) (x : string) : option Message :=
  do r <- lookup x (locals s);
  nth_error (objects s) r.

(** [x.$name$ = a]. *)
Definition assign_name (s : Scope) (x : string) (a : list Z) : option Scope :=
  do r <- lookup x (locals s);
  do m <- nth_error (objects s) r;
  Some {| locals := locals s; objects := update (objects s) r (set_name m a) |}.

(** [GenerateMergingCode]:
    {[ if (other.$name$.length > 0) {
         int[] merged = java.util.Arrays.copyOf(result.$name$,
             result.$name$.length + other.$name$.length);
         java.lang.System.arraycopy(other.$name$, 0, merged,
             results.$name$.length, other.$name$.length);
         result.$name$ = merged;
       } ]}
    An identifier is looked up when the statement that names it runs.
    The Java compiler resolves every identifier of the fragment before
    any run, so the runs that end here without reaching an identifier
    the scope does not bind (an empty source) do not exist in Java. *)
Definition MergingCode (s : Scope) : option Scope :=
  do other <- deref s "other";
  if 0 <? Java.length (name_ other) then
    do result <- deref s "result";
    do merged <- Java.copyOf (name_ result)
                   (Java.add (Java.length (name_ result))
                             (Java.length (name_ other)));
    do results <- deref s "results";
    do merged <- Java.arraycopy (name_ other) 0 merged
                   (Java.length (name_ results)) (Java.length (name_ other));
    assign_name s "result" merged
  else Some s.

Section Field.

Variable descriptor : FieldDescriptor.

(** The two lookahead helpers of the runtime, which report how many
    elements follow in the input. *)
Variable getPackedRepeatedFieldArrayLength :
  Nano.CodedInputStreamNano -> Z -> option Z.
Variable getRepeatedFieldArrayLength :
  Nano.CodedInputStreamNano -> Z -> option Z.

(** *** Parsing *)

(** {[ for (int i = 0; i < arrayLength; i++) {
         $name$[i] = input.readInt32();
       } ]}
    with [count] iterations left. *)
Fixpoint packed_loop (count : nat) (i : Z) (name_ : list Z)
  (input : Nano.CodedInputStreamNano)
  : option (list Z * Nano.CodedInputStreamNano) :=
  match count with
  | O => Some (name_, input)
  | S count' =>
      do (v, input) <- Nano.readInt32 input;
      do name_ <- Java.store name_ i v;
      packed_loop count' (i + 1) name_ input
  end.

(** {[ for (; i < $name$.length - 1; i++) {
         $name$[i] = input.readInt32();
         input.readTag();
       } ]}
    with [count] iterations left; the index the loop stops at is part of
    the result. *)
Fixpoint unpacked_loop (count : nat) (i : Z) (name_ : list Z)
  (input : Nano.CodedInputStreamNano)
  : option (Z * list Z * Nano.CodedInputStreamNano) :=
  match count with
  | O => Some (i, name_, input)
  | S count' =>
      do (v, input) <- Nano.readInt32 input;
      do name_ <- Java.store name_ i v;
      do (_, input) <- Nano.readTag input;
      unpacked_loop count' (i + 1) name_ input
  end.

(** [GenerateParsingCode], packed:
    {[ int length = input.readRawVarint32();
       int limit = input.pushLimit(length);
       int arrayLength = getPackedRepeatedFieldArrayLength(input, $tag$);
       $name$ = new $type$[arrayLength];
       for (int i = 0; i < arrayLength; i++) {
         $name$[i] = input.readInt32();
       }
       input.popLimit(limit); ]}
    and unpacked:
    {[ int arrayLength = getRepeatedFieldArrayLength(input, $tag$);
       int i = $name$.length;
       $name$ = java.util.Arrays.copyOf($name$, $name$.length + arrayLength);
       for (; i < $name$.length - 1; i++) {
         $name$[i] = input.readInt32();
         input.readTag();
       }
       // Last one without readTag.
       $name$[i] = input.readInt32(); ]} *)
Definition ParsingCode (this : Message) (input : Nano.CodedInputStreamNano)
  : option (Message * Nano.CodedInputStreamNano) :=
  if packed descriptor then
    do (length, input) <- Nano.readRawVarint32 input;
    do (limit, input) <- Nano.pushLimit input length;
    do arrayLength <-
      getPackedRepeatedFieldArrayLength input (WireFormat.MakeTag descriptor);
    do name_ <- Java.new_array arrayLength;
    do (name_, input) <- packed_loop (Z.to_nat arrayLength) 0 name_ input;
    let input := Nano.popLimit input limit in
    Some (set_name this name_, input)
  else
    do arrayLength <-
      getRepeatedFieldArrayLength input (WireFormat.MakeTag descriptor);
    let i := Java.length (name_ this) in
    do name_ <- Java.copyOf (name_ this)
                  (Java.add (Java.length (name_ this)) arrayLength);
    do (i, name_, input) <-
      unpacked_loop (Z.to_nat (Java.length name_ - 1 - i)) i name_ input;
    do (v, input) <- Nano.readInt32 input;
    do name_ <- Java.store name_ i v;
    Some (set_name this name_, input).

(** *** Serialization *)

(** [GenerateSerializationCode]:
    {[ if ($name$.length > 0) {
         output.writeRawVarint32($tag$);
         output.writeRawVarint32($name$MemoizedSerializedSize);
         for (int element : $name$) {
           output.writeRawVarint32(element);
         }
       } ]}
    for a packed field, and otherwise
    {[ if ($name$.length > 0) {
         for (int element : $name$) {
           output.writeInt32($number$, element);
         }
       } ]} *)
Definition SerializationCode (this : Message) (output : list Z) : list Z :=
  if 0 <? Java.length (name_ this) then
    if packed descriptor then
      let output :=
        output ++ Nano.writeRawVarint32 (WireFormat.MakeTag descriptor) in
      let output :=
        output ++ Nano.writeRawVarint32 (nameMemoizedSerializedSize this) in
      fold_left (fun output element => output ++ Nano.writeRawVarint32 element)
                (name_ this) output
    else
      fold_left (fun output element =>
                   output ++ Nano.writeInt32 (field_number descriptor) element)
                (name_ this) output
  else output.

(** *** Serialized size *)

(** {[ int dataSize = 0;
       for (int element : $name$) {
         dataSize += CodedOutputStreamNano.computeInt32SizeNoTag(element);
       } ]} *)
Definition dataSize (name_ : list Z) : Z :=
  fold_left (fun dataSize element =>
               Java.add dataSize (Nano.computeInt32SizeNoTag element))
            name_ 0.

(** [GenerateSerializedSizeCode]:
    {[ if ($name$.length > 0) {
         int dataSize = 0;
         for (int element : $name$) { ... }
         size += dataSize;
         size += $tag_size$;
         size += CodedOutputStreamNano.computeRawVarint32Size(dataSize);
         $name$MemoizedSerializedSize = dataSize;
       } else {
         $name$MemoizedSerializedSize = 0;
       } ]}
    for a packed field, and otherwise
    {[ if ($name$.length > 0) {
         int dataSize = 0;
         for (int element : $name$) { ... }
         size += dataSize;
         size += $tag_size$ * $name$.length;
       } ]} *)
Definition SerializedSizeCode (this : Message) (size : Z) : Message * Z :=
  if 0 <? Java.length (name_ this) then
    let dataSize := dataSize (name_ this) in
    let size := Java.add size dataSize in
    if packed descriptor then
      let size :=
        Java.add size (WireFormat.TagSize (field_number descriptor)) in
      let size := Java.add size (Nano.computeRawVarint32Size dataSize) in
      (set_memoized this dataSize, size)
    else
      (this,
       Java.add size
         (Java.mul (WireFormat.TagSize (field_number descriptor))
                   (Java.length (name_ this))))
  else if packed descriptor then (set_memoized this 0, size)
  else (this, size).

End Field.

End RepeatedEnumFieldCode.

(** ** The rest of a generated message *)

(** Modelled from the spec: the lookahead helpers
    [getRepeatedFieldArrayLength] and [getPackedRepeatedFieldArrayLength]
    and the loop of the generated [mergeFrom] that dispatches on tags
    (the runtime and the message generator are outside this
    development).  The unpacked helper is the "external lookahead helper
    that reports how many consecutive elements belong to this field"; it
    is called after the first tag of the run has been read.  The packed
    helper "determines the element count within that span", the span
    being what is left before the current limit.  In [mergeFrom] "the tag
    that triggered entry into this field's parse branch already accounted
    for the first element"; the message here has the one field. *)
Module MessageCode.

Import RepeatedEnumFieldCode.

(** Modelled from the spec: the loop of the unpacked lookahead helper.
    It skips an element, looks at the next tag and goes on while that is
    the tag of the field; every round consumes input, so as many rounds
    as there are bytes, and one more, are enough. *)
Fixpoint run_length (fuel : nat) (tag : Z) (input : Nano.CodedInputStreamNano)
  : option Z :=
  match fuel with
  | O => None
  | S fuel' =>
      do (_, input) <- Nano.readRawVarint32 input;
      do (next, input) <- Nano.readTag input;
      if next =? tag then
        do n <- run_length fuel' tag input;
        Some (1 + n)
      else Some 1
  end.

(** Modelled from the spec: [getRepeatedFieldArrayLength], the "external
    lookahead helper that reports how many consecutive elements belong to
    this field"; the input itself is left where it was. *)
Definition getRepeatedFieldArrayLength (input : Nano.CodedInputStreamNano)
  (tag : Z) : option Z :=
  run_length (S (List.length (Nano.buffer input))) tag input.

(** Modelled from the spec: the loop of the packed lookahead helper: the
    number of varints up to the limit, which is the end of the span. *)
Fixpoint count_varints (fuel : nat) (input : Nano.CodedInputStreamNano)
  : option Z :=
  match fuel with
  | O => None
  | S fuel' =>
      if Nano.getBytesUntilLimit input <=? 0 then Some 0
      else
        do (_, input) <- Nano.readRawVarint32 input;
        do n <- count_varints fuel' input;
        Some (1 + n)
  end.

(** Modelled from the spec: [getPackedRepeatedFieldArrayLength], the
    external helper that "determines the element count within that
    span". *)
Definition getPackedRepeatedFieldArrayLength
  (input : Nano.CodedInputStreamNano) (tag : Z) : option Z :=
  count_varints (S (List.length (Nano.buffer input))) input.

(** The parsing fragment with these two helpers. *)
Definition ParsingCode (descriptor : FieldDescriptor) :=
  RepeatedEnumFieldCode.ParsingCode descriptor
    getPackedRepeatedFieldArrayLength getRepeatedFieldArrayLength.

(** Modelled from the spec: the loop of the generated [mergeFrom], in which
    the tag read "triggered entry into this field's parse branch":
    {[ while (true) {
         int tag = input.readTag();
         switch (tag) {
           case 0: return this;
           case $tag$: { <parsing code of the field> break; }
         }
       } ]}
    A tag of another field ends the parse of this one-field message as
    a failure. *)
Fixpoint mergeFrom_loop (fuel : nat) (descriptor : FieldDescriptor)
  (this : Message) (input : Nano.CodedInputStreamNano) : option Message :=
  match fuel with
  | O => None
  | S fuel' =>
      do (tag, input) <- Nano.readTag input;
      if tag =? 0 then Some this
      else if tag =? WireFormat.MakeTag descriptor then
        do (this, input) <- ParsingCode descriptor this input;
        mergeFrom_loop fuel' descriptor this input
      else None
  end.

(** Modelled from the spec: parsing a byte array into a message.  Every
    round of the loop consumes a tag, so one round per byte, and one more,
    are enough. *)
Definition mergeFrom (descriptor : FieldDescriptor) (this : Message)
  (bytes : list Z) : option Message :=
  mergeFrom_loop (S (List.length bytes)) descriptor this
    (Nano.newInstance bytes).

(** A fresh message: the empty array and a zero cache. *)
Definition fresh : Message :=
  {| name_ := []; nameMemoizedSerializedSize := 0 |}.

End MessageCode.

Module Examples.

Import RepeatedEnumFieldCode MessageCode.

Definition sized (is_packed : bool) (xs : list Z) : Message * Z :=
  SerializedSizeCode (Demo.field is_packed)
    {| name_ := xs; nameMemoizedSerializedSize := 0 |} 0.

Definition written (is_packed : bool) (xs : list Z) : list Z :=
  SerializationCode (Demo.field is_packed) (fst (sized is_packed xs)) [].

Definition reparsed (is_packed : bool) (xs : list Z) : option (list Z) :=
  option_map name_
    (mergeFrom (Demo.field is_packed) fresh (written is_packed xs)).

End Examples.


(** ** Singular fields: serialization and size *)

Module SingularClaims.

Import EnumFieldCode.



End SingularClaims.

(** ** Packed fields: the empty sequence *)

Module PackedClaims.

Import RepeatedEnumFieldCode.

(** C7.  On an empty sequence the size fragment of a packed field sets
    the memoized size to zero, whatever it held, and leaves the running
    size alone; the serializer then writes no byte, and it writes none
    either when the stale value is still in the cache. *)
Theorem packed_empty_resets_cache
  (descriptor : FieldDescriptor) (this : Message) (size : Z)
  (output : list Z) :
  packed descriptor = true -> name_ this = [] ->
  SerializedSizeCode descriptor this size = (set_memoized this 0, size) /\
  nameMemoizedSerializedSize (fst (SerializedSizeCode descriptor this size))
  = 0 /\
  snd (SerializedSizeCode descriptor this size) = size /\
  SerializationCode descriptor (fst (SerializedSizeCode descriptor this size))
    output = output /\
  SerializationCode descriptor this output = output.
Proof.
  intros Hp He. unfold SerializedSizeCode, SerializationCode.
  rewrite Hp, He. cbn. rewrite He. cbn. auto.
Qed.

Lemma packed_empty_resets_cache_witness :
  SerializedSizeCode (Demo.field true)
    {| name_ := []; nameMemoizedSerializedSize := 12 |} 33
  = (set_memoized {| name_ := []; nameMemoizedSerializedSize := 12 |} 0, 33) /\
  nameMemoizedSerializedSize
    (fst (SerializedSizeCode (Demo.field true)
            {| name_ := []; nameMemoizedSerializedSize := 12 |} 33))
  = 0 /\
  snd (SerializedSizeCode (Demo.field true)
         {| name_ := []; nameMemoizedSerializedSize := 12 |} 33) = 33 /\
  SerializationCode (Demo.field true)
    (fst (SerializedSizeCode (Demo.field true)
            {| name_ := []; nameMemoizedSerializedSize := 12 |} 33))
    [8; 1] = [8; 1] /\
  SerializationCode (Demo.field true)
    {| name_ := []; nameMemoizedSerializedSize := 12 |} [8; 1] = [8; 1].
Proof.
  apply (packed_empty_resets_cache (Demo.field true)
           {| name_ := []; nameMemoizedSerializedSize := 12 |} 33 [8; 1]);
    reflexivity.
Defined.

End PackedClaims.

(** ** Packed fields: parsing *)

Module PackedParsing.

Import RepeatedEnumFieldCode.

(** [n] values read one after the other, nothing in between. *)
Fixpoint read_ints (n : nat) (input : Nano.CodedInputStreamNano)
  : option (list Z * Nano.CodedInputStreamNano) :=
  match n with
  | O => Some ([], input)
  | S n' =>
      do (v, input) <- Nano.readInt32 input;
      do (vs, input) <- read_ints n' input;
      Some (v :: vs, input)
  end.

Lemma read_ints_length (n : nat) :
  forall input vs input',
    read_ints n input = Some (vs, input') -> List.length vs = n.
Proof.
  induction n as [|n IH]; intros input vs input' H; simpl in H.
  - inversion H. reflexivity.
  - destruct (Nano.readInt32 input) as [[v i1]|]; [|discriminate].
    cbn [bind] in H.
    destruct (read_ints n i1) as [[vs' i2]|] eqn:E; [|discriminate].
    cbn [bind] in H. inversion H; subst. simpl. f_equal. eapply IH. exact E.
Qed.

Lemma store_at_end (A R : list Z) (x v : Z) :
  Java.store (A ++ x :: R) (Java.length A) v = Some (A ++ v :: R).
Proof.
  unfold Java.store, Java.length. rewrite length_app. simpl List.length.
  destruct (Z.ltb_spec (Z.of_nat (List.length A)) 0); [lia|].
  destruct (Z.leb_spec (Z.of_nat (List.length A + S (List.length R)))
                       (Z.of_nat (List.length A))); [lia|].
  cbn [orb]. rewrite Nat2Z.id. f_equal. clear.
  induction A as [|a A IH]; [reflexivity|].
  cbn [List.length firstn skipn app] in *. f_equal. exact IH.
Qed.

(** The loop over a fresh array is [read_ints]. *)
Lemma packed_loop_read_ints (count : nat) :
  forall (A : list Z) (input : Nano.CodedInputStreamNano),
    packed_loop count (Java.length A) (A ++ repeat 0 count) input
    = do (vs, input') <- read_ints count input;
      Some (A ++ vs, input').
Proof.
  induction count as [|count IH]; intros A input.
  - reflexivity.
  - cbn [packed_loop read_ints repeat].
    destruct (Nano.readInt32 input) as [[v i1]|]; [|reflexivity].
    cbn [bind]. rewrite store_at_end. cbn [bind].
    replace (Java.length A + 1) with (Java.length (A ++ [v]))
      by (unfold Java.length; rewrite length_app; simpl; lia).
    replace (A ++ v :: repeat 0 count) with ((A ++ [v]) ++ repeat 0 count)
      by (rewrite <- app_assoc; reflexivity).
    rewrite IH.
    destruct (read_ints count i1) as [[vs i2]|]; [|reflexivity].
    cbn [bind]. rewrite <- app_assoc. reflexivity.
Qed.

(** C9.  Whenever the packed parsing fragment succeeds it has read one
    length prefix, limited the input to that span, asked the helper for
    the element count, and read exactly that many values one after the
    other with no tag in between; the array it leaves has exactly that
    many slots and does not depend on what the field held before. *)
Theorem packed_parse_replaces
  (descriptor : FieldDescriptor)
  (getPacked getUnpacked : Nano.CodedInputStreamNano -> Z -> option Z)
  (this this' : Message) (input input' : Nano.CodedInputStreamNano) :
  packed descriptor = true ->
  ParsingCode descriptor getPacked getUnpacked this input
  = Some (this', input') ->
  exists length input1 limit input2 arrayLength input3,
    Nano.readRawVarint32 input = Some (length, input1) /\
    Nano.pushLimit input1 length = Some (limit, input2) /\
    getPacked input2 (WireFormat.MakeTag descriptor) = Some arrayLength /\
    0 <= arrayLength /\
    read_ints (Z.to_nat arrayLength) input2 = Some (name_ this', input3) /\
    Java.length (name_ this') = arrayLength /\
    input' = Nano.popLimit input3 limit /\
    nameMemoizedSerializedSize this' = nameMemoizedSerializedSize this /\
    (forall before : Message,
        ParsingCode descriptor getPacked getUnpacked before input
        = Some (set_name before (name_ this'), input')).
Proof.
  intros Hp H. unfold ParsingCode in H. rewrite Hp in H.
  destruct (Nano.readRawVarint32 input) as [[len i1]|] eqn:E1;
    [|discriminate].
  cbn [bind] in H.
  destruct (Nano.pushLimit i1 len) as [[lim i2]|] eqn:E2; [|discriminate].
  cbn [bind] in H.
  destruct (getPacked i2 (WireFormat.MakeTag descriptor)) as [n|] eqn:E3;
    [|discriminate].
  cbn [bind] in H.
  assert (E4 : Java.new_array n = Some (repeat 0 (Z.to_nat n)) /\ 0 <= n).
  { unfold Java.new_array in *.
    destruct (Z.ltb_spec n 0); [discriminate|]. split; [reflexivity|lia]. }
  destruct E4 as [E4 Hn]. rewrite E4 in H. cbn [bind] in H.
  pose proof (packed_loop_read_ints (Z.to_nat n) [] i2) as L.
  cbn [app Java.length List.length Z.of_nat] in L. rewrite L in H.
  destruct (read_ints (Z.to_nat n) i2) as [[vs i3]|] eqn:E5; [|discriminate].
  cbn [bind] in H. inversion H; subst.
  cbn [set_name name_ nameMemoizedSerializedSize].
  exists len, i1, lim, i2, n, i3.
  split; [reflexivity|]. split; [exact E2|]. split; [exact E3|].
  split; [exact Hn|]. split; [exact E5|]. split.
  { unfold Java.length. rewrite (read_ints_length _ _ _ _ E5). lia. }
  split; [reflexivity|]. split; [reflexivity|].
  intros before. unfold ParsingCode. rewrite Hp, E1. cbn [bind].
  rewrite E2. cbn [bind]. rewrite E3. cbn [bind]. rewrite E4. cbn [bind].
  rewrite L. reflexivity.
Qed.

(** The span [7 1 0] behind its length: three bytes, three elements. *)
Definition demo_input : Nano.CodedInputStreamNano :=
  Nano.newInstance [3; 7; 1; 0; 24].

Definition demo_before : Message :=
  {| name_ := [9; 9]; nameMemoizedSerializedSize := 2 |}.

Definition demo_after : Message :=
  {| name_ := [7; 1; 0]; nameMemoizedSerializedSize := 2 |}.

Definition demo_rest : Nano.CodedInputStreamNano :=
  {| Nano.buffer := [24]; Nano.bufferPos := 4;
     Nano.currentLimit := 2 ^ 31 - 1 |}.

Lemma packed_parse_replaces_witness :
  exists length input1 limit input2 arrayLength input3,
    Nano.readRawVarint32 demo_input = Some (length, input1) /\
    Nano.pushLimit input1 length = Some (limit, input2) /\
    MessageCode.getPackedRepeatedFieldArrayLength input2
      (WireFormat.MakeTag (Demo.field true)) = Some arrayLength /\
    0 <= arrayLength /\
    read_ints (Z.to_nat arrayLength) input2 = Some (name_ demo_after, input3) /\
    Java.length (name_ demo_after) = arrayLength /\
    demo_rest = Nano.popLimit input3 limit /\
    nameMemoizedSerializedSize demo_after
    = nameMemoizedSerializedSize demo_before /\
    (forall before : Message,
        ParsingCode (Demo.field true)
          MessageCode.getPackedRepeatedFieldArrayLength
          MessageCode.getRepeatedFieldArrayLength before demo_input
        = Some (set_name before (name_ demo_after), demo_rest)).
Proof.
  apply (packed_parse_replaces (Demo.field true)
           MessageCode.getPackedRepeatedFieldArrayLength
           MessageCode.getRepeatedFieldArrayLength
           demo_before demo_after demo_input demo_rest);
    reflexivity.
Defined.

End PackedParsing.

(** ** Unpacked fields: the round trip *)

Module UnpackedRoundTrip.

Import RepeatedEnumFieldCode MessageCode PackedParsing.

Section Run.

Variable descriptor : FieldDescriptor.
Hypothesis unpacked : packed descriptor = false.
Hypothesis number_range : 0 < field_number descriptor < 2 ^ 28.

Definition tag : Z := WireFormat.MakeTag descriptor.

(** The bytes of the tag and of one element. *)
Definition T : list Z :=
  Nano.writeTag (field_number descriptor) Nano.WIRETYPE_VARINT.
Definition E (element : Z) : list Z := Nano.writeInt32NoTag element.

(** A run as the serializer writes it: a tag in front of every element. *)
Definition tagged (xs : list Z) : list Z :=
  flat_map (fun element => T ++ E element) xs.

(** A run as the parsing fragment reads it, the first tag being gone: a
    tag behind every element but the last. *)
Definition run_bytes (l : list Z) (last : Z) : list Z :=
  flat_map (fun element => E element ++ T) l ++ E last.

Lemma tag_value : tag = field_number descriptor * 8.
Proof.
  unfold tag, WireFormat.MakeTag, WireFormat.WireTypeForField.
  rewrite unpacked. unfold WireFormat.WIRETYPE_VARINT.
  rewrite Z.lor_0_r, Z.shiftl_mul_pow2 by lia.
  change (2 ^ 3) with 8. rewrite Z.mod_small; [reflexivity|lia].
Qed.

Lemma makeTag_value :
  Nano.makeTag (field_number descriptor) Nano.WIRETYPE_VARINT = tag.
Proof.
  rewrite tag_value. unfold Nano.makeTag, Nano.WIRETYPE_VARINT.
  rewrite Z.lor_0_r, Z.shiftl_mul_pow2 by lia.
  change (2 ^ 3) with 8. apply Java.wrap_int. unfold Java.is_int. lia.
Qed.

Lemma tag_is_int : Java.is_int tag /\ tag <> 0.
Proof. rewrite tag_value. unfold Java.is_int. lia. Qed.

Definition tsz : Z := Nano.computeRawVarint32Size tag.

Lemma length_T : Java.length T = tsz.
Proof.
  unfold T, Nano.writeTag. rewrite makeTag_value.
  apply NanoFacts.length_writeRawVarint32.
Qed.

Lemma tsz_pos : 1 <= tsz.
Proof. apply NanoFacts.computeRawVarint32Size_bounds. Qed.

Lemma length_app_Z (a b : list Z) :
  Java.length (a ++ b) = Java.length a + Java.length b.
Proof. unfold Java.length. rewrite length_app. lia. Qed.

Lemma length_nonneg (a : list Z) : 0 <= Java.length a.
Proof. unfold Java.length. lia. Qed.

Lemma serialization_is_tagged (this : Message) (output : list Z) :
  SerializationCode descriptor this output = output ++ tagged (name_ this).
Proof.
  unfold SerializationCode. rewrite unpacked.
  assert (F : forall xs out,
             fold_left (fun output element =>
                          output ++ Nano.writeInt32 (field_number descriptor)
                                      element) xs out
             = out ++ tagged xs).
  { induction xs as [|e xs IH]; intros out; simpl.
    - rewrite app_nil_r. reflexivity.
    - rewrite IH. unfold Nano.writeInt32. fold T. fold (E e).
      rewrite <- !app_assoc. reflexivity. }
  destruct (name_ this) as [|e xs] eqn:En.
  - simpl. rewrite app_nil_r. reflexivity.
  - replace (0 <? Java.length (e :: xs)) with true.
    + apply F.
    + symmetry. apply Z.ltb_lt. unfold Java.length. simpl List.length. lia.
Qed.

(** Reading the tag of the field. *)
Lemma readTag_T (rest : list Z) (pos lim : Z) :
  pos + tsz <= lim ->
  Nano.readTag {| Nano.buffer := T ++ rest; Nano.bufferPos := pos;
                  Nano.currentLimit := lim |}
  = Some (tag, {| Nano.buffer := rest; Nano.bufferPos := pos + tsz;
                  Nano.currentLimit := lim |}).
Proof.
  intros Hlim. pose proof tsz_pos. pose proof length_T as LT.
  destruct tag_is_int as [Hi Hz].
  unfold Nano.readTag, Nano.isAtEnd. cbn [Nano.buffer Nano.bufferPos Nano.currentLimit].
  destruct (Z.leb_spec lim pos); [lia|]. cbn [orb].
  destruct (T ++ rest) as [|b r] eqn:Eb.
  { exfalso. apply (f_equal Java.length) in Eb.
    rewrite length_app_Z, LT in Eb. pose proof (length_nonneg rest).
    change (Java.length []) with 0 in Eb. lia. }
  rewrite <- Eb. unfold T, Nano.writeTag. rewrite makeTag_value.
  rewrite NanoFacts.readRawVarint32_writeRawVarint32 by assumption.
  cbn [bind]. destruct (Z.eqb_spec tag 0); [contradiction|]. reflexivity.
Qed.

Lemma readTag_end (pos lim : Z) :
  Nano.readTag {| Nano.buffer := []; Nano.bufferPos := pos;
                  Nano.currentLimit := lim |}
  = Some (0, {| Nano.buffer := []; Nano.bufferPos := pos;
                Nano.currentLimit := lim |}).
Proof.
  unfold Nano.readTag, Nano.isAtEnd. cbn [Nano.buffer].
  rewrite orb_true_r. reflexivity.
Qed.

Definition esz (element : Z) : Z := Nano.computeInt32SizeNoTag element.

Lemma length_E (e : Z) : Java.is_int e -> Java.length (E e) = esz e.
Proof. apply NanoFacts.length_writeInt32NoTag. Qed.

Lemma esz_pos (e : Z) : 1 <= esz e.
Proof. apply NanoFacts.computeInt32SizeNoTag_bounds. Qed.

Lemma readInt32_E (e : Z) (rest : list Z) (pos lim : Z) :
  Java.is_int e -> pos + esz e <= lim ->
  Nano.readInt32 {| Nano.buffer := E e ++ rest; Nano.bufferPos := pos;
                    Nano.currentLimit := lim |}
  = Some (e, {| Nano.buffer := rest; Nano.bufferPos := pos + esz e;
                Nano.currentLimit := lim |}).
Proof. apply NanoFacts.readInt32_writeInt32NoTag. Qed.

(** One more element than bytes cannot be: every element takes two bytes
    at least. *)
Lemma tagged_length (xs : list Z) :
  Forall Java.is_int xs -> Java.length xs <= Java.length (tagged xs).
Proof.
  induction 1 as [|e xs He _ IH]; [reflexivity|].
  unfold tagged in *. cbn [flat_map].
  rewrite !length_app_Z, length_T, (length_E e He).
  pose proof tsz_pos. pose proof (esz_pos e).
  unfold Java.length in *. simpl List.length. lia.
Qed.

(** The lookahead helper counts the run. *)
Lemma run_length_tagged (xs : list Z) :
  forall (e : Z) (fuel : nat) (pos lim : Z),
    Forall Java.is_int (e :: xs) -> (List.length xs < fuel)%nat ->
    pos + Java.length (E e ++ tagged xs) <= lim ->
    run_length fuel tag
      {| Nano.buffer := E e ++ tagged xs; Nano.bufferPos := pos;
         Nano.currentLimit := lim |}
    = Some (1 + Java.length xs).
Proof.
  induction xs as [|e' xs IH]; intros e fuel pos lim Hall Hfuel Hlim;
    (destruct fuel as [|fuel]; [simpl in Hfuel; lia|]);
    inversion Hall as [|? ? He Hall']; subst;
    rewrite length_app_Z, (length_E e He) in Hlim;
    cbn [run_length]; fold Nano.readInt32.
  - unfold tagged in *. cbn [flat_map] in *.
    change (Java.length []) with 0 in Hlim.
    rewrite readInt32_E by (try assumption; lia).
    cbn [bind]. rewrite readTag_end. cbn [bind].
    destruct tag_is_int as [_ Hz].
    destruct (Z.eqb_spec 0 tag); [congruence|]. reflexivity.
  - inversion Hall' as [|? ? He' Hall'']; subst.
    pose proof (length_nonneg (tagged xs)).
    unfold tagged in *. cbn [flat_map] in *. fold (tagged xs) in *.
    rewrite !length_app_Z, length_T, (length_E e' He') in Hlim.
    pose proof tsz_pos. pose proof (esz_pos e'). pose proof (esz_pos e).
    rewrite readInt32_E by (try assumption; lia).
    cbn [bind]. rewrite <- app_assoc. rewrite readTag_T by lia.
    cbn [bind]. rewrite Z.eqb_refl.
    rewrite IH.
    + cbn [bind]. f_equal. unfold Java.length. simpl List.length. lia.
    + exact Hall'.
    + simpl in Hfuel. lia.
    + rewrite length_app_Z, (length_E e' He'). fold (tagged xs). lia.
Qed.

Lemma tagged_last (l : list Z) (last : Z) :
  tagged (l ++ [last]) = T ++ run_bytes l last.
Proof.
  unfold tagged, run_bytes. induction l as [|e l IH]; cbn [flat_map app].
  - rewrite app_nil_r. reflexivity.
  - rewrite IH. rewrite <- !app_assoc. reflexivity.
Qed.

Lemma length_run_bytes (l : list Z) (last : Z) :
  Java.length (tagged (l ++ [last])) = tsz + Java.length (run_bytes l last).
Proof. rewrite tagged_last, length_app_Z, length_T. reflexivity. Qed.

(** The loop of the fragment: every element it reads is followed by a
    tag, which it reads too. *)
Lemma unpacked_loop_run (l : list Z) :
  forall (A R rest : list Z) (pos lim : Z),
    Forall Java.is_int l ->
    pos + Java.length (flat_map (fun e => E e ++ T) l) <= lim ->
    unpacked_loop (List.length l) (Java.length A)
      (A ++ repeat 0 (List.length l) ++ R)
      {| Nano.buffer := flat_map (fun e => E e ++ T) l ++ rest;
         Nano.bufferPos := pos; Nano.currentLimit := lim |}
    = Some (Java.length A + Java.length l, A ++ l ++ R,
            {| Nano.buffer := rest;
               Nano.bufferPos :=
                 pos + Java.length (flat_map (fun e => E e ++ T) l);
               Nano.currentLimit := lim |}).
Proof.
  induction l as [|e l IH]; intros A R rest pos lim Hall Hlim.
  - cbn [unpacked_loop List.length repeat flat_map app].
    change (Java.length []) with 0. rewrite !Z.add_0_r. reflexivity.
  - inversion Hall as [|? ? He Hall']; subst.
    cbn [flat_map] in *. rewrite !length_app_Z, length_T, (length_E e He) in *.
    pose proof tsz_pos. pose proof (esz_pos e).
    pose proof (length_nonneg (flat_map (fun e => E e ++ T) l)).
    cbn [unpacked_loop List.length repeat app].
    rewrite <- !app_assoc.
    rewrite readInt32_E by (try assumption; lia). cbn [bind].
    rewrite store_at_end. cbn [bind].
    rewrite readTag_T by lia. cbn [bind].
    replace (Java.length A + 1) with (Java.length (A ++ [e]))
      by (rewrite length_app_Z; reflexivity).
    replace (A ++ e :: repeat 0 (List.length l) ++ R)
      with ((A ++ [e]) ++ repeat 0 (List.length l) ++ R)
      by (rewrite <- app_assoc; reflexivity).
    rewrite IH by (try assumption; lia).
    rewrite <- app_assoc. cbn [app]. rewrite length_app_Z.
    f_equal. f_equal; [f_equal|].
    + unfold Java.length. simpl List.length. lia.
    + f_equal. lia.
Qed.

(** The parsing fragment on a run of which the helper reports the
    length: the elements are appended to what the field holds, and the
    input is consumed up to the end of the last element. *)
Lemma ParsingCode_run
  (getPacked getUnpacked : Nano.CodedInputStreamNano -> Z -> option Z)
  (this : Message) (l : list Z) (last : Z) (rest : list Z) (pos lim : Z) :
  Forall Java.is_int l -> Java.is_int last ->
  getUnpacked {| Nano.buffer := run_bytes l last ++ rest;
                 Nano.bufferPos := pos; Nano.currentLimit := lim |} tag
  = Some (Java.length l + 1) ->
  Java.length (name_ this) + Java.length l + 1 < 2 ^ 31 ->
  pos + Java.length (run_bytes l last) <= lim ->
  RepeatedEnumFieldCode.ParsingCode descriptor getPacked getUnpacked this
    {| Nano.buffer := run_bytes l last ++ rest;
       Nano.bufferPos := pos; Nano.currentLimit := lim |}
  = Some (set_name this (name_ this ++ l ++ [last]),
          {| Nano.buffer := rest;
             Nano.bufferPos := pos + Java.length (run_bytes l last);
             Nano.currentLimit := lim |}).
Proof.
  intros Hall Hlast Hget Hlen Hlim.
  unfold RepeatedEnumFieldCode.ParsingCode. rewrite unpacked.
  fold tag. rewrite Hget. cbn [bind].
  pose proof (length_nonneg (name_ this)) as Hn.
  pose proof (length_nonneg l) as Hl.
  unfold Java.add. rewrite Java.wrap_int by (unfold Java.is_int; lia).
  unfold Java.copyOf.
  destruct (Z.ltb_spec (Java.length (name_ this) + (Java.length l + 1)) 0);
    [lia|].
  cbn [bind].
  assert (Ef : firstn (Z.to_nat (Java.length (name_ this)
                                 + (Java.length l + 1))) (name_ this)
               = name_ this).
  { apply firstn_all2. unfold Java.length. lia. }
  assert (Er : (Z.to_nat (Java.length (name_ this) + (Java.length l + 1))
                - List.length (name_ this))%nat
               = (List.length l + 1)%nat).
  { unfold Java.length. lia. }
  rewrite Ef, Er, repeat_app. cbn [repeat].
  assert (Ec : Z.to_nat (Java.length (name_ this ++ repeat 0 (List.length l)
                                        ++ [0]) - 1
                         - Java.length (name_ this))
               = List.length l).
  { rewrite !length_app_Z. unfold Java.length.
    rewrite repeat_length. simpl List.length. lia. }
  rewrite Ec.
  unfold run_bytes in *. rewrite <- app_assoc.
  rewrite length_app_Z in Hlim.
  pose proof (length_nonneg (E last)).
  rewrite (length_E last Hlast) in *. pose proof (esz_pos last).
  rewrite unpacked_loop_run by (try assumption; lia). cbn [bind].
  rewrite readInt32_E by (try assumption; lia). cbn [bind].
  rewrite <- length_app_Z.
  replace (name_ this ++ l ++ [0]) with ((name_ this ++ l) ++ [0])
    by (rewrite <- app_assoc; reflexivity).
  rewrite store_at_end. cbn [bind].
  rewrite <- app_assoc, length_app_Z, (length_E last Hlast).
  f_equal. f_equal. f_equal. lia.
Qed.

(** On a run that ends the input the lookahead helper reports its
    length. *)
Lemma helper_counts (l : list Z) (last : Z) (pos lim : Z) :
  Forall Java.is_int (l ++ [last]) ->
  pos + Java.length (run_bytes l last) <= lim ->
  getRepeatedFieldArrayLength
    {| Nano.buffer := run_bytes l last; Nano.bufferPos := pos;
       Nano.currentLimit := lim |} tag
  = Some (Java.length l + 1).
Proof.
  intros Hall Hlim.
  destruct (l ++ [last]) as [|e xs] eqn:Exs.
  { destruct l; discriminate. }
  assert (Eb : run_bytes l last = E e ++ tagged xs).
  { pose proof (tagged_last l last) as Et. rewrite Exs in Et.
    unfold tagged in Et. cbn [flat_map] in Et. fold (tagged xs) in Et.
    rewrite <- app_assoc in Et. apply app_inv_head in Et. congruence. }
  assert (El : Java.length l + 1 = 1 + Java.length xs).
  { apply (f_equal (@List.length Z)) in Exs. rewrite length_app in Exs.
    simpl in Exs. unfold Java.length. lia. }
  unfold getRepeatedFieldArrayLength. cbn [Nano.buffer].
  rewrite Eb in *. rewrite El.
  apply run_length_tagged; [exact Hall| |exact Hlim].
  inversion Hall as [|? ? _ Hall']; subst.
  pose proof (tagged_length xs Hall') as Ht.
  rewrite length_app. unfold Java.length in Ht. lia.
Qed.

End Run.

(** The round trip of an unpacked field whose number is below 2^28, so
    that its tag is a Java int.  The field is written as one tag and one
    varint per element.  Parsing these bytes gives the sequence back, in
    order and with repetitions; the parsing fragment, entered after the
    first tag, reads a tag after every element but the last and stops at
    the end of the last element, and it appends to what the field already
    holds. *)
Theorem unpacked_round_trip (descriptor : FieldDescriptor) (xs : list Z) :
  packed descriptor = false ->
  0 < field_number descriptor < 2 ^ 28 ->
  Forall Java.is_int xs ->
  Java.length (SerializationCode descriptor
                 {| name_ := xs; nameMemoizedSerializedSize := 0 |} [])
  < 2 ^ 31 ->
  SerializationCode descriptor
    {| name_ := xs; nameMemoizedSerializedSize := 0 |} []
  = flat_map (fun element =>
                Nano.writeTag (field_number descriptor) Nano.WIRETYPE_VARINT
                ++ Nano.writeInt32NoTag element) xs /\
  mergeFrom descriptor fresh
    (SerializationCode descriptor
       {| name_ := xs; nameMemoizedSerializedSize := 0 |} [])
  = Some {| name_ := xs; nameMemoizedSerializedSize := 0 |} /\
  (forall (l : list Z) (last : Z) (this : Message),
      xs = l ++ [last] ->
      Java.length (name_ this) + Java.length xs < 2 ^ 31 ->
      MessageCode.ParsingCode descriptor this
        (Nano.newInstance (run_bytes descriptor l last))
      = Some (set_name this (name_ this ++ xs),
              {| Nano.buffer := [];
                 Nano.bufferPos := Java.length (run_bytes descriptor l last);
                 Nano.currentLimit := 2 ^ 31 - 1 |})).
Proof.
  intros Hp Hnum Hall Hfit.
  rewrite (serialization_is_tagged descriptor Hp) in *.
  cbn [name_ app] in *.
  assert (Hparse :
    forall (l : list Z) (last : Z) (this : Message),
      xs = l ++ [last] ->
      Java.length (name_ this) + Java.length xs < 2 ^ 31 ->
      MessageCode.ParsingCode descriptor this
        (Nano.newInstance (run_bytes descriptor l last))
      = Some (set_name this (name_ this ++ xs),
              {| Nano.buffer := [];
                 Nano.bufferPos := Java.length (run_bytes descriptor l last);
                 Nano.currentLimit := 2 ^ 31 - 1 |})).
  { intros l last this Exs Hlen. subst xs.
    rewrite (length_run_bytes descriptor Hp Hnum) in Hfit.
    pose proof (tsz_pos descriptor).
    rewrite length_app_Z in Hlen. change (Java.length [last]) with 1 in Hlen.
    assert (Hl : Forall Java.is_int l /\ Java.is_int last).
    { apply Forall_app in Hall. destruct Hall as [H1 H2].
      inversion H2; subst. auto. }
    destruct Hl as [Hl Hlast].
    unfold MessageCode.ParsingCode, Nano.newInstance.
    pose proof (ParsingCode_run descriptor Hp Hnum
                  getPackedRepeatedFieldArrayLength
                  getRepeatedFieldArrayLength this l last [] 0 (2 ^ 31 - 1)
                  Hl Hlast) as P.
    rewrite !app_nil_r in P. rewrite P; [reflexivity| |lia|lia].
    apply (helper_counts descriptor Hp Hnum); [exact Hall|lia]. }
  split; [reflexivity|]. split; [|exact Hparse].
  destruct xs as [|x xs'] using rev_ind; [reflexivity|]. clear IHxs'.
  specialize (Hparse xs' x fresh eq_refl).
  pose proof (length_run_bytes descriptor Hp Hnum xs' x) as Lb.
  pose proof (tsz_pos descriptor).
  pose proof (length_nonneg (run_bytes descriptor xs' x)).
  assert (Hsmall : Java.length (xs' ++ [x]) < 2 ^ 31).
  { pose proof (tagged_length descriptor Hp Hnum _ Hall). lia. }
  specialize (Hparse Hsmall). cbn [fresh name_ app] in Hparse.
  unfold mergeFrom.
  rewrite (tagged_last descriptor) in *.
  unfold Nano.newInstance in *. cbn [mergeFrom_loop].
  rewrite (readTag_T descriptor Hp Hnum) by lia. cbn [bind].
  destruct (tag_is_int descriptor Hp Hnum) as [_ Hz].
  destruct (Z.eqb_spec (tag descriptor) 0); [contradiction|].
  fold (tag descriptor). rewrite Z.eqb_refl.
  unfold MessageCode.ParsingCode in *.
  assert (Hpos :
    RepeatedEnumFieldCode.ParsingCode descriptor
      getPackedRepeatedFieldArrayLength getRepeatedFieldArrayLength fresh
      {| Nano.buffer := run_bytes descriptor xs' x;
         Nano.bufferPos := 0 + tsz descriptor;
         Nano.currentLimit := 2 ^ 31 - 1 |}
    = Some (set_name fresh (xs' ++ [x]),
            {| Nano.buffer := [];
               Nano.bufferPos := 0 + tsz descriptor
                                 + Java.length (run_bytes descriptor xs' x);
               Nano.currentLimit := 2 ^ 31 - 1 |})).
  { assert (Hl : Forall Java.is_int xs' /\ Java.is_int x).
    { apply Forall_app in Hall. destruct Hall as [H1 H2].
      inversion H2; subst. auto. }
    destruct Hl as [Hl Hlast].
    rewrite length_app_Z in Hsmall. change (Java.length [x]) with 1 in Hsmall.
    pose proof (ParsingCode_run descriptor Hp Hnum
                  getPackedRepeatedFieldArrayLength
                  getRepeatedFieldArrayLength fresh xs' x []
                  (0 + tsz descriptor) (2 ^ 31 - 1) Hl Hlast) as P.
    rewrite !app_nil_r in P. cbn [fresh name_ app] in P.
    rewrite P; [reflexivity| | |].
    - apply (helper_counts descriptor Hp Hnum); [exact Hall|lia].
    - change (Java.length []) with 0. lia.
    - lia. }
  rewrite Hpos. cbn [bind].
  destruct (List.length (T descriptor ++ run_bytes descriptor xs' x))
    as [|fuel] eqn:Ef.
  { unfold Java.length in Lb. rewrite Ef in Lb. simpl in Lb. lia. }
  cbn [mergeFrom_loop]. rewrite readTag_end. cbn [bind].
  reflexivity.
Qed.

Lemma unpacked_round_trip_witness :
  SerializationCode (Demo.field false)
    {| name_ := [7; -3; 0]; nameMemoizedSerializedSize := 0 |} []
  = flat_map (fun element =>
                Nano.writeTag (field_number (Demo.field false))
                  Nano.WIRETYPE_VARINT
                ++ Nano.writeInt32NoTag element) [7; -3; 0] /\
  mergeFrom (Demo.field false) fresh
    (SerializationCode (Demo.field false)
       {| name_ := [7; -3; 0]; nameMemoizedSerializedSize := 0 |} [])
  = Some {| name_ := [7; -3; 0]; nameMemoizedSerializedSize := 0 |} /\
  (forall (l : list Z) (last : Z) (this : Message),
      [7; -3; 0] = l ++ [last] ->
      Java.length (name_ this) + Java.length [7; -3; 0] < 2 ^ 31 ->
      MessageCode.ParsingCode (Demo.field false) this
        (Nano.newInstance (run_bytes (Demo.field false) l last))
      = Some (set_name this (name_ this ++ [7; -3; 0]),
              {| Nano.buffer := [];
                 Nano.bufferPos :=
                   Java.length (run_bytes (Demo.field false) l last);
                 Nano.currentLimit := 2 ^ 31 - 1 |})).
Proof.
  apply (unpacked_round_trip (Demo.field false) [7; -3; 0]).
  - reflexivity.
  - simpl. lia.
  - repeat constructor; unfold Java.is_int; lia.
  - vm_compute. reflexivity.
Defined.

End UnpackedRoundTrip.

(** ** Unpacked fields: field numbers from 2^28 on *)

Module UnpackedHighNumber.

Import RepeatedEnumFieldCode MessageCode.

(** An unpacked repeated enum field with a number of 2^28 or more; the
    numbers of a field go up to 2^29 - 1. *)
Definition high_field (n : Z) : FieldDescriptor :=
  {| field_name := "color"; field_number := n; packed := false;
     default_number := 0; containing_type_name := "Msg" |}.

Definition high_generator (n : Z) : FieldGenerator :=
  new_generator (fun _ => "color"%string) (fun _ => "Color"%string)
    (fun _ _ => "Msg.RED"%string) (high_field n) Demo.params.

(** The text of the parsing fragment of the field. *)
Definition high_parsing (n : Z) : option string :=
  Demo.text (RepeatedEnumFieldGenerator.GenerateParsingCode
               (high_generator n)).

(** The bytes the serializer writes for a sequence. *)
Definition high_written (n : Z) (xs : list Z) : list Z :=
  SerializationCode (high_field n)
    {| name_ := xs; nameMemoizedSerializedSize := 0 |} [].

Definition high_reparsed (n : Z) (xs : list Z) : option (list Z) :=
  option_map name_ (mergeFrom (high_field n) fresh (high_written n xs)).

(** From 2^28 on the tag, an unsigned number of 32 bits, is no Java
    [int]: [SetEnumVariables] prints it as it is. *)
Lemma high_tag_is_no_int (descriptor : FieldDescriptor) :
  packed descriptor = false ->
  2 ^ 28 <= field_number descriptor < 2 ^ 29 ->
  WireFormat.MakeTag descriptor = field_number descriptor * 8 /\
  2 ^ 31 <= WireFormat.MakeTag descriptor < 2 ^ 32 /\
  ~ Java.is_int (WireFormat.MakeTag descriptor).
Proof.
  intros Hp Hn.
  assert (E : WireFormat.MakeTag descriptor = field_number descriptor * 8).
  { unfold WireFormat.MakeTag, WireFormat.WireTypeForField.
    rewrite Hp. unfold WireFormat.WIRETYPE_VARINT.
    rewrite Z.lor_0_r, Z.shiftl_mul_pow2 by lia.
    change (2 ^ 3) with 8. apply Z.mod_small. lia. }
  rewrite E. unfold Java.is_int. repeat split; lia.
Qed.

(** C8 on the sequence [7; -3; 0] of the unpacked field [color] with the
    number 2^28.  The serializer writes one tag and one varint per
    element, 27 bytes.  The tag printed into the parsing fragment is
    2147483648, which is no Java [int]: the fragment hands the lookahead
    helper a number that no [int] argument can be, the tag a reader gets
    from these bytes is -2147483648, and parsing the bytes gives no
    sequence.  With the number 2^28 - 1 the same sequence comes back. *)
Theorem unpacked_high_field_number_breaks_round_trip :
  Printer.find "tag" (variables_ (high_generator (2 ^ 28)))
  = Some "2147483648"%string /\
  FragmentTexts.has "getRepeatedFieldArrayLength(input, 2147483648);"
    (high_parsing (2 ^ 28)) = true /\
  ~ Java.is_int (WireFormat.MakeTag (high_field (2 ^ 28))) /\
  high_written (2 ^ 28) [7; -3; 0]
  = [128; 128; 128; 128; 8; 7;
     128; 128; 128; 128; 8; 253; 255; 255; 255; 255; 255; 255; 255; 255; 1;
     128; 128; 128; 128; 8; 0] /\
  option_map fst (Nano.readTag (Nano.newInstance
                                  (high_written (2 ^ 28) [7; -3; 0])))
  = Some (-2147483648) /\
  high_reparsed (2 ^ 28) [7; -3; 0] = None /\
  high_reparsed (2 ^ 29 - 1) [7; -3; 0] = None /\
  high_reparsed (2 ^ 28 - 1) [7; -3; 0] = Some [7; -3; 0].
Proof.
  split; [reflexivity|]. split; [reflexivity|]. split.
  { apply high_tag_is_no_int; [reflexivity|]. cbn [field_number high_field].
    lia. }
  repeat split; vm_compute; reflexivity.
Qed.

End UnpackedHighNumber.

(** ** The memoized size across calls *)

Module CacheFrame.

Import RepeatedEnumFieldCode.

(** The calls made on the messages of a store: the parsing, size and
    serialization fragments run on the message at a reference; the
    merging fragment runs in a scope that binds its identifiers. *)
Inductive call : Type :=
| Parse (r : nat) (input : Nano.CodedInputStreamNano)
| Merge (bindings : list (string * nat))
| Size (r : nat) (size : Z)
| Serialize (r : nat) (output : list Z).

Definition is_size_of (r : nat) (c : call) : bool :=
  match c with
  | Size r' _ => Nat.eqb r r'
  | _ => false
  end.

(** A message without its cache. *)
Definition erase (this : Message) : Message := set_memoized this 0.

Section Field.

Variable descriptor : FieldDescriptor.
Variable getPacked getUnpacked : Nano.CodedInputStreamNano -> Z -> option Z.

Definition step (c : call) (store : list Message) : option (list Message) :=
  match c with
  | Parse r input =>
      do this <- nth_error store r;
      do (this, _) <- ParsingCode descriptor getPacked getUnpacked this input;
      Some (update store r this)
  | Merge bindings =>
      do s <- MergingCode {| locals := bindings; objects := store |};
      Some (objects s)
  | Size r size =>
      do this <- nth_error store r;
      Some (update store r (fst (SerializedSizeCode descriptor this size)))
  | Serialize r output =>
      do this <- nth_error store r;
      let _ := SerializationCode descriptor this output in
      Some store
  end.

Fixpoint run (calls : list call) (store : list Message)
  : option (list Message) :=
  match calls with
  | [] => Some store
  | c :: calls' => do store <- step c store; run calls' store
  end.

Lemma run_app (a b : list call) (store : list Message) :
  run (a ++ b) store = do store <- run a store; run b store.
Proof.
  revert store. induction a as [|c a IH]; intros store; [reflexivity|].
  cbn [app run]. destruct (step c store); [apply IH|reflexivity].
Qed.

Lemma nth_update_same {A : Type} (l : list A) (r : nat) (x y : A) :
  nth_error l r = Some y -> nth_error (update l r x) r = Some x.
Proof.
  revert r. induction l as [|a l IH]; intros [|r] H; simpl in *;
    try discriminate; [reflexivity|]. apply IH. exact H.
Qed.

Lemma nth_update_other {A : Type} (l : list A) (r r' : nat) (x : A) :
  r <> r' -> nth_error (update l r x) r' = nth_error l r'.
Proof.
  revert r r'. induction l as [|a l IH]; intros [|r] [|r'] H; simpl;
    try reflexivity; try congruence. apply IH. congruence.
Qed.

Lemma update_map {A B : Type} (f : A -> B) (l : list A) (r : nat) (x : A) :
  update (map f l) r (f x) = map f (update l r x).
Proof.
  revert r. induction l as [|a l IH]; intros [|r]; simpl; try reflexivity.
  rewrite IH. reflexivity.
Qed.

(** Replacing an object by one with the same cache keeps every cache. *)
Lemma update_keeps_cache (store : list Message) (r r' : nat)
  (old new m : Message) :
  nth_error store r = Some old ->
  nameMemoizedSerializedSize new = nameMemoizedSerializedSize old ->
  nth_error store r' = Some m ->
  exists m', nth_error (update store r new) r' = Some m' /\
             nameMemoizedSerializedSize m' = nameMemoizedSerializedSize m.
Proof.
  intros Hold Hnew Hm. destruct (Nat.eq_dec r r') as [->|Hne].
  - exists new. split; [eapply nth_update_same; eassumption|]. congruence.
  - exists m. rewrite nth_update_other by exact Hne. auto.
Qed.

(** The parsing fragment does not write the cache ... *)
Lemma ParsingCode_keeps_cache (this this' : Message)
  (input input' : Nano.CodedInputStreamNano) :
  ParsingCode descriptor getPacked getUnpacked this input
  = Some (this', input') ->
  nameMemoizedSerializedSize this' = nameMemoizedSerializedSize this.
Proof.
  unfold ParsingCode. intros H.
  repeat match type of H with
         | (if ?c then _ else _) = _ => destruct c
         | bind ?x _ = _ =>
             destruct x as [?v|]; cbn [bind] in H; [|discriminate]
         | (let (_, _) := ?p in _) = _ => destruct p
         | (let '(_, _) := ?p in _) = _ => destruct p
         end;
    inversion H; reflexivity.
Qed.

(** ... nor read it. *)
Lemma ParsingCode_ignores_cache (this : Message)
  (input : Nano.CodedInputStreamNano) :
  ParsingCode descriptor getPacked getUnpacked (erase this) input
  = option_map (fun p => (erase (fst p), snd p))
      (ParsingCode descriptor getPacked getUnpacked this input).
Proof.
  unfold ParsingCode. cbn [erase set_memoized name_].
  repeat match goal with
         | |- context [if ?c then _ else _] => destruct c
         | |- context [bind ?x _] =>
             destruct x as [?v|]; cbn [bind option_map]; [|reflexivity]
         | |- context [let (_, _) := ?p in _] => destruct p
         end;
    reflexivity.
Qed.

Lemma assign_name_keeps_cache (s s' : Scope) (x : string) (a : list Z)
  (r : nat) (m : Message) :
  assign_name s x a = Some s' ->
  nth_error (objects s) r = Some m ->
  exists m', nth_error (objects s') r = Some m' /\
             nameMemoizedSerializedSize m' = nameMemoizedSerializedSize m.
Proof.
  unfold assign_name. intros H Hm.
  destruct (lookup x (locals s)) as [r0|]; [|discriminate]. cbn [bind] in H.
  destruct (nth_error (objects s) r0) as [m0|] eqn:E0; [|discriminate].
  cbn [bind] in H. inversion H; subst. cbn [objects].
  eapply update_keeps_cache; try eassumption. reflexivity.
Qed.

(** The merging fragment does not write the cache ... *)
Lemma MergingCode_keeps_cache (s s' : Scope) (r : nat) (m : Message) :
  MergingCode s = Some s' ->
  nth_error (objects s) r = Some m ->
  exists m', nth_error (objects s') r = Some m' /\
             nameMemoizedSerializedSize m' = nameMemoizedSerializedSize m.
Proof.
  unfold MergingCode. intros H Hm.
  destruct (deref s "other") as [other|]; [|discriminate]. cbn [bind] in H.
  destruct (0 <? Java.length (name_ other)).
  - destruct (deref s "result") as [result|]; [|discriminate].
    cbn [bind] in H.
    destruct (Java.copyOf _ _) as [merged|]; [|discriminate].
    cbn [bind] in H.
    destruct (deref s "results") as [results|]; [|discriminate].
    cbn [bind] in H.
    destruct (Java.arraycopy _ _ _ _ _) as [merged'|]; [|discriminate].
    cbn [bind] in H.
    eapply assign_name_keeps_cache; eassumption.
  - inversion H; subst. exists m. auto.
Qed.

Definition erase_scope (s : Scope) : Scope :=
  {| locals := locals s; objects := map erase (objects s) |}.

Lemma deref_erase (s : Scope) (x : string) :
  deref (erase_scope s) x = option_map erase (deref s x).
Proof.
  unfold deref, erase_scope. cbn [locals objects].
  destruct (lookup x (locals s)) as [r|]; [|reflexivity]. cbn [bind].
  rewrite nth_error_map. reflexivity.
Qed.

(** ... nor read it. *)
Lemma MergingCode_ignores_cache (s : Scope) :
  MergingCode (erase_scope s) = option_map erase_scope (MergingCode s).
Proof.
  unfold MergingCode. rewrite !deref_erase.
  destruct (deref s "other") as [other|]; [|reflexivity].
  cbn [option_map bind erase set_memoized name_].
  destruct (0 <? Java.length (name_ other)); [|reflexivity].
  destruct (deref s "result") as [result|]; [|reflexivity].
  cbn [option_map bind erase set_memoized name_].
  destruct (Java.copyOf _ _) as [merged|]; [|reflexivity].
  cbn [bind].
  destruct (deref s "results") as [results|]; [|reflexivity].
  cbn [option_map bind erase set_memoized name_].
  destruct (Java.arraycopy _ _ _ _ _) as [merged'|]; [|reflexivity].
  cbn [bind]. unfold assign_name, erase_scope. cbn [locals objects].
  destruct (lookup "result" (locals s)) as [r|]; [|reflexivity].
  cbn [bind]. rewrite nth_error_map.
  destruct (nth_error (objects s) r) as [m|]; [|reflexivity].
  cbn [option_map bind locals objects]. f_equal. f_equal.
  rewrite <- update_map. reflexivity.
Qed.

(** Any call that is not the size fragment on [r] keeps the cache of
    the message at [r]. *)
Lemma step_keeps_cache (c : call) (store store' : list Message) (r : nat)
  (m : Message) :
  is_size_of r c = false ->
  step c store = Some store' ->
  nth_error store r = Some m ->
  exists m', nth_error store' r = Some m' /\
             nameMemoizedSerializedSize m' = nameMemoizedSerializedSize m.
Proof.
  intros Hc H Hm. destruct c as [r0 input|bindings|r0 size|r0 output];
    cbn [step] in H.
  - destruct (nth_error store r0) as [this|] eqn:E0; [|discriminate].
    cbn [bind] in H.
    destruct (ParsingCode _ _ _ this input) as [[this' input']|] eqn:Ep;
      [|discriminate].
    cbn [bind] in H. inversion H; subst.
    eapply update_keeps_cache; try eassumption.
    eapply ParsingCode_keeps_cache; eassumption.
  - destruct (MergingCode _) as [s|] eqn:Es; [|discriminate].
    cbn [bind] in H. inversion H; subst.
    eapply (MergingCode_keeps_cache _ _ _ _ Es). exact Hm.
  - destruct (nth_error store r0) as [this|] eqn:E0; [|discriminate].
    cbn [bind] in H. inversion H; subst.
    cbn [is_size_of] in Hc. apply Nat.eqb_neq in Hc.
    exists m. rewrite nth_update_other by congruence. auto.
  - destruct (nth_error store r0) as [this|]; [|discriminate].
    cbn [bind] in H. inversion H; subst. exists m. auto.
Qed.

Lemma run_keeps_cache (calls : list call) :
  forall (store store' : list Message) (r : nat) (m : Message),
    forallb (fun c => negb (is_size_of r c)) calls = true ->
    run calls store = Some store' ->
    nth_error store r = Some m ->
    exists m', nth_error store' r = Some m' /\
               nameMemoizedSerializedSize m' = nameMemoizedSerializedSize m.
Proof.
  induction calls as [|c calls IH]; intros store store' r m Hall H Hm.
  - inversion H; subst. exists m. auto.
  - cbn [forallb] in Hall. apply andb_true_iff in Hall.
    destruct Hall as [Hc Hall]. apply negb_true_iff in Hc.
    cbn [run] in H. destruct (step c store) as [store1|] eqn:Es;
      [|discriminate].
    cbn [bind] in H.
    destruct (step_keeps_cache _ _ _ _ _ Hc Es Hm) as (m1 & Hm1 & E1).
    destruct (IH _ _ _ _ Hall H Hm1) as (m' & Hm' & E').
    exists m'. split; [exact Hm'|congruence].
Qed.

End Field.

(** C10.  For a packed field the memoized size is written by the size
    fragment alone: after a size call on a message, followed by any calls
    of the parsing, merging and serialization fragments (and size calls on
    other messages), the cache of the message is the payload size that
    was computed from the sequence it held at that size call, and zero
    when that sequence was empty.  The parsing and merging fragments do
    not read the cache either: they commute with erasing it; and the
    serializer changes no message. *)
Theorem cache_is_payload_at_last_size
  (descriptor : FieldDescriptor)
  (getPacked getUnpacked : Nano.CodedInputStreamNano -> Z -> option Z)
  (before after : list call) (r : nat) (size : Z)
  (store store' : list Message) :
  packed descriptor = true ->
  forallb (fun c => negb (is_size_of r c)) after = true ->
  run descriptor getPacked getUnpacked (before ++ Size r size :: after) store
  = Some store' ->
  (exists store1 m1 m,
      run descriptor getPacked getUnpacked before store = Some store1 /\
      nth_error store1 r = Some m1 /\
      nth_error store' r = Some m /\
      nameMemoizedSerializedSize m = dataSize (name_ m1) /\
      (name_ m1 = [] -> nameMemoizedSerializedSize m = 0)) /\
  (forall this input,
      ParsingCode descriptor getPacked getUnpacked (erase this) input
      = option_map (fun p => (erase (fst p), snd p))
          (ParsingCode descriptor getPacked getUnpacked this input)) /\
  (forall s, MergingCode (erase_scope s)
             = option_map erase_scope (MergingCode s)) /\
  (forall r' output objects this,
      nth_error objects r' = Some this ->
      step descriptor getPacked getUnpacked (Serialize r' output) objects
      = Some objects).
Proof.
  intros Hp Hafter Hrun. split; [|split; [|split]].
  - rewrite run_app in Hrun.
    destruct (run descriptor getPacked getUnpacked before store)
      as [store1|] eqn:E1; [|discriminate].
    cbn [bind run step] in Hrun.
    destruct (nth_error store1 r) as [m1|] eqn:Em1; [|discriminate].
    cbn [bind] in Hrun.
    set (m2 := fst (SerializedSizeCode descriptor m1 size)) in *.
    assert (Hm2 : nth_error (update store1 r m2) r = Some m2)
      by (eapply nth_update_same; eassumption).
    destruct (run_keeps_cache descriptor getPacked getUnpacked after
                _ _ r m2 Hafter Hrun Hm2) as (m & Hm & Ecache).
    exists store1, m1, m. split; [reflexivity|]. split; [exact Em1|].
    split; [exact Hm|].
    assert (E2 : nameMemoizedSerializedSize m2 = dataSize (name_ m1)).
    { unfold m2, SerializedSizeCode. rewrite Hp.
      destruct (name_ m1) as [|e l] eqn:En.
      - reflexivity.
      - replace (0 <? Java.length (e :: l)) with true; [reflexivity|].
        symmetry. apply Z.ltb_lt. unfold Java.length. simpl List.length. lia. }
    split; [congruence|].
    intros En. rewrite Ecache, E2, En. reflexivity.
  - apply ParsingCode_ignores_cache.
  - apply MergingCode_ignores_cache.
  - intros r' output objects this H. cbn [step]. rewrite H. reflexivity.
Qed.

Definition demo_store : list Message :=
  [ {| name_ := []; nameMemoizedSerializedSize := 99 |};
    {| name_ := [1; 2]; nameMemoizedSerializedSize := 0 |} ].

Definition demo_before : list call := [Parse 0 PackedParsing.demo_input].

Definition demo_after : list call :=
  [ Merge [("other"%string, 1%nat); ("result"%string, 0%nat);
           ("results"%string, 0%nat)];
    Serialize 0 [];
    Size 1 0;
    Parse 0 PackedParsing.demo_input ].

Definition demo_final : list Message :=
  [ {| name_ := [7; 1; 0]; nameMemoizedSerializedSize := 3 |};
    {| name_ := [1; 2]; nameMemoizedSerializedSize := 2 |} ].

Lemma cache_is_payload_at_last_size_witness :
  (exists store1 m1 m,
      run (Demo.field true) MessageCode.getPackedRepeatedFieldArrayLength
        MessageCode.getRepeatedFieldArrayLength demo_before demo_store
      = Some store1 /\
      nth_error store1 0 = Some m1 /\
      nth_error demo_final 0 = Some m /\
      nameMemoizedSerializedSize m = dataSize (name_ m1) /\
      (name_ m1 = [] -> nameMemoizedSerializedSize m = 0)) /\
  (forall this input,
      ParsingCode (Demo.field true)
        MessageCode.getPackedRepeatedFieldArrayLength
        MessageCode.getRepeatedFieldArrayLength (erase this) input
      = option_map (fun p => (erase (fst p), snd p))
          (ParsingCode (Demo.field true)
             MessageCode.getPackedRepeatedFieldArrayLength
             MessageCode.getRepeatedFieldArrayLength this input)) /\
  (forall s, MergingCode (erase_scope s)
             = option_map erase_scope (MergingCode s)) /\
  (forall r' output objects this,
      nth_error objects r' = Some this ->
      step (Demo.field true) MessageCode.getPackedRepeatedFieldArrayLength
        MessageCode.getRepeatedFieldArrayLength (Serialize r' output) objects
      = Some objects).
Proof.
  apply (cache_is_payload_at_last_size (Demo.field true)
           MessageCode.getPackedRepeatedFieldArrayLength
           MessageCode.getRepeatedFieldArrayLength
           demo_before demo_after 0%nat 5 demo_store demo_final);
    reflexivity.
Defined.

End CacheFrame.

(** ** Merging *)

Module MergeClaims.

Import RepeatedEnumFieldCode.

(** The text of the guarded copy of a singular field. *)
Definition guarded_copy (capitalized_name : string) : string :=
  ("if (other.has" ++ capitalized_name ++ "()) {" ++ Str.NL ++
   "  set" ++ capitalized_name ++ "(other.get" ++ capitalized_name ++ "());"
   ++ Str.NL ++
   "}" ++ Str.NL)%string.

(** Whatever the field, the merging text of a singular field is the
    guarded copy behind the words [what is other??]. *)
Lemma singular_merge_text (g : FieldGenerator) (capitalized_name : string)
  (o ind : string) :
  Printer.find "capitalized_name" (variables_ g) = Some capitalized_name ->
  EnumFieldGenerator.GenerateMergingCode g (Printer.mk o ind true)
  = Some (Printer.mk
            (o ++ ind ++ "what is other??if (other.has" ++ capitalized_name
               ++ "()) {" ++ Str.NL ++
             ind ++ "  set" ++ capitalized_name ++ "(other.get"
               ++ capitalized_name ++ "());" ++ Str.NL ++
             ind ++ "}" ++ Str.NL)%string
            ind true).
Proof.
  intros H. unfold EnumFieldGenerator.GenerateMergingCode, Printer.Print.
  cbn. rewrite H. unfold Printer.line_done, Printer.WriteRaw; cbn.
  unfold Str.NL. repeat rewrite Str.app_assoc. cbn.
  repeat rewrite Str.app_assoc. reflexivity.
Qed.

(** C6 on the field [color]: the merging text starts with words that are
    no part of a guarded copy. *)
Theorem singular_merge_prints_stray_words :
  Demo.text (EnumFieldGenerator.GenerateMergingCode (Demo.generator false))
  = Some ("what is other??" ++ guarded_copy "Color")%string /\
  Demo.text (EnumFieldGenerator.GenerateMergingCode (Demo.generator false))
  <> Some (guarded_copy "Color") /\
  Str.prefix "what is other??"
    (match Demo.text (EnumFieldGenerator.GenerateMergingCode
                        (Demo.generator false)) with
     | Some text => text
     | None => ""%string
     end) = true.
Proof.
  split; [reflexivity|]. split; [|reflexivity].
  vm_compute. discriminate.
Qed.

Definition demo_source : Message :=
  {| name_ := [1; 2]; nameMemoizedSerializedSize := 0 |}.
Definition demo_destination : Message :=
  {| name_ := [3]; nameMemoizedSerializedSize := 0 |}.

(** The scope of a merge: the source is [other], the destination is
    [result]. *)
Definition merge_scope (source destination : Message) : Scope :=
  {| locals := [("other"%string, 0%nat); ("result"%string, 1%nat)];
     objects := [source; destination] |}.

(** The same with [results] as one more name of the destination. *)
Definition merge_scope_results (source destination : Message) : Scope :=
  {| locals := [("other"%string, 0%nat); ("result"%string, 1%nat);
                ("results"%string, 1%nat)];
     objects := [source; destination] |}.

Lemma copyOf_grow (a : list Z) (n : nat) :
  Java.copyOf a (Java.length a + Z.of_nat n) = Some (a ++ repeat 0 n).
Proof.
  unfold Java.copyOf, Java.length.
  destruct (Z.ltb_spec (Z.of_nat (List.length a) + Z.of_nat n) 0); [lia|].
  rewrite firstn_all2 by lia. do 3 f_equal. lia.
Qed.

Lemma arraycopy_tail (src a : list Z) :
  Java.arraycopy src 0 (a ++ repeat 0 (List.length src)) (Java.length a)
    (Java.length src)
  = Some (a ++ src).
Proof.
  unfold Java.arraycopy, Java.length.
  rewrite length_app, repeat_length.
  destruct (Z.ltb_spec 0 0); [lia|].
  destruct (Z.ltb_spec (Z.of_nat (List.length a)) 0); [lia|].
  destruct (Z.ltb_spec (Z.of_nat (List.length src)) 0); [lia|].
  destruct (Z.ltb_spec (Z.of_nat (List.length src))
                       (0 + Z.of_nat (List.length src))); [lia|].
  destruct (Z.ltb_spec (Z.of_nat (List.length a + List.length src))
                       (Z.of_nat (List.length a)
                        + Z.of_nat (List.length src))); [lia|].
  cbn [orb]. rewrite !Nat2Z.id. cbn [Z.to_nat skipn].
  rewrite firstn_app, firstn_all, Nat.sub_diag. cbn [firstn].
  rewrite app_nil_r, firstn_all.
  rewrite skipn_all2.
  - rewrite app_nil_r. reflexivity.
  - rewrite length_app, repeat_length. lia.
Qed.

(** With [results] bound to the destination the fragment appends the
    source behind what the destination holds. *)
Lemma MergingCode_appends (source destination : Message) :
  Java.length (name_ destination) + Java.length (name_ source) < 2 ^ 31 ->
  MergingCode (merge_scope_results source destination)
  = Some (merge_scope_results source
            (set_name destination (name_ destination ++ name_ source))).
Proof.
  intros Hlen. unfold MergingCode, deref, merge_scope_results.
  cbn [locals objects lookup String.eqb Ascii.eqb Bool.eqb bind nth_error].
  destruct (name_ source) as [|e l] eqn:Es.
  - cbn. rewrite app_nil_r. destruct destination; reflexivity.
  - replace (0 <? Java.length (e :: l)) with true
      by (symmetry; apply Z.ltb_lt; unfold Java.length; simpl List.length; lia).
    unfold Java.add. rewrite Java.wrap_int.
    + unfold Java.length at 2. rewrite copyOf_grow. cbn [bind].
      rewrite arraycopy_tail. cbn [bind].
      unfold assign_name.
      cbn [locals objects lookup String.eqb Ascii.eqb Bool.eqb bind
           nth_error update].
      reflexivity.
    + unfold Java.is_int, Java.length in *. lia.
Qed.

(** In the scope of a merge the fragment has no result as soon as the
    source is not empty: [results] names nothing. *)
Lemma MergingCode_unbound (source destination : Message) :
  name_ source <> [] ->
  MergingCode (merge_scope source destination) = None.
Proof.
  intros Hne. unfold MergingCode, deref, merge_scope.
  cbn [locals objects lookup String.eqb Ascii.eqb Bool.eqb bind nth_error].
  destruct (name_ source) as [|e l]; [contradiction|].
  replace (0 <? Java.length (e :: l)) with true
    by (symmetry; apply Z.ltb_lt; unfold Java.length; simpl List.length; lia).
  destruct (Java.copyOf _ _); reflexivity.
Qed.

(** C5 on source [1, 2] and destination [3]: the fragment takes the
    offset of the copy from [results], which the merge does not bind; the
    text says [results] where every other line says [result].  Bound to
    the destination, the fragment yields [3, 1, 2]; an empty source
    leaves the destination alone either way. *)
Theorem repeated_merge_names_unbound_results :
  MergingCode (merge_scope demo_source demo_destination) = None /\
  (match Demo.text (RepeatedEnumFieldGenerator.GenerateMergingCode
                      (Demo.generator false)) with
   | Some text =>
       Str.infix "merged, results.color.length, other.color.length" text
       && Str.infix "copyOf(result.color, result.color.length" text
       && Str.infix "result.color = merged" text
   | None => false
   end = true) /\
  MergingCode (merge_scope_results demo_source demo_destination)
  = Some (merge_scope_results demo_source
            {| name_ := [3; 1; 2]; nameMemoizedSerializedSize := 0 |}) /\
  MergingCode (merge_scope {| name_ := []; nameMemoizedSerializedSize := 0 |}
                 demo_destination)
  = Some (merge_scope {| name_ := []; nameMemoizedSerializedSize := 0 |}
            demo_destination).
Proof. repeat split; vm_compute; reflexivity. Qed.

End MergeClaims.

(** ** Packed fields: size and serialization *)

Module PackedSizeClaims.

Import RepeatedEnumFieldCode MessageCode Examples PackedParsing.

Section Packed.

Variable descriptor : FieldDescriptor.
Hypothesis is_packed : packed descriptor = true.
Hypothesis number_range : 0 < field_number descriptor < 2 ^ 28.

Definition tag : Z := WireFormat.MakeTag descriptor.

Lemma lor_2 (n : Z) : 0 <= n -> Z.lor (Z.shiftl n 3) 2 = n * 8 + 2.
Proof.
  intros Hn.
  assert (L : Z.land (Z.shiftl n 3) 2 = 0).
  { apply Z.bits_inj'. intros i Hi. rewrite Z.land_spec, Z.bits_0.
    destruct (Z.lt_ge_cases i 3) as [Hlt|Hge].
    - rewrite Z.shiftl_spec_low by exact Hlt. reflexivity.
    - rewrite (Z.bits_above_log2 2 i) by (change (Z.log2 2) with 1; lia).
      apply andb_false_r. }
  pose proof (Z.add_lor_land (Z.shiftl n 3) 2) as A.
  rewrite L, Z.shiftl_mul_pow2 in A by lia. change (2 ^ 3) with 8 in A.
  rewrite Z.shiftl_mul_pow2 by lia. change (2 ^ 3) with 8. lia.
Qed.

Lemma packed_tag_value : tag = field_number descriptor * 8 + 2.
Proof.
  unfold tag, WireFormat.MakeTag, WireFormat.WireTypeForField.
  rewrite is_packed. unfold WireFormat.WIRETYPE_LENGTH_DELIMITED.
  rewrite lor_2 by lia. apply Z.mod_small. lia.
Qed.

(** The size the generator prints for the tag is the number of bytes the
    serializer writes for it. *)
Lemma packed_tag_size :
  WireFormat.TagSize (field_number descriptor)
  = Nano.computeRawVarint32Size tag.
Proof.
  rewrite packed_tag_value.
  unfold WireFormat.TagSize, WireFormat.VarintSize32,
    Nano.computeRawVarint32Size, Java.unsigned32.
  rewrite Z.shiftl_mul_pow2 by lia. change (2 ^ 3) with 8.
  rewrite !Z.mod_small by lia.
  repeat match goal with
         | |- context [?a <? ?b] => destruct (Z.ltb_spec a b)
         end; try reflexivity; lia.
Qed.

(** The payload of a sequence the way the serializer writes it, and its
    length. *)
Definition payload (xs : list Z) : list Z :=
  flat_map Nano.writeRawVarint32 xs.

Lemma serialization_bytes (this : Message) (output : list Z) :
  name_ this <> [] ->
  SerializationCode descriptor this output
  = output ++ Nano.writeRawVarint32 tag
           ++ Nano.writeRawVarint32 (nameMemoizedSerializedSize this)
           ++ payload (name_ this).
Proof.
  intros Hne. unfold SerializationCode. rewrite is_packed.
  assert (F : forall xs out,
             fold_left (fun output element =>
                          output ++ Nano.writeRawVarint32 element) xs out
             = out ++ payload xs).
  { induction xs as [|e xs IH]; intros out; simpl.
    - rewrite app_nil_r. reflexivity.
    - rewrite IH, <- app_assoc. reflexivity. }
  destruct (name_ this) as [|e xs]; [contradiction|].
  replace (0 <? Java.length (e :: xs)) with true
    by (symmetry; apply Z.ltb_lt; unfold Java.length; simpl List.length; lia).
  rewrite F, <- !app_assoc. reflexivity.
Qed.

Definition natural (e : Z) : Prop := 0 <= e < 2 ^ 31.

Lemma natural_size (e : Z) :
  natural e -> Nano.computeInt32SizeNoTag e = Nano.computeRawVarint32Size e.
Proof.
  unfold natural, Nano.computeInt32SizeNoTag. intros H.
  destruct (Z.leb_spec 0 e); [reflexivity|lia].
Qed.


(** In general the sum of the size fragment exceeds the payload the
    serializer writes by five bytes for every negative element: such an
    element is sized at ten bytes and written in five. *)
Definition negatives (xs : list Z) : Z :=
  Java.length (filter (fun e => e <? 0) xs).

Lemma negative_sizes (e : Z) :
  Java.is_int e -> e < 0 ->
  Nano.computeInt32SizeNoTag e = 10 /\ Nano.computeRawVarint32Size e = 5.
Proof.
  unfold Java.is_int, Nano.computeInt32SizeNoTag, Nano.computeRawVarint32Size,
    Java.unsigned32.
  intros Hi Hn. destruct (Z.leb_spec 0 e); [lia|]. split; [reflexivity|].
  assert (2 ^ 31 <= e mod 2 ^ 32 < 2 ^ 32) by dlia.
  repeat match goal with
         | |- context [?a <? ?b] => destruct (Z.ltb_spec a b)
         end; try reflexivity; lia.
Qed.

Lemma dataSize_excess (xs : list Z) :
  Forall Java.is_int xs -> 10 * Java.length xs < 2 ^ 31 ->
  dataSize xs = Java.length (payload xs) + 5 * negatives xs.
Proof.
  intros Hall Hlen. unfold dataSize.
  assert (F : forall acc,
             0 <= acc -> acc + 10 * Java.length xs < 2 ^ 31 ->
             fold_left (fun dataSize element =>
                          Java.add dataSize
                            (Nano.computeInt32SizeNoTag element)) xs acc
             = acc + Java.length (payload xs) + 5 * negatives xs).
  { clear Hlen. induction Hall as [|e xs He _ IH]; intros acc Hacc Hlen.
    - cbn. change (Java.length []) with 0. lia.
    - cbn [fold_left payload flat_map].
      pose proof (NanoFacts.computeInt32SizeNoTag_bounds e) as B.
      pose proof (UnpackedRoundTrip.length_nonneg xs) as Hx.
      assert (El : Java.length (e :: xs) = 1 + Java.length xs)
        by (unfold Java.length; simpl List.length; lia).
      rewrite El in *.
      unfold Java.add at 2.
      rewrite Java.wrap_int by (unfold Java.is_int; lia).
      rewrite IH by lia.
      rewrite UnpackedRoundTrip.length_app_Z.
      rewrite NanoFacts.length_writeRawVarint32. fold (payload xs).
      unfold negatives. cbn [filter].
      destruct (Z.ltb_spec e 0) as [Hneg|Hpos].
      + destruct (negative_sizes e He Hneg) as [-> ->].
        unfold Java.length. simpl List.length. lia.
      + rewrite natural_size by (unfold natural, Java.is_int in *; lia). lia. }
  rewrite F by lia. lia.
Qed.

(** So the size fragment announces five bytes more than the serializer
    writes for every negative element of the sequence. *)
Lemma packed_size_excess (xs : list Z) (cache : Z) :
  xs <> [] -> Forall Java.is_int xs -> Java.length xs < 2 ^ 26 ->
  snd (SerializedSizeCode descriptor
         {| name_ := xs; nameMemoizedSerializedSize := cache |} 0)
  = Java.length
      (SerializationCode descriptor
         (fst (SerializedSizeCode descriptor
                 {| name_ := xs; nameMemoizedSerializedSize := cache |} 0))
         [])
    + 5 * negatives xs.
Proof.
  intros Hne Hall Hlen.
  pose proof (UnpackedRoundTrip.length_nonneg xs) as Hx.
  pose proof (dataSize_excess xs Hall) as Ed.
  pose proof (UnpackedRoundTrip.length_nonneg (payload xs)) as Hp.
  assert (Hneg : 0 <= negatives xs <= Java.length xs).
  { unfold negatives, Java.length.
    pose proof (filter_length_le (fun e => e <? 0) xs). lia. }
  assert (Hpl : Java.length (payload xs) <= 5 * Java.length xs).
  { clear - Hall. induction Hall as [|e xs He _ IH].
    - cbn. lia.
    - cbn [payload flat_map]. fold (payload xs).
      rewrite UnpackedRoundTrip.length_app_Z.
      rewrite NanoFacts.length_writeRawVarint32.
      pose proof (NanoFacts.computeRawVarint32Size_bounds e).
      unfold Java.length in *. simpl List.length. lia. }
  pose proof (NanoFacts.computeRawVarint32Size_bounds tag) as Bt.
  pose proof (NanoFacts.computeRawVarint32Size_bounds (dataSize xs)) as Bl.
  unfold SerializedSizeCode. cbn [name_]. rewrite is_packed.
  destruct xs as [|e xs'] eqn:Exs; [contradiction|]. rewrite <- Exs in *.
  replace (0 <? Java.length xs) with true
    by (symmetry; apply Z.ltb_lt; subst xs; unfold Java.length;
        simpl List.length; lia).
  cbn [fst snd].
  rewrite serialization_bytes
    by (unfold set_memoized; cbn [name_]; subst xs; discriminate).
  unfold set_memoized. cbn [name_ nameMemoizedSerializedSize app].
  rewrite !UnpackedRoundTrip.length_app_Z.
  rewrite !NanoFacts.length_writeRawVarint32, packed_tag_size.
  unfold Java.add.
  rewrite (Java.wrap_int (0 + _)) by (unfold Java.is_int; lia).
  rewrite (Java.wrap_int (0 + _ + _)) by (unfold Java.is_int; lia).
  rewrite Java.wrap_int by (unfold Java.is_int; lia).
  lia.
Qed.




End Packed.

(** C1 on the sequence [-1] of the packed field [color = 3]: the size
    fragment counts ten bytes of payload and twelve in all, the
    serializer writes five bytes of payload behind a length prefix of
    ten, seven in all.  Parsing these bytes fails, the span being longer
    than the input; with a second occurrence of the field behind them the
    span swallows its tag and length as elements. *)
Theorem packed_negative_element_breaks_size :
  sized true [-1]
  = ({| name_ := [-1]; nameMemoizedSerializedSize := 10 |}, 12) /\
  written true [-1] = [26; 10; 255; 255; 255; 255; 15] /\
  Java.length (written true [-1]) = 7 /\
  Java.length (written true [-1]) <> snd (sized true [-1]) /\
  reparsed true [-1] = None /\
  option_map name_
    (mergeFrom (Demo.field true) fresh
       (written true [-1] ++ written true [5; 6; 7]))
  = Some [-1; 26; 3; 5; 6; 7] /\
  reparsed true [7; 3; 0] = Some [7; 3; 0].
Proof. repeat split; vm_compute; try reflexivity; discriminate. Qed.

End PackedSizeClaims.

(** * Further properties of the generators *)

(** ** The enum definition emitter *)

Module EnumExtras.

Import EnumGenerator EnumFacts EnumText EnumClaims.

Section AnyLookup.

Variable find_by_number : EnumDescriptor -> Z -> option EnumValueDescriptor.
Variable d : EnumDescriptor.

Lemma classified_lengths (l : list nat) :
  Forall (fun i => (i < value_count d)%nat) l ->
  (List.length (flat_map (canonical_at find_by_number d) l)
   + List.length (flat_map (alias_at find_by_number d) l))%nat
  = List.length l.
Proof.
  induction 1 as [|i l Hi _ IH]; [reflexivity|].
  cbn [flat_map]. rewrite !length_app.
  assert (E : (List.length (canonical_at find_by_number d i)
               + List.length (alias_at find_by_number d i))%nat = 1%nat).
  { unfold canonical_at, alias_at, value.
    destruct (nth_error (decls d) i) as [[n k]|] eqn:En.
    - destruct (is_canonical _ _ _); reflexivity.
    - apply nth_error_None in En. unfold value_count in Hi. lia. }
  simpl List.length. lia.
Qed.

Lemma classified_sorted (f : nat -> list EnumValueDescriptor) :
  (forall i v, In v (f i) -> index v = i) ->
  (forall i, (List.length (f i) <= 1)%nat) ->
  forall n s,
    StronglySorted lt (map index (flat_map f (seq s n))) /\
    Forall (fun j => (s <= j)%nat) (map index (flat_map f (seq s n))).
Proof.
  intros Hidx Hone. induction n as [|n IH]; intros s.
  - split; constructor.
  - cbn [seq flat_map]. destruct (IH (S s)) as [Hs Hb].
    assert (Hb' : Forall (fun j => (s < j)%nat)
                    (map index (flat_map f (seq (S s) n)))).
    { eapply Forall_impl; [|exact Hb]. intros j Hj. exact Hj. }
    rewrite map_app.
    destruct (f s) as [|v [|w r]] eqn:Ef.
    + split; [exact Hs|]. eapply Forall_impl; [|exact Hb].
      intros j Hj; simpl in *; lia.
    + assert (Ev : index v = s) by (apply Hidx; rewrite Ef; left; reflexivity).
      cbn [map app]. rewrite Ev. split.
      * constructor; assumption.
      * constructor; [lia|]. eapply Forall_impl; [|exact Hb].
        intros j Hj; simpl in *; lia.
    + specialize (Hone s). rewrite Ef in Hone. simpl in Hone. lia.
Qed.

End AnyLookup.

(** X1.  Whatever the lookup by number answers, the constructor puts
    every declared value in exactly one of its two lists: the lengths of
    the canonical values and of the aliases add up to the number of
    declared values, and no value is both canonical and the value of an
    alias. *)
Theorem constructor_partitions_values
  (find_by_number : EnumDescriptor -> Z -> option EnumValueDescriptor)
  (d : EnumDescriptor) :
  (List.length (canonical_values_ (new find_by_number d))
   + List.length (aliases_ (new find_by_number d)))%nat
  = value_count d /\
  (forall i v, value d i = Some v ->
     In v (canonical_values_ (new find_by_number d)) \/
     exists a, In a (aliases_ (new find_by_number d)) /\ value_ a = v) /\
  (forall a, In a (aliases_ (new find_by_number d)) ->
     ~ In (value_ a) (canonical_values_ (new find_by_number d))).
Proof.
  split; [|split].
  - rewrite new_canonical_values, new_aliases, classified_lengths.
    + apply length_seq.
    + apply Forall_forall. intros i Hi. apply in_seq in Hi. lia.
  - intros i v Hv. pose proof (value_self _ _ _ Hv) as Hs.
    destruct (is_canonical find_by_number d v) eqn:Ec.
    + left. apply in_canonical_values. auto.
    + right. exists {| value_ := v;
                       canonical_value := find_by_number d (number v) |}.
      split; [|reflexivity]. apply in_aliases. simpl. auto.
  - intros a Ha Hc. apply in_aliases in Ha. destruct Ha as (_ & Hn & _).
    apply in_canonical_values in Hc. destruct Hc as [_ Hc]. congruence.
Qed.

Lemma canonical_indices_sorted
  (find_by_number : EnumDescriptor -> Z -> option EnumValueDescriptor)
  (d : EnumDescriptor) :
  StronglySorted lt
    (map index (canonical_values_ (new find_by_number d))).
Proof.
  rewrite new_canonical_values.
  apply (classified_sorted (canonical_at find_by_number d)).
  - intros i v Hin. unfold canonical_at in Hin.
    destruct (value d i) as [w|] eqn:Ew; [|contradiction].
    destruct (is_canonical _ _ w); [|contradiction].
    destruct Hin as [<-|[]]. apply (value_index _ _ _ Ew).
  - intros i. unfold canonical_at. destruct (value d i) as [w|]; [|simpl; lia].
    destruct (is_canonical _ _ w); simpl; lia.
Qed.

Lemma alias_indices_sorted
  (find_by_number : EnumDescriptor -> Z -> option EnumValueDescriptor)
  (d : EnumDescriptor) :
  StronglySorted lt
    (map index (map value_ (aliases_ (new find_by_number d)))).
Proof.
  rewrite new_aliases.
  assert (E : forall l,
             map value_ (flat_map (alias_at find_by_number d) l)
             = flat_map (fun i => map value_ (alias_at find_by_number d i)) l).
  { induction l as [|i l IH]; [reflexivity|].
    cbn [flat_map]. rewrite map_app, IH. reflexivity. }
  rewrite E.
  apply (classified_sorted
           (fun i => map value_ (alias_at find_by_number d i))).
  - intros i v Hin. unfold alias_at in Hin.
    destruct (value d i) as [w|] eqn:Ew; [|contradiction].
    destruct (is_canonical _ _ w); [contradiction|].
    destruct Hin as [<-|[]]. apply (value_index _ _ _ Ew).
  - intros i. unfold alias_at. destruct (value d i) as [w|]; [|simpl; lia].
    destruct (is_canonical _ _ w); simpl; lia.
Qed.

(** X2.  Both lists keep the declaration order: the declaration indices
    of the canonical values are strictly increasing, and so are those of
    the aliases. *)
Theorem constructor_keeps_declaration_order
  (find_by_number : EnumDescriptor -> Z -> option EnumValueDescriptor)
  (d : EnumDescriptor) :
  StronglySorted lt
    (map index (canonical_values_ (new find_by_number d))) /\
  StronglySorted lt
    (map index (map value_ (aliases_ (new find_by_number d)))).
Proof.
  split; [apply canonical_indices_sorted|apply alias_indices_sorted].
Qed.

(** X3.  With the lookup that answers the first declared value, the
    canonical values are one per number: their numbers are pairwise
    different, and every declared value has a canonical value with its
    number. *)
Theorem canonical_values_one_per_number (d : EnumDescriptor) :
  NoDup (map number (canonical_values_ (generator d))) /\
  (forall i v, value d i = Some v ->
     exists c, In c (canonical_values_ (generator d)) /\
               number c = number v).
Proof.
  split.
  - apply NoDup_map_NoDup_ForallPairs.
    + intros a b Ha Hb E.
      apply in_canonical_values in Ha. destruct Ha as [Hva Hca].
      apply in_canonical_values in Hb. destruct Hb as [Hvb Hcb].
      unfold is_canonical in *. rewrite E in Hca.
      destruct (FindValueByNumber d (number b)) as [c|] eqn:Ec;
        [|discriminate].
      destruct (FindValueByNumber_spec _ _ _ Ec) as (_ & Hvc & _).
      apply (value_inj d) in Hca; [|assumption..].
      apply (value_inj d) in Hcb; [|assumption..]. congruence.
    + apply (NoDup_map_inv index).
      pose proof (canonical_indices_sorted FindValueByNumber d) as Hs.
      fold (generator d) in Hs. clear - Hs.
      induction Hs as [|a l Hs IH Hall]; constructor; [|exact IH].
      intros Hin. rewrite Forall_forall in Hall. apply Hall in Hin. lia.
  - intros i v Hv.
    destruct (FindValueByNumber_total _ _ _ Hv) as (c & Hc & _).
    destruct (FindValueByNumber_spec _ _ _ Hc) as (Hn & Hvc & _).
    exists c. split; [|exact Hn].
    apply in_canonical_values. split; [exact Hvc|].
    unfold is_canonical. rewrite Hn, Hc. apply Nat.eqb_refl.
Qed.

Lemma value_number (d : EnumDescriptor) (i : nat) (v : EnumValueDescriptor) :
  value d i = Some v -> nth_error (map snd (decls d)) i = Some (number v).
Proof.
  unfold value. intros H. rewrite nth_error_map.
  destruct (nth_error (decls d) i) as [[n k]|]; [|discriminate].
  inversion H. reflexivity.
Qed.

Lemma flat_map_nil {A B : Type} (f : A -> list B) (l : list A) :
  flat_map f l = [] <-> forall x, In x l -> f x = [].
Proof.
  induction l as [|a l IH]; cbn [flat_map].
  - split; [intros _ x []|reflexivity].
  - split.
    + intros H x [<-|Hx]; apply app_eq_nil in H; destruct H as [H1 H2];
        [exact H1|]. apply IH; assumption.
    + intros H. rewrite (H a) by (left; reflexivity). simpl.
      apply IH. intros x Hx. apply H. right. exact Hx.
Qed.

(** X4.  The constructor finds no alias exactly when the declared
    numbers are pairwise different. *)
Theorem no_alias_iff_distinct_numbers (d : EnumDescriptor) :
  aliases_ (generator d) = [] <-> NoDup (map snd (decls d)).
Proof.
  unfold generator. rewrite new_aliases, flat_map_nil. split.
  - intros H. apply NoDup_nth_error. intros i j Hi E.
    rewrite length_map in Hi.
    destruct (value d i) as [v|] eqn:Ev.
    2:{ unfold value in Ev. apply nth_error_Some in Hi.
        destruct (nth_error (decls d) i) as [[n k]|]; [discriminate|].
        contradiction. }
    pose proof (value_number _ _ _ Ev) as Ni. rewrite Ni in E. symmetry in E.
    assert (Hj : (j < List.length (map snd (decls d)))%nat)
      by (apply nth_error_Some; congruence).
    rewrite length_map in Hj.
    destruct (value d j) as [w|] eqn:Ew.
    2:{ unfold value in Ew. apply nth_error_Some in Hj.
        destruct (nth_error (decls d) j) as [[n k]|]; [discriminate|].
        contradiction. }
    pose proof (value_number _ _ _ Ew) as Nj. rewrite Nj in E.
    inversion E as [En].
    assert (Hfirst : forall i v, value d i = Some v ->
                       FindValueByNumber d (number v) = Some v).
    { intros i0 v0 Hv0.
      assert (Hin : In i0 (seq 0 (value_count d)))
        by (apply in_seq; destruct (value_index _ _ _ Hv0); lia).
      specialize (H i0 Hin). unfold alias_at in H. rewrite Hv0 in H.
      unfold is_canonical in H.
      destruct (FindValueByNumber d (number v0)) as [c|] eqn:Ec.
      - destruct (same_value v0 c) eqn:Es; [|discriminate].
        destruct (FindValueByNumber_spec _ _ _ Ec) as (_ & Hvc & _).
        apply (value_inj d) in Es; [congruence| |exact Hvc].
        eapply value_self; eassumption.
      - discriminate. }
    pose proof (Hfirst _ _ Ev) as Fi. pose proof (Hfirst _ _ Ew) as Fj.
    rewrite En in Fj. rewrite Fi in Fj. inversion Fj; subst.
    destruct (value_index _ _ _ Ev). destruct (value_index _ _ _ Ew). lia.
  - intros Hnd i Hi. unfold alias_at.
    destruct (value d i) as [v|] eqn:Ev; [|reflexivity].
    destruct (FindValueByNumber_total _ _ _ Ev) as (c & Hc & _).
    destruct (FindValueByNumber_spec _ _ _ Hc) as (Hn & Hvc & _).
    assert (Eidx : index c = i).
    { rewrite NoDup_nth_error in Hnd. symmetry. apply Hnd.
      - rewrite length_map. apply (value_index _ _ _ Ev).
      - rewrite (value_number _ _ _ Ev), (value_number _ _ _ Hvc). congruence. }
    unfold is_canonical. rewrite Hc. unfold same_value.
    destruct (value_index _ _ _ Ev) as [-> _]. rewrite Eidx, Nat.eqb_refl.
    reflexivity.
Qed.

(** The comment line every definition starts with. *)
Definition comment_line (d : EnumDescriptor) : string :=
  ("// enum " ++ enum_name d ++ Str.NL)%string.

(** The lines that open the shell class, when there is one. *)
Definition shell_lines (RenameJavaKeywords : string -> string)
  (params : Params) (d : EnumDescriptor) (ind : string) : string :=
  (if java_enum_style params then
     ind ++ "public " ++
     (if negb (nested d) && java_multiple_files params (file_name d)
      then "" else "static ") ++
     "final class " ++ RenameJavaKeywords (enum_name d) ++ " {" ++ Str.NL ++
     ind ++ "  private " ++ RenameJavaKeywords (enum_name d) ++ "() {}"
       ++ Str.NL ++
     ind ++ "  " ++ Str.NL
   else "")%string.

(** What the printer puts in front of the first chunk it writes: the
    indentation at the start of a line, nothing in the middle of one. *)
Definition line_start (p : Printer.t) : string :=
  if Printer.at_start_of_line_ p then Printer.indent_ p else ""%string.

Lemma header_lines (RenameJavaKeywords : string -> string)
  (params : Params) (d : EnumDescriptor) (ind : string) :
  header RenameJavaKeywords params d ind
  = (ind ++ comment_line d
         ++ shell_lines RenameJavaKeywords params d ind)%string.
Proof.
  unfold header, comment_line, shell_lines.
  repeat rewrite Str.app_assoc. reflexivity.
Qed.

(** The comment line printed in the middle of a line is not indented. *)
Lemma print_comment_mid_line (o ind n : string) :
  Printer.Print [("classname"%string, n)]
    ("// enum $classname$" ++ Str.NL)%string (Printer.mk o ind false)
  = Some (Printer.mk (o ++ "// enum " ++ n ++ Str.NL)%string ind true).
Proof.
  unfold Printer.Print; cbn.
  unfold Printer.line_done, Printer.WriteRaw; cbn.
  unfold Str.NL; repeat rewrite Str.app_assoc; cbn.
  repeat rewrite Str.app_assoc; reflexivity.
Qed.

(** The whole text of a definition from any state of the printer. *)
Lemma Generate_out_any (RenameJavaKeywords : string -> string)
  (params : Params) (d : EnumDescriptor) (g : t) (p : Printer.t) :
  (forall a, In a (aliases_ g) -> canonical_value a <> None) ->
  Generate RenameJavaKeywords params d g p
  = Some (Printer.mk
            (Printer.out p ++ line_start p ++ comment_line d
               ++ shell_lines RenameJavaKeywords params d (Printer.indent_ p)
               ++ Str.concat
                    (map (canonical_decl RenameJavaKeywords
                            (body_indent params (Printer.indent_ p)))
                         (canonical_values_ g))
               ++ Str.concat
                    (map (alias_decl RenameJavaKeywords
                            (body_indent params (Printer.indent_ p)))
                         (aliases_ g))
               ++ footer params (Printer.indent_ p))%string
            (Printer.indent_ p) true).
Proof.
  intros Hal. destruct p as [o ind [|]]; unfold line_start;
    cbn [Printer.out Printer.indent_ Printer.at_start_of_line_].
  - rewrite (Generate_out RenameJavaKeywords params d g o ind Hal).
    rewrite header_lines. repeat rewrite Str.app_assoc. reflexivity.
  - unfold Generate, comment_line, shell_lines, footer, body_indent.
    rewrite print_comment_mid_line. cbn [bind].
    destruct (java_enum_style params).
    + rewrite print_shell_out. cbn [bind]. unfold Printer.Indent.
      cbn [Printer.out Printer.indent_ Printer.at_start_of_line_].
      rewrite print_all_canonical. cbn [bind].
      rewrite print_all_aliases by exact Hal. cbn [bind].
      match goal with
      | |- context [Printer.Outdent
                      (Printer.mk ?x (ind ++ "  ")%string true)] =>
          pose proof (outdent_indent x ind true) as E
      end.
      unfold Printer.Indent in E.
      cbn [Printer.out Printer.indent_ Printer.at_start_of_line_] in E.
      rewrite E. cbn [bind]. rewrite print_close_out. cbn [bind].
      rewrite print_blank_out.
      repeat rewrite Str.app_assoc. reflexivity.
    + cbn [bind]. rewrite print_all_canonical. cbn [bind].
      rewrite print_all_aliases by exact Hal. cbn [bind].
      rewrite print_blank_out.
      repeat rewrite Str.app_assoc. reflexivity.
Qed.

(** X5.  On the generator the constructor builds, [Generate] cannot fail,
    whatever the state of the printer: behind what was printed before it
    puts the comment line - indented when the printer was at the start of
    a line, not indented when it was in the middle of one - then the
    lines that open the shell class if there is one, one literal
    declaration per canonical value in declaration order, one reference
    declaration per alias, and the footer, and it leaves the printer at
    the start of a line with the indentation it found. *)
Theorem Generate_prints_whole_definition
  (RenameJavaKeywords : string -> string) (params : Params)
  (d : EnumDescriptor) (p : Printer.t) :
  Generate RenameJavaKeywords params d (generator d) p
  = Some (Printer.mk
            (Printer.out p ++ line_start p ++ comment_line d
               ++ shell_lines RenameJavaKeywords params d (Printer.indent_ p)
               ++ Str.concat
                    (map (canonical_decl RenameJavaKeywords
                            (body_indent params (Printer.indent_ p)))
                         (canonical_values_ (generator d)))
               ++ Str.concat
                    (map (alias_decl RenameJavaKeywords
                            (body_indent params (Printer.indent_ p)))
                         (aliases_ (generator d)))
               ++ footer params (Printer.indent_ p))%string
            (Printer.indent_ p) true).
Proof.
  apply Generate_out_any. intros a Ha.
  destruct (alias_has_canonical d a Ha) as (c & -> & _). discriminate.
Qed.

(** X6.  An enumeration without values gets no constant: whatever the
    lookup, the text is the comment line, the shell class when the
    generator is asked for one, and the closing blank line. *)
Theorem Generate_without_values
  (RenameJavaKeywords : string -> string)
  (find_by_number : EnumDescriptor -> Z -> option EnumValueDescriptor)
  (params : Params) (d : EnumDescriptor) (o ind : string) :
  decls d = [] ->
  canonical_values_ (new find_by_number d) = [] /\
  aliases_ (new find_by_number d) = [] /\
  Generate RenameJavaKeywords params d (new find_by_number d)
    (Printer.mk o ind true)
  = Some (Printer.mk
            (o ++ header RenameJavaKeywords params d ind
               ++ footer params ind)%string
            ind true).
Proof.
  intros He.
  assert (En : new find_by_number d = empty).
  { unfold new, value_count. rewrite He. reflexivity. }
  rewrite En. split; [reflexivity|]. split; [reflexivity|].
  rewrite Generate_out by (intros a []). reflexivity.
Qed.

Definition empty_enum : EnumDescriptor :=
  {| enum_name := "Nothing"; decls := []; nested := true;
     file_name := "e.proto" |}.

Lemma Generate_without_values_witness :
  canonical_values_ (new FindValueByNumber empty_enum) = [] /\
  aliases_ (new FindValueByNumber empty_enum) = [] /\
  Generate (fun s => s) (demo_params) empty_enum
    (new FindValueByNumber empty_enum) (Printer.mk "" "  " true)
  = Some (Printer.mk
            ("" ++ header (fun s => s) demo_params empty_enum "  "
                ++ footer demo_params "  ")%string
            "  " true).
Proof.
  apply (Generate_without_values (fun s => s) FindValueByNumber demo_params
           empty_enum "" "  ").
  reflexivity.
Defined.

End EnumExtras.

(** ** The field generators as printers *)

Module PrinterFacts.

Import Printer.

(** [bound vars text m]: every placeholder of the template is closed and
    has a value. *)
Fixpoint bound (vars : variables) (text : string) (m : mode) : bool :=
  match text, m with
  | EmptyString, Text _ => true
  | EmptyString, Var _ => false
  | String c rest, Text _ =>
      if Ascii.eqb c Str.nl then bound vars rest (Text EmptyString)
      else if Ascii.eqb c Str.dollar then bound vars rest (Var EmptyString)
      else bound vars rest (Text EmptyString)
  | String c rest, Var name =>
      if Ascii.eqb c Str.dollar then
        match name with
        | EmptyString => bound vars rest (Text EmptyString)
        | _ =>
            match find name vars with
            | Some _ => bound vars rest (Text EmptyString)
            | None => false
            end
        end
      else bound vars rest (Var (Str.snoc name c))
  end.

(** [ends_line text m]: the template ends with a line break of its own. *)
Fixpoint ends_line (text : string) (m : mode) : bool :=
  match text, m with
  | EmptyString, _ => false
  | String c rest, Text _ =>
      if Ascii.eqb c Str.nl then
        match rest with
        | EmptyString => true
        | _ => ends_line rest (Text EmptyString)
        end
      else if Ascii.eqb c Str.dollar then ends_line rest (Var EmptyString)
      else ends_line rest (Text EmptyString)
  | String c rest, Var _ =>
      if Ascii.eqb c Str.dollar then ends_line rest (Text EmptyString)
      else ends_line rest (Var EmptyString)
  end.

Lemma bound_text (vars : variables) (text a b : string) :
  bound vars text (Text a) = bound vars text (Text b).
Proof. destruct text; reflexivity. Qed.

Lemma ends_line_text (text a b : string) :
  ends_line text (Text a) = ends_line text (Text b).
Proof. destruct text; reflexivity. Qed.

Lemma ends_line_var (text a b : string) :
  ends_line text (Var a) = ends_line text (Var b).
Proof. destruct text; reflexivity. Qed.

Lemma WriteRaw_indent (data : string) (p : t) :
  indent_ (WriteRaw data p) = indent_ p.
Proof.
  unfold WriteRaw. destruct (at_start_of_line_ p); [|reflexivity].
  destruct data as [|c r]; [reflexivity|].
  destruct (Ascii.eqb c Str.nl); reflexivity.
Qed.

(** A template whose placeholders are bound is printed, and printing
    keeps the indentation. *)
Lemma Print_from_bound (vars : variables) (text : string) :
  forall (m : mode) (p : t),
    bound vars text m = true ->
    exists p', Print_from vars text m p = Some p' /\ indent_ p' = indent_ p.
Proof.
  induction text as [|c rest IH]; intros m p H.
  - destruct m; [|discriminate]. eexists. split; [reflexivity|].
    apply WriteRaw_indent.
  - destruct m as [chunk|name]; cbn [Print_from bound] in *.
    + destruct (Ascii.eqb c Str.nl).
      * destruct (IH _ (line_done (WriteRaw (Str.snoc chunk c) p)) H)
          as (p' & Hp & Hi).
        exists p'. split; [exact Hp|]. rewrite Hi. cbn [line_done indent_].
        apply WriteRaw_indent.
      * destruct (Ascii.eqb c Str.dollar).
        -- destruct (IH _ (WriteRaw chunk p) H) as (p' & Hp & Hi).
           exists p'. split; [exact Hp|]. rewrite Hi. apply WriteRaw_indent.
        -- rewrite (bound_text vars rest _ (Str.snoc chunk c)) in H.
           apply IH. exact H.
    + destruct (Ascii.eqb c Str.dollar).
      * destruct name as [|a name'].
        -- destruct (IH _ (WriteRaw (String Str.dollar EmptyString) p) H)
             as (p' & Hp & Hi).
           exists p'. split; [exact Hp|]. rewrite Hi. apply WriteRaw_indent.
        -- destruct (find (String a name') vars) as [v|]; [|discriminate].
           destruct (IH _ (WriteRaw v p) H) as (p' & Hp & Hi).
           exists p'. split; [exact Hp|]. rewrite Hi. apply WriteRaw_indent.
      * apply IH. exact H.
Qed.

(** A template that ends with a line break leaves the printer at the
    start of a line. *)
Lemma Print_from_ends_line (vars : variables) (text : string) :
  forall (m : mode) (p p' : t),
    ends_line text m = true ->
    Print_from vars text m p = Some p' -> at_start_of_line_ p' = true.
Proof.
  induction text as [|c rest IH]; intros m p p' He H.
  - destruct m; discriminate.
  - destruct m as [chunk|name]; cbn [Print_from ends_line] in *.
    + destruct (Ascii.eqb c Str.nl).
      * destruct rest as [|c' rest'].
        -- cbn in H. inversion H. reflexivity.
        -- eapply IH; [|exact H]. exact He.
      * destruct (Ascii.eqb c Str.dollar).
        -- eapply IH; [|exact H]. exact He.
        -- eapply IH; [|exact H].
           rewrite (ends_line_text rest _ EmptyString). exact He.
    + destruct (Ascii.eqb c Str.dollar).
      * destruct name as [|a name'].
        -- eapply IH; [|exact H]. exact He.
        -- destruct (find (String a name') vars) as [v|]; [|discriminate].
           eapply IH; [|exact H]. exact He.
      * eapply IH; [|exact H].
        rewrite (ends_line_var rest _ EmptyString). exact He.
Qed.

(** A printing step that cannot fail, keeps the indentation and ends at
    the start of a line. *)
Definition completes (f : t -> option t) : Prop :=
  forall p, exists p',
    f p = Some p' /\ indent_ p' = indent_ p /\ at_start_of_line_ p' = true.

Lemma Print_completes (vars : variables) (text : string) :
  bound vars text (Text EmptyString) = true ->
  ends_line text (Text EmptyString) = true ->
  completes (Print vars text).
Proof.
  intros Hb He p. unfold Print.
  destruct (Print_from_bound vars text _ p Hb) as (p' & Hp & Hi).
  exists p'. split; [exact Hp|]. split; [exact Hi|].
  eapply Print_from_ends_line; eassumption.
Qed.

(** What was indented is outdented to where it was. *)
Lemma Outdent_indented (p : t) (ind : string) :
  indent_ p = (ind ++ "  ")%string ->
  exists p', Outdent p = Some p' /\ indent_ p' = ind /\
             at_start_of_line_ p' = at_start_of_line_ p.
Proof.
  intros E. unfold Outdent. rewrite E.
  assert (S2 : substring 0 (String.length (ind ++ "  ") - 2) (ind ++ "  ")
               = ind).
  { rewrite Str.length_app. simpl String.length.
    replace (String.length ind + 2 - 2)%nat with (String.length ind) by lia.
    clear. induction ind as [|c s IH]; simpl; [reflexivity|].
    rewrite IH. reflexivity. }
  rewrite S2. destruct ind; eexists; (split; [reflexivity|]); split;
    reflexivity.
Qed.

End PrinterFacts.

Module GeneratorExtras.

Import PrinterFacts.

Section Fields.

Variable UnderscoresToCamelCase : FieldDescriptor -> string.
Variable UnderscoresToCapitalizedCamelCase : FieldDescriptor -> string.
Variable DefaultValue : Params -> FieldDescriptor -> string.
Variable params : Params.
Variable descriptor : FieldDescriptor.

Definition g : FieldGenerator :=
  new_generator UnderscoresToCamelCase UnderscoresToCapitalizedCamelCase
    DefaultValue descriptor params.

Ltac print_completes :=
  apply Print_completes; reflexivity.

(** X7.  Every placeholder of every template of a singular enum field is
    one that [SetEnumVariables] binds: for any field and any answers of
    the naming helpers, the five generators print their fragment without
    a fatal log, keep the indentation and end at the start of a line. *)
Theorem singular_generators_complete :
  completes (EnumFieldGenerator.GenerateMembers g) /\
  completes (EnumFieldGenerator.GenerateMergingCode g) /\
  completes (EnumFieldGenerator.GenerateParsingCode g) /\
  completes (EnumFieldGenerator.GenerateSerializationCode g) /\
  completes (EnumFieldGenerator.GenerateSerializedSizeCode g).
Proof.
  split; [|split; [|split; [|split]]]; print_completes.
Qed.

(** One printing step of a generator, on the printer [p]. *)
Ltac print_step p p' E Hi Hs :=
  match goal with
  | |- context [Printer.Print ?vars ?text p] =>
      let Hb := fresh in
      let He := fresh in
      assert (Hb : bound vars text (Printer.Text EmptyString) = true)
        by reflexivity;
      assert (He : ends_line text (Printer.Text EmptyString) = true)
        by reflexivity;
      destruct (Print_completes vars text Hb He p) as (p' & E & Hi & Hs);
      rewrite E; cbn [bind]; clear Hb He
  end.

(** X8.  The same for a repeated enum field, packed or not: the five
    generators print their fragment without a fatal log, every [Outdent]
    meets the [Indent] before it, the indentation is the same afterwards
    and the printer is at the start of a line. *)
Theorem repeated_generators_complete :
  completes (RepeatedEnumFieldGenerator.GenerateMembers g) /\
  completes (RepeatedEnumFieldGenerator.GenerateMergingCode g) /\
  completes (RepeatedEnumFieldGenerator.GenerateParsingCode g) /\
  completes (RepeatedEnumFieldGenerator.GenerateSerializationCode g) /\
  completes (RepeatedEnumFieldGenerator.GenerateSerializedSizeCode g).
Proof.
  split; [|split; [|split; [|split]]].
  - intros p. unfold RepeatedEnumFieldGenerator.GenerateMembers.
    print_step p p1 E1 Hi1 Hs1.
    destruct (packed (descriptor_ g)).
    + print_step p1 p2 E2 Hi2 Hs2. exists p2. split; [reflexivity|].
      split; [congruence|exact Hs2].
    + exists p1. auto.
  - print_completes.
  - intros p. unfold RepeatedEnumFieldGenerator.GenerateParsingCode.
    destruct (packed (descriptor_ g)).
    + print_step p p1 E1 Hi1 Hs1. exists p1. auto.
    + print_step p p1 E1 Hi1 Hs1. exists p1. auto.
  - intros p. unfold RepeatedEnumFieldGenerator.GenerateSerializationCode.
    print_step p p1 E1 Hi1 Hs1.
    set (q := Printer.Indent p1).
    assert (Hq : Printer.indent_ q = (Printer.indent_ p ++ "  ")%string)
      by (unfold q, Printer.Indent; cbn [Printer.indent_]; congruence).
    destruct (packed (descriptor_ g)).
    + print_step q p2 E2 Hi2 Hs2.
      destruct (Outdent_indented p2 (Printer.indent_ p))
        as (p3 & E3 & Hi3 & Hs3);
        [congruence|].
      rewrite E3. cbn [bind].
      print_step p3 p4 E4 Hi4 Hs4. exists p4. split; [reflexivity|].
      split; [congruence|exact Hs4].
    + print_step q p2 E2 Hi2 Hs2.
      destruct (Outdent_indented p2 (Printer.indent_ p))
        as (p3 & E3 & Hi3 & Hs3);
        [congruence|].
      rewrite E3. cbn [bind].
      print_step p3 p4 E4 Hi4 Hs4. exists p4. split; [reflexivity|].
      split; [congruence|exact Hs4].
  - intros p. unfold RepeatedEnumFieldGenerator.GenerateSerializedSizeCode.
    print_step p p1 E1 Hi1 Hs1.
    set (q := Printer.Indent p1).
    assert (Hq : Printer.indent_ q = (Printer.indent_ p ++ "  ")%string)
      by (unfold q, Printer.Indent; cbn [Printer.indent_]; congruence).
    print_step q p2 E2 Hi2 Hs2.
    print_step p2 p3 E3 Hi3 Hs3.
    destruct (packed (descriptor_ g)).
    + print_step p3 p4 E4 Hi4 Hs4.
      destruct (Outdent_indented p4 (Printer.indent_ p))
        as (p5 & E5 & Hi5 & Hs5);
        [congruence|].
      rewrite E5. cbn [bind].
      print_step p5 p6 E6 Hi6 Hs6. exists p6. split; [reflexivity|].
      split; [congruence|exact Hs6].
    + print_step p3 p4 E4 Hi4 Hs4.
      destruct (Outdent_indented p4 (Printer.indent_ p))
        as (p5 & E5 & Hi5 & Hs5);
        [congruence|].
      rewrite E5. cbn [bind].
      print_step p5 p6 E6 Hi6 Hs6. exists p6. split; [reflexivity|].
      split; [congruence|exact Hs6].
Qed.

End Fields.

End GeneratorExtras.

(** ** Size and serialization of a repeated field *)

Module RepeatedExtras.

Import RepeatedEnumFieldCode MessageCode.

Lemma fold_append {A : Type} (f : A -> list Z) (xs : list A) :
  forall out,
    fold_left (fun output element => output ++ f element) xs out
    = out ++ flat_map f xs.
Proof.
  induction xs as [|e xs IH]; intros out; cbn [fold_left flat_map].
  - rewrite app_nil_r. reflexivity.
  - rewrite IH, <- app_assoc. reflexivity.
Qed.

Lemma nonempty_guard (xs : list Z) :
  (0 <? Java.length xs) = match xs with [] => false | _ => true end.
Proof.
  destruct xs as [|e xs]; [reflexivity|].
  apply Z.ltb_lt. unfold Java.length. simpl List.length. lia.
Qed.

(** X9.  The serializer of a repeated field only appends: the bytes that
    were in the output stay in front, and what is written behind them is
    what would be written to an empty output.  The same holds for a
    singular field. *)
Theorem serializers_only_append (descriptor : FieldDescriptor)
  (this : Message) (value : Z) (output : list Z) :
  SerializationCode descriptor this output
  = output ++ SerializationCode descriptor this [] /\
  EnumFieldCode.SerializationCode descriptor value output
  = output ++ EnumFieldCode.SerializationCode descriptor value [].
Proof.
  split.
  - unfold SerializationCode. rewrite nonempty_guard.
    destruct (name_ this) as [|e xs] eqn:En.
    + rewrite app_nil_r. reflexivity.
    + rewrite <- En. destruct (packed descriptor).
      * rewrite !fold_append. cbn [app]. rewrite <- !app_assoc. reflexivity.
      * rewrite !fold_append. reflexivity.
  - unfold EnumFieldCode.SerializationCode.
    destruct (negb (value =? default_number descriptor)).
    + reflexivity.
    + rewrite app_nil_r. reflexivity.
Qed.

(** X10.  The size fragment does not read the memoized size and never
    touches the array: the size it adds and the message it leaves are the
    same whatever the cache held, running it again changes nothing more,
    and for an unpacked field the message is left as it was. *)
Theorem size_ignores_cache (descriptor : FieldDescriptor)
  (this : Message) (cache size size' : Z) :
  snd (SerializedSizeCode descriptor (set_memoized this cache) size)
  = snd (SerializedSizeCode descriptor this size) /\
  (packed descriptor = true ->
   fst (SerializedSizeCode descriptor (set_memoized this cache) size)
   = fst (SerializedSizeCode descriptor this size)) /\
  name_ (fst (SerializedSizeCode descriptor this size)) = name_ this /\
  fst (SerializedSizeCode descriptor
         (fst (SerializedSizeCode descriptor this size)) size')
  = fst (SerializedSizeCode descriptor this size) /\
  (packed descriptor = false ->
   fst (SerializedSizeCode descriptor this size) = this).
Proof.
  unfold SerializedSizeCode, set_memoized. cbn [name_].
  destruct (0 <? Java.length (name_ this)) eqn:Eg;
    destruct (packed descriptor); cbn [fst snd name_];
    rewrite ?Eg; cbn [fst snd name_];
    repeat split; try reflexivity; try discriminate.
Qed.









End RepeatedExtras.

(** ** Packed fields: what the serializer takes from the cache *)

Module PackedExtras.

Import RepeatedEnumFieldCode MessageCode PackedParsing.

(** X12.  The packed serializer never computes the length itself.  After
    the size fragment ran on a field holding [xs], empty or not, and the
    field was set to [ys], it writes nothing when [ys] is empty;
    otherwise it writes the tag, then as length prefix the payload size
    of [xs] - the size of the sequence at the last size call, 0 for the
    empty one - and then the raw varints of [ys]. *)
Theorem packed_prefix_is_size_at_last_size_call
  (descriptor : FieldDescriptor) (xs ys : list Z) (cache size : Z) :
  packed descriptor = true ->
  SerializationCode descriptor
    (set_name
       (fst (SerializedSizeCode descriptor
               {| name_ := xs; nameMemoizedSerializedSize := cache |} size))
       ys) []
  = match ys with
    | [] => []
    | _ :: _ =>
        Nano.writeRawVarint32 (WireFormat.MakeTag descriptor)
        ++ Nano.writeRawVarint32 (dataSize xs)
        ++ flat_map Nano.writeRawVarint32 ys
    end.
Proof.
  intros Hp. unfold SerializedSizeCode, SerializationCode.
  cbn [name_]. rewrite Hp, !RepeatedExtras.nonempty_guard.
  destruct ys as [|y ys'].
  - destruct xs; reflexivity.
  - destruct xs as [|x xs'];
      cbn [fst set_name set_memoized name_ nameMemoizedSerializedSize];
      rewrite ?RepeatedExtras.nonempty_guard;
      rewrite RepeatedExtras.fold_append; cbn [app];
      rewrite <- app_assoc; reflexivity.
Qed.

Lemma packed_prefix_is_size_at_last_size_call_witness :
  SerializationCode (Demo.field true)
    (set_name
       (fst (SerializedSizeCode (Demo.field true)
               {| name_ := [300; 1]; nameMemoizedSerializedSize := 0 |} 0))
       [5]) []
  = Nano.writeRawVarint32 (WireFormat.MakeTag (Demo.field true))
    ++ Nano.writeRawVarint32 (dataSize [300; 1])
    ++ flat_map Nano.writeRawVarint32 [5].
Proof.
  apply (packed_prefix_is_size_at_last_size_call (Demo.field true)
           [300; 1] [5] 0 0).
  reflexivity.
Defined.



(** X14.  For a packed field whose number is below 2^28, holding a
    sequence of Java ints that is not empty and has fewer than 2^26
    elements, the size fragment announces five bytes more than the
    serializer writes for every negative element, and exactly the bytes
    written when there is none. *)
Theorem packed_size_exceeds_by_negatives
  (descriptor : FieldDescriptor) (xs : list Z) (cache : Z) :
  packed descriptor = true ->
  0 < field_number descriptor < 2 ^ 28 ->
  xs <> [] -> Forall Java.is_int xs -> Java.length xs < 2 ^ 26 ->
  snd (SerializedSizeCode descriptor
         {| name_ := xs; nameMemoizedSerializedSize := cache |} 0)
  = Java.length
      (SerializationCode descriptor
         (fst (SerializedSizeCode descriptor
                 {| name_ := xs; nameMemoizedSerializedSize := cache |} 0))
         [])
    + 5 * PackedSizeClaims.negatives xs.
Proof.
  intros Hp Hn Hne Hall Hlen.
  apply PackedSizeClaims.packed_size_excess; assumption.
Qed.

Lemma packed_size_exceeds_by_negatives_witness :
  snd (SerializedSizeCode (Demo.field true)
         {| name_ := [-1; 4; -7]; nameMemoizedSerializedSize := 0 |} 0)
  = Java.length
      (SerializationCode (Demo.field true)
         (fst (SerializedSizeCode (Demo.field true)
                 {| name_ := [-1; 4; -7];
                    nameMemoizedSerializedSize := 0 |} 0))
         [])
    + 5 * PackedSizeClaims.negatives [-1; 4; -7].
Proof.
  apply (packed_size_exceeds_by_negatives (Demo.field true) [-1; 4; -7] 0).
  - reflexivity.
  - simpl. lia.
  - discriminate.
  - repeat constructor; unfold Java.is_int; lia.
  - vm_compute. reflexivity.
Defined.

End PackedExtras.

(** ** Parsing: edges and what the fragments leave of the input *)

Module ParseExtras.

Import RepeatedEnumFieldCode MessageCode PackedParsing.

(** [consumed s s']: the stream [s'] is [s] after reading some bytes. *)
Definition consumed (s s' : Nano.CodedInputStreamNano) : Prop :=
  exists c,
    Nano.buffer s = c ++ Nano.buffer s' /\
    Nano.bufferPos s' = Nano.bufferPos s + Java.length c.

Definition same_limit (s s' : Nano.CodedInputStreamNano) : Prop :=
  Nano.currentLimit s' = Nano.currentLimit s.

Lemma consumed_refl (s : Nano.CodedInputStreamNano) : consumed s s.
Proof.
  exists []. split; [reflexivity|]. change (Java.length []) with 0. lia.
Qed.

Lemma consumed_trans (a b c : Nano.CodedInputStreamNano) :
  consumed a b -> consumed b c -> consumed a c.
Proof.
  intros (x & Hx & Px) (y & Hy & Py). exists (x ++ y). split.
  - rewrite Hx, Hy, app_assoc. reflexivity.
  - rewrite UnpackedRoundTrip.length_app_Z. lia.
Qed.

Lemma readRawByte_forward (s s' : Nano.CodedInputStreamNano) (b : Z) :
  Nano.readRawByte s = Some (b, s') -> consumed s s' /\ same_limit s s'.
Proof.
  unfold Nano.readRawByte. intros H.
  destruct (Nano.currentLimit s <=? Nano.bufferPos s); [discriminate|].
  destruct (Nano.buffer s) as [|x r] eqn:Eb; [discriminate|].
  inversion H; subst. split; [|reflexivity].
  exists [b]. cbn [Nano.buffer Nano.bufferPos]. rewrite Eb. split; reflexivity.
Qed.

Lemma readVarint_forward (fuel : nat) :
  forall (s s' : Nano.CodedInputStreamNano) (u : Z),
    Nano.readVarint fuel s = Some (u, s') ->
    consumed s s' /\ same_limit s s'.
Proof.
  induction fuel as [|fuel IH]; intros s s' u H; cbn [Nano.readVarint] in H;
    destruct (Nano.readRawByte s) as [[b s1]|] eqn:Eb; try discriminate;
    cbn [bind] in H; destruct (readRawByte_forward _ _ _ Eb) as [C1 L1];
    destruct (b <? 128).
  - inversion H; subst. auto.
  - discriminate.
  - inversion H; subst. auto.
  - destruct (Nano.readVarint fuel s1) as [[hi s2]|] eqn:Er; [|discriminate].
    cbn [bind] in H. inversion H; subst.
    destruct (IH _ _ _ Er) as [C2 L2]. split.
    + eapply consumed_trans; eassumption.
    + unfold same_limit in *. congruence.
Qed.

Lemma readRawVarint32_forward (s s' : Nano.CodedInputStreamNano) (v : Z) :
  Nano.readRawVarint32 s = Some (v, s') -> consumed s s' /\ same_limit s s'.
Proof.
  unfold Nano.readRawVarint32. intros H.
  destruct (Nano.readVarint 9 s) as [[u s1]|] eqn:Er; [|discriminate].
  cbn [bind] in H. inversion H; subst. eapply readVarint_forward; eassumption.
Qed.

Lemma readTag_forward (s s' : Nano.CodedInputStreamNano) (v : Z) :
  Nano.readTag s = Some (v, s') -> consumed s s' /\ same_limit s s'.
Proof.
  unfold Nano.readTag. intros H. destruct (Nano.isAtEnd s).
  - inversion H; subst. split; [apply consumed_refl|reflexivity].
  - destruct (Nano.readRawVarint32 s) as [[t s1]|] eqn:Er; [|discriminate].
    cbn [bind] in H. destruct (t =? 0); [discriminate|].
    inversion H; subst. eapply readRawVarint32_forward; eassumption.
Qed.

Lemma packed_loop_forward (count : nat) :
  forall (i : Z) (a a' : list Z) (s s' : Nano.CodedInputStreamNano),
    packed_loop count i a s = Some (a', s') ->
    consumed s s' /\ same_limit s s'.
Proof.
  induction count as [|count IH]; intros i a a' s s' H; cbn [packed_loop] in H.
  - inversion H; subst. split; [apply consumed_refl|reflexivity].
  - destruct (Nano.readInt32 s) as [[v s1]|] eqn:Er; [|discriminate].
    cbn [bind] in H. destruct (Java.store a i v) as [a1|]; [|discriminate].
    cbn [bind] in H.
    destruct (readRawVarint32_forward _ _ _ Er) as [C1 L1].
    destruct (IH _ _ _ _ _ H) as [C2 L2]. split.
    + eapply consumed_trans; eassumption.
    + unfold same_limit in *. congruence.
Qed.

Lemma unpacked_loop_forward (count : nat) :
  forall (i j : Z) (a a' : list Z) (s s' : Nano.CodedInputStreamNano),
    unpacked_loop count i a s = Some (j, a', s') ->
    consumed s s' /\ same_limit s s'.
Proof.
  induction count as [|count IH]; intros i j a a' s s' H;
    cbn [unpacked_loop] in H.
  - inversion H; subst. split; [apply consumed_refl|reflexivity].
  - destruct (Nano.readInt32 s) as [[v s1]|] eqn:Er; [|discriminate].
    cbn [bind] in H. destruct (Java.store a i v) as [a1|]; [|discriminate].
    cbn [bind] in H.
    destruct (Nano.readTag s1) as [[t s2]|] eqn:Et; [|discriminate].
    cbn [bind] in H.
    destruct (readRawVarint32_forward _ _ _ Er) as [C1 L1].
    destruct (readTag_forward _ _ _ Et) as [C2 L2].
    destruct (IH _ _ _ _ _ _ H) as [C3 L3]. split.
    + eapply consumed_trans; [eassumption|].
      eapply consumed_trans; eassumption.
    + unfold same_limit in *. congruence.
Qed.

(** X15.  Whatever the lookahead helpers answer, a parsing fragment that
    succeeds has only moved forward in the input - what is left is a
    suffix of what was there, and the position has grown by the number of
    bytes read - and it hands the stream back with the limit it found;
    the packed fragment pops the limit it pushed. *)
Theorem parsing_moves_forward_and_restores_limit
  (descriptor : FieldDescriptor)
  (getPacked getUnpacked : Nano.CodedInputStreamNano -> Z -> option Z)
  (this this' : Message) (input input' : Nano.CodedInputStreamNano) :
  RepeatedEnumFieldCode.ParsingCode descriptor getPacked getUnpacked this input
  = Some (this', input') ->
  consumed input input' /\
  Nano.currentLimit input' = Nano.currentLimit input.
Proof.
  unfold RepeatedEnumFieldCode.ParsingCode. intros H.
  destruct (packed descriptor).
  - destruct (Nano.readRawVarint32 input) as [[len i1]|] eqn:E1;
      [|discriminate].
    cbn [bind] in H. destruct (readRawVarint32_forward _ _ _ E1) as [C1 L1].
    destruct (Nano.pushLimit i1 len) as [[lim i2]|] eqn:E2; [|discriminate].
    cbn [bind] in H.
    assert (P : lim = Nano.currentLimit i1 /\
                Nano.buffer i2 = Nano.buffer i1 /\
                Nano.bufferPos i2 = Nano.bufferPos i1).
    { unfold Nano.pushLimit in E2. destruct (len <? 0); [discriminate|].
      destruct (Nano.currentLimit i1 <? len + Nano.bufferPos i1);
        [discriminate|].
      inversion E2; subst. auto. }
    destruct P as (Plim & Pb & Pp).
    destruct (getPacked i2 _) as [n|]; [|discriminate]. cbn [bind] in H.
    destruct (Java.new_array n) as [a|]; [|discriminate]. cbn [bind] in H.
    destruct (packed_loop (Z.to_nat n) 0 a i2) as [[a' i3]|] eqn:E3;
      [|discriminate].
    cbn [bind] in H. inversion H; subst.
    destruct (packed_loop_forward _ _ _ _ _ _ E3) as [(c3 & Hb3 & Hp3) _].
    split.
    + eapply consumed_trans; [exact C1|].
      exists c3. unfold Nano.popLimit. cbn [Nano.buffer Nano.bufferPos].
      rewrite <- Pb, <- Pp. auto.
    + unfold Nano.popLimit. cbn [Nano.currentLimit]. exact L1.
  - destruct (getUnpacked input _) as [n|]; [|discriminate]. cbn [bind] in H.
    destruct (Java.copyOf _ _) as [a|]; [|discriminate]. cbn [bind] in H.
    destruct (unpacked_loop _ _ a input) as [[[i a1] i1]|] eqn:E1;
      [|discriminate].
    cbn [bind] in H.
    destruct (Nano.readInt32 i1) as [[v i2]|] eqn:E2; [|discriminate].
    cbn [bind] in H. destruct (Java.store a1 i v) as [a2|]; [|discriminate].
    cbn [bind] in H. inversion H; subst.
    destruct (unpacked_loop_forward _ _ _ _ _ _ _ E1) as [C1 L1].
    destruct (readRawVarint32_forward _ _ _ E2) as [C2 L2]. split.
    + eapply consumed_trans; eassumption.
    + unfold same_limit in *. congruence.
Qed.

Lemma parsing_moves_forward_and_restores_limit_witness :
  consumed PackedParsing.demo_input PackedParsing.demo_rest /\
  Nano.currentLimit PackedParsing.demo_rest
  = Nano.currentLimit PackedParsing.demo_input.
Proof.
  apply (parsing_moves_forward_and_restores_limit (Demo.field true)
           getPackedRepeatedFieldArrayLength getRepeatedFieldArrayLength
           PackedParsing.demo_before PackedParsing.demo_after
           PackedParsing.demo_input PackedParsing.demo_rest).
  reflexivity.
Defined.

(** X16.  The unpacked fragment needs a run of one element at least: when
    the lookahead helper reports none (or a negative number) the fragment
    raises, whatever the input and whatever the field holds. *)
Theorem unpacked_parse_needs_an_element
  (descriptor : FieldDescriptor)
  (getPacked getUnpacked : Nano.CodedInputStreamNano -> Z -> option Z)
  (this : Message) (input : Nano.CodedInputStreamNano) (arrayLength : Z) :
  packed descriptor = false ->
  getUnpacked input (WireFormat.MakeTag descriptor) = Some arrayLength ->
  - 2 ^ 31 <= arrayLength <= 0 ->
  Java.length (name_ this) < 2 ^ 31 ->
  RepeatedEnumFieldCode.ParsingCode descriptor getPacked getUnpacked this input
  = None.
Proof.
  intros Hp Hget Hn Hlen. unfold RepeatedEnumFieldCode.ParsingCode.
  rewrite Hp, Hget. cbn [bind].
  pose proof (UnpackedRoundTrip.length_nonneg (name_ this)) as H0.
  unfold Java.add. rewrite Java.wrap_int by (unfold Java.is_int; lia).
  unfold Java.copyOf.
  destruct (Z.ltb_spec (Java.length (name_ this) + arrayLength) 0);
    [reflexivity|].
  cbn [bind].
  set (a := firstn _ _ ++ repeat 0 _).
  assert (La : Java.length a = Java.length (name_ this) + arrayLength).
  { unfold a, Java.length in *.
    rewrite length_app, length_firstn, repeat_length.
    lia. }
  replace (Z.to_nat (Java.length a - 1 - Java.length (name_ this)))
    with O by lia.
  cbn [unpacked_loop bind].
  destruct (Nano.readInt32 input) as [[v i1]|]; [|reflexivity].
  cbn [bind]. unfold Java.store.
  destruct (Z.leb_spec (Java.length a) (Java.length (name_ this))); [|lia].
  rewrite orb_true_r. reflexivity.
Qed.

Lemma unpacked_parse_needs_an_element_witness :
  RepeatedEnumFieldCode.ParsingCode (Demo.field false)
    (fun _ _ => Some 3) (fun _ _ => Some 0)
    {| name_ := [4]; nameMemoizedSerializedSize := 0 |}
    (Nano.newInstance [7; 24; 1])
  = None.
Proof.
  apply (unpacked_parse_needs_an_element (Demo.field false)
           (fun _ _ => Some 3) (fun _ _ => Some 0)
           {| name_ := [4]; nameMemoizedSerializedSize := 0 |}
           (Nano.newInstance [7; 24; 1]) 0).
  - reflexivity.
  - reflexivity.
  - lia.
  - vm_compute. reflexivity.
Defined.

(** X17.  An empty packed span clears the field: on a length prefix of
    zero the packed fragment, with the helper that counts the varints of
    the span, reads the one byte, leaves the empty array whatever the
    field held, and keeps the cache. *)
Theorem packed_parse_of_empty_span_clears
  (descriptor : FieldDescriptor) (this : Message)
  (rest : list Z) (pos lim : Z) :
  packed descriptor = true -> pos < lim ->
  MessageCode.ParsingCode descriptor this
    {| Nano.buffer := 0 :: rest; Nano.bufferPos := pos;
       Nano.currentLimit := lim |}
  = Some (set_name this [],
          {| Nano.buffer := rest; Nano.bufferPos := pos + 1;
             Nano.currentLimit := lim |}).
Proof.
  intros Hp Hlim.
  unfold MessageCode.ParsingCode, RepeatedEnumFieldCode.ParsingCode.
  rewrite Hp.
  unfold Nano.readRawVarint32. cbn [Nano.readVarint].
  unfold Nano.readRawByte. cbn [Nano.buffer Nano.bufferPos Nano.currentLimit].
  destruct (Z.leb_spec lim pos); [lia|]. cbn [bind Z.ltb Z.compare].
  change (Java.wrap 0) with 0. unfold Nano.pushLimit.
  cbn [Nano.buffer Nano.bufferPos Nano.currentLimit Z.ltb Z.compare].
  destruct (Z.ltb_spec lim (0 + (pos + 1))); [lia|]. cbn [bind].
  unfold getPackedRepeatedFieldArrayLength. cbn [count_varints].
  unfold Nano.getBytesUntilLimit. cbn [Nano.bufferPos Nano.currentLimit].
  destruct (Z.leb_spec (0 + (pos + 1) - (pos + 1)) 0); [|lia].
  cbn [bind]. reflexivity.
Qed.

Lemma packed_parse_of_empty_span_clears_witness :
  MessageCode.ParsingCode (Demo.field true)
    {| name_ := [9; 9]; nameMemoizedSerializedSize := 2 |}
    {| Nano.buffer := 0 :: [26; 1; 5]; Nano.bufferPos := 1;
       Nano.currentLimit := 2 ^ 31 - 1 |}
  = Some (set_name {| name_ := [9; 9]; nameMemoizedSerializedSize := 2 |} [],
          {| Nano.buffer := [26; 1; 5]; Nano.bufferPos := 1 + 1;
             Nano.currentLimit := 2 ^ 31 - 1 |}).
Proof.
  apply (packed_parse_of_empty_span_clears (Demo.field true)
           {| name_ := [9; 9]; nameMemoizedSerializedSize := 2 |}
           [26; 1; 5] 1 (2 ^ 31 - 1)).
  - reflexivity.
  - lia.
Defined.

End ParseExtras.

(** ** Singular fields: the round trip *)

Module SingularExtras.



End SingularExtras.

(** ** Merging: what the fragment touches *)

Module MergeExtras.

Import RepeatedEnumFieldCode.

Lemma update_length {A : Type} (l : list A) (r : nat) (x : A) :
  List.length (update l r x) = List.length l.
Proof.
  revert r. induction l as [|a l IH]; intros [|r]; simpl; try reflexivity.
  rewrite IH. reflexivity.
Qed.

Lemma update_same_value {A : Type} (l : list A) (r : nat) (x : A) :
  nth_error l r = Some x -> update l r x = l.
Proof.
  revert r. induction l as [|a l IH]; intros [|r] H; simpl in *;
    try discriminate.
  - inversion H. reflexivity.
  - rewrite IH by exact H. reflexivity.
Qed.

Definition demo_scope : Scope :=
  MergeClaims.merge_scope_results MergeClaims.demo_source
    MergeClaims.demo_destination.

Definition demo_merged : Scope :=
  MergeClaims.merge_scope_results MergeClaims.demo_source
    (set_name MergeClaims.demo_destination [3; 1; 2]).

(** X19.  A merge that succeeds rebinds no identifier, allocates and frees
    no object, and leaves every object but the one [result] names as it
    was; in that one only the array changes, the cached size stays. *)
Theorem merge_touches_only_the_result (s s' : Scope) :
  MergingCode s = Some s' ->
  locals s' = locals s /\
  List.length (objects s') = List.length (objects s) /\
  (forall r, lookup "result" (locals s) <> Some r ->
             nth_error (objects s') r = nth_error (objects s) r) /\
  map nameMemoizedSerializedSize (objects s')
  = map nameMemoizedSerializedSize (objects s).
Proof.
  unfold MergingCode. intros H.
  destruct (deref s "other") as [other|]; [|discriminate]. cbn [bind] in H.
  destruct (0 <? Java.length (name_ other)).
  - destruct (deref s "result") as [result|]; [|discriminate].
    cbn [bind] in H.
    destruct (Java.copyOf _ _) as [merged|]; [|discriminate].
    cbn [bind] in H.
    destruct (deref s "results") as [results|]; [|discriminate].
    cbn [bind] in H.
    destruct (Java.arraycopy _ _ _ _ _) as [merged'|]; [|discriminate].
    cbn [bind] in H. unfold assign_name in H.
    destruct (lookup "result" (locals s)) as [r0|]; [|discriminate].
    cbn [bind] in H.
    destruct (nth_error (objects s) r0) as [m0|] eqn:E0; [|discriminate].
    cbn [bind] in H. inversion H; subst. cbn [locals objects].
    split; [reflexivity|]. split; [apply update_length|]. split.
    + intros r Hr. apply CacheFrame.nth_update_other. congruence.
    + rewrite <- (CacheFrame.update_map nameMemoizedSerializedSize).
      apply update_same_value. rewrite nth_error_map, E0. reflexivity.
  - inversion H; subst. repeat split; reflexivity.
Qed.

Lemma merge_touches_only_the_result_witness :
  locals demo_merged = locals demo_scope /\
  List.length (objects demo_merged) = List.length (objects demo_scope) /\
  (forall r, lookup "result" (locals demo_scope) <> Some r ->
             nth_error (objects demo_merged) r
             = nth_error (objects demo_scope) r) /\
  map nameMemoizedSerializedSize (objects demo_merged)
  = map nameMemoizedSerializedSize (objects demo_scope).
Proof.
  apply (merge_touches_only_the_result demo_scope demo_merged).
  reflexivity.
Defined.

(** What the merging fragment computes depends on the length of the array
    of the object [results] names. *)
Lemma MergingCode_at_length_of_results
  (s : Scope) (r : nat) (other result results : Message) :
  deref s "other" = Some other ->
  lookup "result" (locals s) = Some r ->
  nth_error (objects s) r = Some result ->
  deref s "results" = Some results ->
  Java.length (name_ result) + Java.length (name_ other) < 2 ^ 31 ->
  (Java.length (name_ results) = Java.length (name_ result) ->
   MergingCode s
   = Some {| locals := locals s;
             objects := update (objects s) r
                          (set_name result (name_ result ++ name_ other)) |})
  /\
  (Java.length (name_ result) < Java.length (name_ results) ->
   name_ other <> [] ->
   MergingCode s = None).
Proof.
  intros Ho Hr Hres Hrs Hlen.
  assert (Hd : deref s "result" = Some result).
  { unfold deref. rewrite Hr. exact Hres. }
  unfold MergingCode. rewrite Ho. cbn [bind].
  destruct (name_ other) as [|e l] eqn:Eo.
  - split; [|intros _ Hne; contradiction]. intros _.
    change (0 <? Java.length []) with false. cbn [bind]. rewrite app_nil_r.
    replace (set_name result (name_ result)) with result
      by (destruct result; reflexivity).
    rewrite update_same_value by exact Hres. destruct s; reflexivity.
  - replace (0 <? Java.length (e :: l)) with true
      by (symmetry; apply Z.ltb_lt; unfold Java.length; simpl List.length;
          lia).
    rewrite Hd. cbn [bind]. unfold Java.add.
    rewrite Java.wrap_int
      by (unfold Java.is_int, Java.length in *; lia).
    assert (Hc : Java.copyOf (name_ result)
                   (Java.length (name_ result) + Java.length (e :: l))
                 = Some (name_ result ++ repeat 0 (List.length (e :: l))))
      by apply MergeClaims.copyOf_grow.
    rewrite Hc.
    cbn [bind]. rewrite Hrs. cbn [bind]. split.
    + intros Hsame. rewrite Hsame, MergeClaims.arraycopy_tail. cbn [bind].
      unfold assign_name. rewrite Hr. cbn [bind]. rewrite Hres. reflexivity.
    + intros Hmore _. unfold Java.arraycopy.
      replace (Java.length (name_ result ++ repeat 0 (List.length (e :: l)))
               <? Java.length (name_ results) + Java.length (e :: l))
        with true.
      { rewrite !orb_true_r. reflexivity. }
      symmetry. apply Z.ltb_lt. unfold Java.length in *.
      rewrite length_app, repeat_length. lia.
Qed.

Definition demo_longer : Message :=
  {| name_ := [0; 0; 0; 0]; nameMemoizedSerializedSize := 0 |}.

(** A scope in which [results] names a third object. *)
Definition demo_scope_longer : Scope :=
  {| locals := [("other"%string, 0%nat); ("result"%string, 1%nat);
                ("results"%string, 2%nat)];
     objects := [MergeClaims.demo_source; MergeClaims.demo_destination;
                 demo_longer] |}.

(** X20.  When the array of the object [results] names has the length of
    the destination's array - as when [results] names the destination -
    the merge makes the destination's array its own elements followed by
    the source's, and changes nothing else. *)
Theorem merge_appends_at_length_of_results
  (s : Scope) (r : nat) (other result results : Message) :
  deref s "other" = Some other ->
  lookup "result" (locals s) = Some r ->
  nth_error (objects s) r = Some result ->
  deref s "results" = Some results ->
  Java.length (name_ result) + Java.length (name_ other) < 2 ^ 31 ->
  Java.length (name_ results) = Java.length (name_ result) ->
  MergingCode s
  = Some {| locals := locals s;
            objects := update (objects s) r
                         (set_name result (name_ result ++ name_ other)) |}.
Proof.
  intros Ho Hr Hres Hrs Hlen Hsame.
  apply (MergingCode_at_length_of_results s r other result results);
    assumption.
Qed.

Lemma merge_appends_at_length_of_results_witness :
  MergingCode demo_scope
  = Some {| locals := locals demo_scope;
            objects := update (objects demo_scope) 1
                         (set_name MergeClaims.demo_destination
                            (name_ MergeClaims.demo_destination
                             ++ name_ MergeClaims.demo_source)) |}.
Proof.
  apply (merge_appends_at_length_of_results demo_scope 1
           MergeClaims.demo_source MergeClaims.demo_destination
           MergeClaims.demo_destination).
  - reflexivity.
  - reflexivity.
  - reflexivity.
  - reflexivity.
  - vm_compute. reflexivity.
  - reflexivity.
Defined.

(** X21.  When the array of the object [results] names is longer than the
    destination's and the source is not empty, the copy falls outside the
    merged array and the merge raises. *)
Theorem merge_raises_past_length_of_results
  (s : Scope) (r : nat) (other result results : Message) :
  deref s "other" = Some other ->
  lookup "result" (locals s) = Some r ->
  nth_error (objects s) r = Some result ->
  deref s "results" = Some results ->
  Java.length (name_ result) + Java.length (name_ other) < 2 ^ 31 ->
  Java.length (name_ result) < Java.length (name_ results) ->
  name_ other <> [] ->
  MergingCode s = None.
Proof.
  intros Ho Hr Hres Hrs Hlen Hmore Hne.
  apply (MergingCode_at_length_of_results s r other result results);
    assumption.
Qed.

Lemma merge_raises_past_length_of_results_witness :
  MergingCode demo_scope_longer = None.
Proof.
  apply (merge_raises_past_length_of_results demo_scope_longer 1
           MergeClaims.demo_source MergeClaims.demo_destination demo_longer).
  - reflexivity.
  - reflexivity.
  - reflexivity.
  - reflexivity.
  - vm_compute. reflexivity.
  - vm_compute. reflexivity.
  - discriminate.
Defined.

End MergeExtras.
